(** * Animal Chess (Jungle) search engine: the rules, the hasher and the search
    of [ai_engine.c] / [ai_engine.h], embedded as Rocq functions.

    Conventions of the embedding.
    - C [int] and enum values are integers ([Z]); the enum constants keep
      their C names and values.  Arithmetic that can leave the 32-bit range
      is wrapped with [int32], 64-bit arithmetic with [int64] / [uint64].
    - A struct is a record with the C field names; a fixed-size C array is a
      function of its indices.  Where the code itself keeps the index
      inside the array (by a test or by construction) the access is
      written plainly; the write to [path_hashes], whose index the code
      does not test, is defined inside the declared cells only
      ([push_path_hash]).
    - A pointer that may be [NULL] is an [option].
    - Global variables live in the record [Engine]; every function that
      reads or writes them takes and returns the engine state.  The host
      clock [emscripten_get_now] is a stream of readings inside that state.
    - A C [double] is an IEEE 754 binary64 number, Rocq's primitive [float];
      a C [float] is a binary64 number rounded to binary32 after every
      operation ([float] expressions are evaluated in binary32, as on the
      WebAssembly target the file is written for). *)

From Stdlib Require Import ZArith List Bool Lia Permutation Sorted.
From Stdlib Require PrimFloat FloatOps SpecFloat Uint63.
Import ListNotations.
Local Open Scope Z_scope.

(** ** Machine integers *)

Definition int32 (z : Z) : Z := (z + 2 ^ 31) mod 2 ^ 32 - 2 ^ 31.
Definition int64 (z : Z) : Z := (z + 2 ^ 63) mod 2 ^ 64 - 2 ^ 63.
Definition uint64 (z : Z) : Z := z mod 2 ^ 64.

Definition INT_MIN : Z := - 2 ^ 31.
Definition INT_MAX : Z := 2 ^ 31 - 1.

(** [range n] is the index sequence of [for (i = 0; i < n; ++i)]. *)
Definition range (n : Z) : list Z := map Z.of_nat (seq 0 (Z.to_nat n)).

(** ** Floating point

    [double] arithmetic is that of the primitive binary64 floats.  The
    operations on C [float] (binary32) are the binary64 operations followed
    by the rounding to binary32: for a product, a quotient and the
    conversion of an [int] the binary64 result is exact or rounds to the
    same binary32 number as the exact result does, 53 bits being more than
    twice 24 plus 2. *)

Definition double : Type := PrimFloat.float.

Definition dadd : double -> double -> double := PrimFloat.add.
Definition dsub : double -> double -> double := PrimFloat.sub.
Definition dmul : double -> double -> double := PrimFloat.mul.
Definition ddiv : double -> double -> double := PrimFloat.div.
Definition dlt : double -> double -> bool := PrimFloat.ltb.
Definition dle : double -> double -> bool := PrimFloat.leb.

(** [(double)z] for an [int] [z]: exact. *)
Definition double_of_int (z : Z) : double :=
  if z <? 0 then PrimFloat.opp (PrimFloat.of_uint63 (Uint63.of_Z (- z)))
  else PrimFloat.of_uint63 (Uint63.of_Z z).

(** [(float)x]: round to nearest, ties to even, with the exponent range of
    binary32. *)
Definition to_float (x : double) : double :=
  match FloatOps.Prim2SF x with
  | SpecFloat.S754_finite s m e => FloatOps.SF2Prim (SpecFloat.binary_round 24 128 s m e)
  | _ => x
  end.

(** [(float)z] for an [int] [z], and the product and quotient of two floats. *)
Definition float_of_int (z : Z) : double := to_float (double_of_int z).
Definition fmul (x y : double) : double := to_float (dmul x y).
Definition fdiv (x y : double) : double := to_float (ddiv x y).

(** [fmax] of two numbers (neither is a NaN where the code calls it). *)
Definition fmax (x y : double) : double := if dlt x y then y else x.

(** The cast [(int)x] of a double: truncation toward zero (the code applies
    it to finite values inside the range of [int]). *)
Definition double_to_int (x : double) : Z :=
  match FloatOps.Prim2SF x with
  | SpecFloat.S754_finite s m e =>
    let a := if 0 <=? e then Z.pos m * 2 ^ e else Z.pos m / 2 ^ (- e) in
    if s then - a else a
  | _ => 0
  end.

(** ** Constants and enums of ai_engine.h *)

Definition BOARD_ROWS : Z := 9.
Definition BOARD_COLS : Z := 7.

Definition TerrainType := Z.
Definition TERRAIN_LAND : TerrainType := 0.
Definition TERRAIN_WATER : TerrainType := 1.
Definition TERRAIN_TRAP : TerrainType := 2.
Definition TERRAIN_PLAYER0_DEN : TerrainType := 3.
Definition TERRAIN_PLAYER1_DEN : TerrainType := 4.

Definition Player := Z.
Definition PLAYER_NONE : Player := -1.
Definition PLAYER0 : Player := 0.
Definition PLAYER1 : Player := 1.

Definition PieceType := Z.
Definition PIECE_TYPE_RAT : PieceType := 0.
Definition PIECE_TYPE_CAT : PieceType := 1.
Definition PIECE_TYPE_DOG : PieceType := 2.
Definition PIECE_TYPE_WOLF : PieceType := 3.
Definition PIECE_TYPE_LEOPARD : PieceType := 4.
Definition PIECE_TYPE_TIGER : PieceType := 5.
Definition PIECE_TYPE_LION : PieceType := 6.
Definition PIECE_TYPE_ELEPHANT : PieceType := 7.
Definition NUM_PIECE_TYPES : PieceType := 8.
Definition NO_PIECE : PieceType := 9.

Record Piece : Type := mkPiece {
  type : PieceType;
  player : Player;
  rank : Z;
  value : Z
}.

Definition PLAYER0_DEN_ROW : Z := 8.
Definition PLAYER0_DEN_COL : Z := 3.
Definition PLAYER1_DEN_ROW : Z := 0.
Definition PLAYER1_DEN_COL : Z := 3.

Inductive GameStatus : Type :=
| GAME_STATUS_INIT
| GAME_STATUS_ONGOING
| GAME_STATUS_PLAYER0_WINS
| GAME_STATUS_PLAYER1_WINS
| GAME_STATUS_DRAW.

Definition WIN_SCORE : Z := 20000.
Definition LOSE_SCORE : Z := -20000.
Definition DRAW_SCORE : Z := 0.

Definition MAX_PLY_FOR_KILLERS : Z := 30.
Definition TRANSPOSITION_TABLE_SIZE : Z := 2 ^ 20.
Definition MAX_Q_DEPTH : Z := 4.
Definition HISTORY_TABLE_SIZE : Z := NUM_PIECE_TYPES * BOARD_ROWS * BOARD_COLS.

Inductive HashFlag : Type :=
| HASH_EXACT
| HASH_LOWERBOUND
| HASH_UPPERBOUND.

Record Square : Type := mkSquare {
  terrain : TerrainType;
  piece : Piece
}.

Record Board : Type := mkBoard {
  squares : Z -> Z -> Square
}.

Record Move : Type := mkMove {
  from_row : Z;
  from_col : Z;
  to_row : Z;
  to_col : Z;
  piece_type : PieceType;
  captured_piece_type : PieceType;
  order_score : Z
}.

Record TTEntry : Type := mkTTEntry {
  hash_key : Z;
  score : Z;
  depth : Z;
  flag : HashFlag;
  best_move : Move;
  best_move_valid : bool
}.

Definition get_opponent (p : Player) : Player :=
  if p =? PLAYER0 then PLAYER1
  else if p =? PLAYER1 then PLAYER0
  else PLAYER_NONE.

Definition get_history_index (pt : PieceType) (to_r to_c : Z) : Z :=
  pt * (BOARD_ROWS * BOARD_COLS) + to_r * BOARD_COLS + to_c.

(** ** Piece table *)

Definition PIECE_INFO_table : list Piece :=
  [ mkPiece PIECE_TYPE_RAT PLAYER_NONE 1 200;
    mkPiece PIECE_TYPE_CAT PLAYER_NONE 2 200;
    mkPiece PIECE_TYPE_DOG PLAYER_NONE 3 300;
    mkPiece PIECE_TYPE_WOLF PLAYER_NONE 4 400;
    mkPiece PIECE_TYPE_LEOPARD PLAYER_NONE 5 500;
    mkPiece PIECE_TYPE_TIGER PLAYER_NONE 6 700;
    mkPiece PIECE_TYPE_LION PLAYER_NONE 7 800;
    mkPiece PIECE_TYPE_ELEPHANT PLAYER_NONE 8 650 ].

(** [PIECE_INFO pt] is the array read [PIECE_INFO[pt]]; the code only
    indexes it with [0 <= pt < NUM_PIECE_TYPES]. *)
Definition PIECE_INFO (pt : PieceType) : Piece :=
  nth (Z.to_nat pt) PIECE_INFO_table (mkPiece NO_PIECE PLAYER_NONE 0 0).

(** ** Board utilities and rules *)

Definition is_valid_move_coords (r c : Z) : bool :=
  (r >=? 0) && (r <? BOARD_ROWS) && (c >=? 0) && (c <? BOARD_COLS).

Definition rules_is_river (r c : Z) : bool :=
  (r >=? 3) && (r <=? 5) && ((c =? 1) || (c =? 2) || (c =? 4) || (c =? 5)).

Definition rules_get_effective_rank (pc : option Piece) (r c : Z) (board : Board) : Z :=
  match pc with
  | None => 0
  | Some p =>
    if type p =? NO_PIECE then 0 else
    let terrain_ := terrain (squares board r c) in
    let is_player0_trap := ((r =? 8) && ((c =? 2) || (c =? 4))) || ((r =? 7) && (c =? 3)) in
    let is_player1_trap := ((r =? 0) && ((c =? 2) || (c =? 4))) || ((r =? 1) && (c =? 3)) in
    if (terrain_ =? TERRAIN_TRAP)
       && (((player p =? PLAYER0) && is_player1_trap)
           || ((player p =? PLAYER1) && is_player0_trap))
    then 0
    else rank p
  end.

Definition rules_can_capture (attacker defender : option Piece)
    (att_r att_c def_r def_c : Z) (board : Board) : bool :=
  match attacker, defender with
  | Some att, Some def =>
    if (type att =? NO_PIECE) || (type def =? NO_PIECE) || (player att =? player def)
    then false else
    let att_terrain := terrain (squares board att_r att_c) in
    let def_terrain := terrain (squares board def_r def_c) in
    if (att_terrain =? TERRAIN_WATER) && negb (type att =? PIECE_TYPE_RAT) then false else
    if (att_terrain =? TERRAIN_WATER) && negb (def_terrain =? TERRAIN_WATER)
       && negb ((type att =? PIECE_TYPE_RAT) && (type def =? PIECE_TYPE_ELEPHANT)
                && negb (def_terrain =? TERRAIN_WATER))
    then false else
    if (type att =? PIECE_TYPE_RAT) && (type def =? PIECE_TYPE_ELEPHANT)
    then negb (att_terrain =? TERRAIN_WATER) else
    if (type att =? PIECE_TYPE_ELEPHANT) && (type def =? PIECE_TYPE_RAT)
    then false else
    let attacker_rank := rules_get_effective_rank attacker att_r att_c board in
    let defender_rank := rules_get_effective_rank defender def_r def_c board in
    attacker_rank >=? defender_rank
  | _, _ => false
  end.

(** The address of the piece on a square, or [NULL] when the square is empty
    ([target_piece_ptr] in the generator, [tgt_p] in the evaluator). *)
Definition piece_ptr (board : Board) (r c : Z) : option Piece :=
  if negb (type (piece (squares board r c)) =? NO_PIECE)
  then Some (piece (squares board r c)) else None.

Definition is_some {A : Type} (o : option A) : bool :=
  match o with Some _ => true | None => false end.

Definition captured_type_of (target_piece_ptr : option Piece) : PieceType :=
  match target_piece_ptr with Some t => type t | None => NO_PIECE end.

Definition own_den_terrain_of (pl : Player) : TerrainType :=
  if pl =? PLAYER0 then TERRAIN_PLAYER0_DEN else TERRAIN_PLAYER1_DEN.

Definition dr : list Z := [-1; 1; 0; 0].
Definition dc_coords : list Z := [0; 0; -1; 1].

(** One iteration of the orthogonal loop (lines 182-208): the move it
    appends, if any. *)
Definition orthogonal_step (board : Board) (r c : Z) (pce : Piece)
    (captures_only : bool) (i : nat) : list Move :=
  let nr := r + nth i dr 0 in
  let nc := c + nth i dc_coords 0 in
  if negb (is_valid_move_coords nr nc) then [] else
  let target_terrain := terrain (squares board nr nc) in
  let target_piece_ptr := piece_ptr board nr nc in
  let captured_type := captured_type_of target_piece_ptr in
  if captures_only && negb (is_some target_piece_ptr) then [] else
  if target_terrain =? own_den_terrain_of (player pce) then [] else
  if (target_terrain =? TERRAIN_WATER) && negb (type pce =? PIECE_TYPE_RAT) then [] else
  match target_piece_ptr with
  | Some t =>
    if player t =? player pce then [] else
    if negb (rules_can_capture (Some pce) target_piece_ptr r c nr nc board) then [] else
    [mkMove r c nr nc (type pce) captured_type 0]
  | None => [mkMove r c nr nc (type pce) captured_type 0]
  end.

(** A jump template: the landing square and the three [river_coords] pairs
    (the third pair is [(-1,-1)] for the two-cell horizontal jumps). *)
Record JumpPath : Type := mkJumpPath {
  jump_target_r : Z;
  jump_target_c : Z;
  river_cells : list (Z * Z)
}.

(** Lines 211-238: the jump templates collected for the piece, in order. *)
Definition jump_paths (pt : PieceType) (r c : Z) : list JumpPath :=
  (if rules_is_river 3 c && negb (pt =? PIECE_TYPE_RAT) then
     if r =? 2 then [mkJumpPath 6 c [(3, c); (4, c); (5, c)]]
     else if r =? 6 then [mkJumpPath 2 c [(5, c); (4, c); (3, c)]]
     else []
   else [])
  ++
  (if pt =? PIECE_TYPE_LION then
     (if rules_is_river r 1 && rules_is_river r 2 && negb (pt =? PIECE_TYPE_RAT) then
        if c =? 0 then [mkJumpPath r 3 [(r, 1); (r, 2); (-1, -1)]]
        else if c =? 3 then [mkJumpPath r 0 [(r, 2); (r, 1); (-1, -1)]]
        else []
      else [])
     ++
     (if rules_is_river r 4 && rules_is_river r 5 && negb (pt =? PIECE_TYPE_RAT) then
        if c =? 3 then [mkJumpPath r 6 [(r, 4); (r, 5); (-1, -1)]]
        else if c =? 6 then [mkJumpPath r 3 [(r, 5); (r, 4); (-1, -1)]]
        else []
      else [])
   else []).

(** Lines 241-248: the scan of the river cells of one path. *)
Fixpoint path_blocked (board : Board) (cells : list (Z * Z)) : bool :=
  match cells with
  | [] => false
  | (river_r, river_c) :: rest =>
    if (river_r =? -1) && (river_c =? -1) then false
    else if negb (rules_is_river river_r river_c)
            || negb (type (piece (squares board river_r river_c)) =? NO_PIECE)
    then true
    else path_blocked board rest
  end.

(** One iteration of the jump loop (lines 239-265). *)
Definition jump_step (board : Board) (r c : Z) (pce : Piece)
    (captures_only : bool) (j : JumpPath) : list Move :=
  let nr := jump_target_r j in
  let nc := jump_target_c j in
  if path_blocked board (river_cells j) then [] else
  let target_terrain := terrain (squares board nr nc) in
  let target_piece_ptr := piece_ptr board nr nc in
  let captured_type := captured_type_of target_piece_ptr in
  if captures_only && negb (is_some target_piece_ptr) then [] else
  if target_terrain =? own_den_terrain_of (player pce) then [] else
  if target_terrain =? TERRAIN_WATER then [] else
  match target_piece_ptr with
  | Some t =>
    if player t =? player pce then [] else
    if negb (rules_can_capture (Some pce) target_piece_ptr r c nr nc board) then [] else
    [mkMove r c nr nc (type pce) captured_type 0]
  | None => [mkMove r c nr nc (type pce) captured_type 0]
  end.

(** The moves written to [moves_array], in order ([*num_piece_moves] is the
    length of the list). *)
Definition rules_get_valid_moves_for_piece (board : Board) (r c : Z)
    (captures_only : bool) : list Move :=
  if type (piece (squares board r c)) =? NO_PIECE then [] else
  let pce := piece (squares board r c) in
  flat_map (orthogonal_step board r c pce captures_only) (seq 0 4)
  ++
  (if (type pce =? PIECE_TYPE_LION) || (type pce =? PIECE_TYPE_TIGER)
   then flat_map (jump_step board r c pce captures_only) (jump_paths (type pce) r c)
   else []).

(** The inner copy loop of [generate_all_valid_moves] with its capacity guard. *)
Definition append_capped (acc piece_moves : list Move) : list Move :=
  fold_left
    (fun acc m =>
       if Z.of_nat (length acc) <? BOARD_ROWS * BOARD_COLS * 8 then acc ++ [m] else acc)
    piece_moves acc.

Definition generate_all_valid_moves (board : Board) (pl : Player)
    (captures_only : bool) : list Move :=
  fold_left
    (fun acc r =>
       fold_left
         (fun acc c =>
            if negb (type (piece (squares board r c)) =? NO_PIECE)
               && (player (piece (squares board r c)) =? pl)
            then append_capped acc (rules_get_valid_moves_for_piece board r c captures_only)
            else acc)
         (range BOARD_COLS) acc)
    (range BOARD_ROWS) [].

(** The counters and flags of [rules_get_game_status]. *)
Record StatusScan : Type := mkStatusScan {
  p0c : Z; p1c : Z; p0d : bool; p1d : bool
}.

Definition status_scan_square (board : Board) (r c : Z) (s : StatusScan) : StatusScan :=
  match piece_ptr board r c with
  | Some p =>
    if player p =? PLAYER0
    then mkStatusScan (p0c s + 1) (p1c s)
           (if terrain (squares board r c) =? TERRAIN_PLAYER1_DEN then true else p0d s)
           (p1d s)
    else mkStatusScan (p0c s) (p1c s + 1) (p0d s)
           (if terrain (squares board r c) =? TERRAIN_PLAYER0_DEN then true else p1d s)
  | None => s
  end.

Definition status_scan (board : Board) : StatusScan :=
  fold_left
    (fun s r => fold_left (fun s c => status_scan_square board r c s) (range BOARD_COLS) s)
    (range BOARD_ROWS) (mkStatusScan 0 0 false false).

Definition rules_get_game_status (board : Board) : GameStatus :=
  let s := status_scan board in
  if p0d s then GAME_STATUS_PLAYER0_WINS else
  if p1d s then GAME_STATUS_PLAYER1_WINS else
  if (p1c s =? 0) && (p0c s >? 0) then GAME_STATUS_PLAYER0_WINS else
  if (p0c s =? 0) && (p1c s >? 0) then GAME_STATUS_PLAYER1_WINS else
  if (p0c s =? 0) && (p1c s =? 0) then GAME_STATUS_DRAW else
  GAME_STATUS_ONGOING.

(** ** Global state of the engine *)

Record Engine : Type := mkEngine {
  zobrist_table : Z -> Z -> Z -> Z -> Z;
  zobrist_player1_to_move : Z;
  zobrist_initialized : bool;
  lcg_rand_state : Z;
  ai_run_counter : Z;
  killer_moves : Z -> Z -> Move;
  killer_moves_valid : Z -> Z -> bool;
  transposition_table : Z -> TTEntry;
  history_heuristic : Z -> Z;
  start_search_time_ms : double;
  current_time_limit_ms : Z;
  (** the array [path_hashes_main] of the driver, which every [alpha_beta]
      call receives as [path_hashes]; its cells are those of the indices
      0 .. 34, and it is not initialised: any content at the start *)
  path_hashes : Z -> Z;
  (** the host clock: [host_clock n] is what the [n]-th call of
      [emscripten_get_now] returns; [clock_reads] counts the calls made *)
  host_clock : nat -> double;
  clock_reads : nat
}.

Definition set_zobrist_table (st : Engine) (v : Z -> Z -> Z -> Z -> Z) : Engine :=
  mkEngine v (zobrist_player1_to_move st) (zobrist_initialized st) (lcg_rand_state st)
    (ai_run_counter st) (killer_moves st) (killer_moves_valid st) (transposition_table st)
    (history_heuristic st) (start_search_time_ms st) (current_time_limit_ms st)
    (path_hashes st) (host_clock st) (clock_reads st).

Definition set_zobrist_player1_to_move (st : Engine) (v : Z) : Engine :=
  mkEngine (zobrist_table st) v (zobrist_initialized st) (lcg_rand_state st)
    (ai_run_counter st) (killer_moves st) (killer_moves_valid st) (transposition_table st)
    (history_heuristic st) (start_search_time_ms st) (current_time_limit_ms st)
    (path_hashes st) (host_clock st) (clock_reads st).

Definition set_zobrist_initialized (st : Engine) (v : bool) : Engine :=
  mkEngine (zobrist_table st) (zobrist_player1_to_move st) v (lcg_rand_state st)
    (ai_run_counter st) (killer_moves st) (killer_moves_valid st) (transposition_table st)
    (history_heuristic st) (start_search_time_ms st) (current_time_limit_ms st)
    (path_hashes st) (host_clock st) (clock_reads st).

Definition set_lcg_rand_state (st : Engine) (v : Z) : Engine :=
  mkEngine (zobrist_table st) (zobrist_player1_to_move st) (zobrist_initialized st) v
    (ai_run_counter st) (killer_moves st) (killer_moves_valid st) (transposition_table st)
    (history_heuristic st) (start_search_time_ms st) (current_time_limit_ms st)
    (path_hashes st) (host_clock st) (clock_reads st).

Definition set_ai_run_counter (st : Engine) (v : Z) : Engine :=
  mkEngine (zobrist_table st) (zobrist_player1_to_move st) (zobrist_initialized st)
    (lcg_rand_state st) v (killer_moves st) (killer_moves_valid st) (transposition_table st)
    (history_heuristic st) (start_search_time_ms st) (current_time_limit_ms st)
    (path_hashes st) (host_clock st) (clock_reads st).

Definition set_killers (st : Engine) (km : Z -> Z -> Move) (kv : Z -> Z -> bool) : Engine :=
  mkEngine (zobrist_table st) (zobrist_player1_to_move st) (zobrist_initialized st)
    (lcg_rand_state st) (ai_run_counter st) km kv (transposition_table st)
    (history_heuristic st) (start_search_time_ms st) (current_time_limit_ms st)
    (path_hashes st) (host_clock st) (clock_reads st).

Definition set_transposition_table (st : Engine) (v : Z -> TTEntry) : Engine :=
  mkEngine (zobrist_table st) (zobrist_player1_to_move st) (zobrist_initialized st)
    (lcg_rand_state st) (ai_run_counter st) (killer_moves st) (killer_moves_valid st) v
    (history_heuristic st) (start_search_time_ms st) (current_time_limit_ms st)
    (path_hashes st) (host_clock st) (clock_reads st).

Definition set_history_heuristic (st : Engine) (v : Z -> Z) : Engine :=
  mkEngine (zobrist_table st) (zobrist_player1_to_move st) (zobrist_initialized st)
    (lcg_rand_state st) (ai_run_counter st) (killer_moves st) (killer_moves_valid st)
    (transposition_table st) v (start_search_time_ms st) (current_time_limit_ms st)
    (path_hashes st) (host_clock st) (clock_reads st).

Definition set_start_search_time_ms (st : Engine) (v : double) : Engine :=
  mkEngine (zobrist_table st) (zobrist_player1_to_move st) (zobrist_initialized st)
    (lcg_rand_state st) (ai_run_counter st) (killer_moves st) (killer_moves_valid st)
    (transposition_table st) (history_heuristic st) v (current_time_limit_ms st)
    (path_hashes st) (host_clock st) (clock_reads st).

Definition set_current_time_limit_ms (st : Engine) (v : Z) : Engine :=
  mkEngine (zobrist_table st) (zobrist_player1_to_move st) (zobrist_initialized st)
    (lcg_rand_state st) (ai_run_counter st) (killer_moves st) (killer_moves_valid st)
    (transposition_table st) (history_heuristic st) (start_search_time_ms st) v
    (path_hashes st) (host_clock st) (clock_reads st).

Definition set_path_hashes (st : Engine) (v : Z -> Z) : Engine :=
  mkEngine (zobrist_table st) (zobrist_player1_to_move st) (zobrist_initialized st)
    (lcg_rand_state st) (ai_run_counter st) (killer_moves st) (killer_moves_valid st)
    (transposition_table st) (history_heuristic st) (start_search_time_ms st)
    (current_time_limit_ms st) v (host_clock st) (clock_reads st).

Definition set_clock_reads (st : Engine) (v : nat) : Engine :=
  mkEngine (zobrist_table st) (zobrist_player1_to_move st) (zobrist_initialized st)
    (lcg_rand_state st) (ai_run_counter st) (killer_moves st) (killer_moves_valid st)
    (transposition_table st) (history_heuristic st) (start_search_time_ms st)
    (current_time_limit_ms st) (path_hashes st) (host_clock st) v.

(** [emscripten_get_now()]: the next reading of the host clock. *)
Definition emscripten_get_now (st : Engine) : double * Engine :=
  (host_clock st (clock_reads st), set_clock_reads st (S (clock_reads st))).

(** [now - start > limit], a subtraction and a comparison of doubles. *)
Definition elapsed_exceeds (now start : double) (limit : Z) : bool :=
  dlt (double_of_int limit) (dsub now start).

(** [now - start_search_time_ms > current_time_limit_ms] *)
Definition time_is_up (now : double) (st : Engine) : bool :=
  elapsed_exceeds now (start_search_time_ms st) (current_time_limit_ms st).

(** [now - start_search_time_ms <= current_time_limit_ms], the test of
    line 707 (not the negation of the other when a reading is not a
    number). *)
Definition time_is_left (now : double) (st : Engine) : bool :=
  dle (dsub now (start_search_time_ms st)) (double_of_int (current_time_limit_ms st)).

(** ** Zobrist hashing *)

Definition random_int64 (st : Engine) : Z * Engine :=
  let s := uint64 (lcg_rand_state st * 6364136223846793005 + 1442695040888963407) in
  (int64 s, set_lcg_rand_state st s).

Definition set_zobrist_cell (st : Engine) (pt p r c : Z) (k : Z) : Engine :=
  set_zobrist_table st
    (fun pt' p' r' c' =>
       if (pt' =? pt) && (p' =? p) && (r' =? r) && (c' =? c) then k
       else zobrist_table st pt' p' r' c').

Definition initialize_zobrist (st : Engine) : Engine :=
  if zobrist_initialized st then st else
  let st1 :=
    fold_left (fun st pt =>
      fold_left (fun st p =>
        fold_left (fun st r =>
          fold_left (fun st c =>
            let (k, st') := random_int64 st in set_zobrist_cell st' pt p r c k)
            (range BOARD_COLS) st)
          (range BOARD_ROWS) st)
        (range 2) st)
      (range NUM_PIECE_TYPES) st in
  let (k, st2) := random_int64 st1 in
  set_zobrist_initialized (set_zobrist_player1_to_move st2 k) true.

(** The body of the double loop of [compute_zobrist_key_full]. *)
Definition zobrist_square (st : Engine) (board : Board) (r c : Z) (key : Z) : Z :=
  if negb (type (piece (squares board r c)) =? NO_PIECE) then
    let pce := piece (squares board r c) in
    Z.lxor key (zobrist_table st (type pce) (player pce) r c)
  else key.

Definition compute_zobrist_key_full (board : Board) (player_to_move : Player)
    (st : Engine) : Z * Engine :=
  let st := if negb (zobrist_initialized st) then initialize_zobrist st else st in
  let key :=
    fold_left
      (fun key r => fold_left (fun key c => zobrist_square st board r c key) (range BOARD_COLS) key)
      (range BOARD_ROWS) 0 in
  let key := if player_to_move =? PLAYER1 then Z.lxor key (zobrist_player1_to_move st) else key in
  (key, st).

(** ** Applying a move *)

Definition set_piece (b : Board) (r c : Z) (p : Piece) : Board :=
  mkBoard (fun r' c' =>
    if (r' =? r) && (c' =? c) then mkSquare (terrain (squares b r' c')) p
    else squares b r' c').

Definition set_piece_type (b : Board) (r c : Z) (t : PieceType) : Board :=
  let old := piece (squares b r c) in
  set_piece b r c (mkPiece t (player old) (rank old) (value old)).

(** Returns [*next_board] and the new value of [*current_hash_ptr]. *)
Definition simulate_move_and_update_hash (st : Engine) (current_board : Board)
    (move : Move) (moved_piece_original_type : PieceType) (pl : Player)
    (current_hash : Z) : Board * Z :=
  let next_board := current_board in
  let hash := current_hash in
  let hash := Z.lxor hash
    (zobrist_table st moved_piece_original_type pl (from_row move) (from_col move)) in
  let hash :=
    if negb (captured_piece_type move =? NO_PIECE) then
      let captured_player := get_opponent pl in
      Z.lxor hash
        (zobrist_table st (captured_piece_type move) captured_player (to_row move) (to_col move))
    else hash in
  let moving_piece_data :=
    mkPiece moved_piece_original_type pl
      (rank (PIECE_INFO moved_piece_original_type))
      (value (PIECE_INFO moved_piece_original_type)) in
  let next_board := set_piece next_board (to_row move) (to_col move) moving_piece_data in
  let next_board := set_piece_type next_board (from_row move) (from_col move) NO_PIECE in
  let hash := Z.lxor hash
    (zobrist_table st moved_piece_original_type pl (to_row move) (to_col move)) in
  let hash := Z.lxor hash (zobrist_player1_to_move st) in
  (next_board, hash).

(** ** Deserialisation of the flat board *)

Definition uint32 (z : Z) : Z := z mod 2 ^ 32.

Definition set_square (b : Board) (r c : Z) (s : Square) : Board :=
  mkBoard (fun r' c' => if (r' =? r) && (c' =? c) then s else squares b r' c').

(** One cell of [deserialize_board], reading the triple at [flat_data[k..k+2]].
    [TerrainType] and [PieceType] have no negative enumerator, so under the
    compiler of the WebAssembly build their casts are conversions to an
    unsigned 32-bit value (a negative entry is no piece type below
    [NUM_PIECE_TYPES]); [Player] is signed.  Reads past the end of
    [flat_data] yield 0. *)
Definition deserialize_cell (flat_data : list Z) (k r c : Z) (board : Board) : Board :=
  let terrain_ := uint32 (nth (Z.to_nat k) flat_data 0) in
  let pt := uint32 (nth (Z.to_nat (k + 1)) flat_data 0) in
  let p := nth (Z.to_nat (k + 2)) flat_data 0 in
  let old := piece (squares board r c) in
  if negb (pt =? NO_PIECE) && (pt <? NUM_PIECE_TYPES) then
    set_square board r c
      (mkSquare terrain_ (mkPiece pt p (rank (PIECE_INFO pt)) (value (PIECE_INFO pt))))
  else
    set_square board r c
      (mkSquare terrain_ (mkPiece NO_PIECE (player old) (rank old) (value old))).

(** [board] is the caller's uninitialised [Board]; the result is what it
    holds after the call. *)
Definition deserialize_board (flat_data : list Z) (board : Board) : Board :=
  let rows := nth 0 flat_data 0 in
  let cols := nth 1 flat_data 0 in
  snd (fold_left
         (fun kb r =>
            fold_left
              (fun kb c => (fst kb + 3, deserialize_cell flat_data (fst kb) r c (snd kb)))
              (range cols) kb)
         (range rows) (2, board)).

(** ** Evaluation

    The weights are [float] constants and the accumulators [ai_s] and [pl_s]
    are doubles: a term that multiplies or divides [int] and [float]
    operands is computed in binary32, converted to double and added to the
    accumulator; the den-proximity term starts from a double and is
    computed in binary64.  Every term is added to the running sum of the
    side, in the order of the statements. *)

(** The decimal constants [0.2f], [0.3f], [-0.7f], [1.5f] and [0.1] are the
    nearest binary32 (binary64 for [0.1]) numbers, which the correctly
    rounded quotients of the integers are. *)
Definition MATERIAL_W : double := float_of_int 1.
Definition ADVANCEMENT_W : double := fdiv (float_of_int 2) (float_of_int 10).
Definition DEN_PROXIMITY_W : double := float_of_int 6.
Definition ATTACK_THREAT_W : double := fdiv (float_of_int 15) (float_of_int 10).
Definition KEY_SQUARE_W : double := fdiv (float_of_int 3) (float_of_int 10).
Definition TRAPPED_PENALTY_W : double := float_of_int (- 3).
Definition DEFENSE_PENALTY_W : double := fdiv (float_of_int (- 7)) (float_of_int 10).
Definition ADVANCEMENT_VALUE_SCALE_DIVISOR : double := float_of_int 150.
Definition GENERAL_VALUE_SCALE_DIVISOR : double := float_of_int 100.
Definition DEN_PROXIMITY_MAX_DISTANCE : Z := 15.
Definition DEFENSE_PENALTY_START_ROW_OFFSET : Z := 3.

Definition is_key_sq_p0 (r c : Z) : bool :=
  ((r =? 4) && ((c =? 2) || (c =? 3) || (c =? 4)))
  || ((r =? 1) && ((c =? 2) || (c =? 4)))
  || ((r =? 2) && (c =? 3)).

Definition is_key_sq_p1 (r c : Z) : bool :=
  ((r =? 4) && ((c =? 2) || (c =? 3) || (c =? 4)))
  || ((r =? 7) && ((c =? 2) || (c =? 4)))
  || ((r =? 6) && (c =? 3)).

(** Lines 326-340: [s] is [*eval_s_ref] before the statements for the piece
    on [(r, c)], the result is its value after them. *)
Definition evaluate_piece (board : Board) (r c : Z) (pce : Piece) (s : double) : double :=
  let plr := player pce in
  let s := dadd s (fmul (float_of_int (value pce)) MATERIAL_W) in
  let adv := if plr =? PLAYER1 then r else BOARD_ROWS - 1 - r in
  let s :=
    dadd s (fmul (fmul (float_of_int adv) ADVANCEMENT_W)
              (fdiv (float_of_int (value pce)) ADVANCEMENT_VALUE_SCALE_DIVISOR)) in
  let s :=
    if negb (type pce =? PIECE_TYPE_RAT) then
      let s :=
        if (plr =? PLAYER1) && (r <? DEFENSE_PENALTY_START_ROW_OFFSET)
        then dadd s (fmul (fmul (float_of_int (r - DEFENSE_PENALTY_START_ROW_OFFSET))
                             DEFENSE_PENALTY_W)
                       (fdiv (float_of_int (value pce)) GENERAL_VALUE_SCALE_DIVISOR))
        else s in
      if (plr =? PLAYER0) && (r >? BOARD_ROWS - 1 - DEFENSE_PENALTY_START_ROW_OFFSET)
      then dadd s (fmul (fmul (float_of_int ((BOARD_ROWS - 1 - r)
                                             - DEFENSE_PENALTY_START_ROW_OFFSET))
                           DEFENSE_PENALTY_W)
                     (fdiv (float_of_int (value pce)) GENERAL_VALUE_SCALE_DIVISOR))
      else s
    else s in
  let s :=
    if (rules_get_effective_rank (Some pce) r c board =? 0)
       && (terrain (squares board r c) =? TERRAIN_TRAP)
    then dadd s (fmul TRAPPED_PENALTY_W
                   (fdiv (float_of_int (value pce)) GENERAL_VALUE_SCALE_DIVISOR))
    else s in
  let s :=
    if ((plr =? PLAYER0) && is_key_sq_p0 r c) || ((plr =? PLAYER1) && is_key_sq_p1 r c)
    then dadd s (fmul KEY_SQUARE_W
                   (fdiv (float_of_int (value pce)) GENERAL_VALUE_SCALE_DIVISOR))
    else s in
  let den_r := if plr =? PLAYER1 then PLAYER0_DEN_ROW else PLAYER1_DEN_ROW in
  let den_c := if plr =? PLAYER1 then PLAYER0_DEN_COL else PLAYER1_DEN_COL in
  let d_den := Z.abs (r - den_r) + Z.abs (c - den_c) in
  let adv_f : double :=
    if ((plr =? PLAYER1) && (r <? BOARD_ROWS / 2)) || ((plr =? PLAYER0) && (r >? BOARD_ROWS / 2))
    then ddiv (double_of_int 1) (double_of_int 10) else double_of_int 1 in
  let s :=
    dadd s
      (dmul (dmul (dmul (fmax (double_of_int 0)
                           (double_of_int (DEN_PROXIMITY_MAX_DISTANCE - d_den)))
                     DEN_PROXIMITY_W)
               (fdiv (float_of_int (value pce)) GENERAL_VALUE_SCALE_DIVISOR))
         adv_f) in
  fold_left
    (fun (s : double) (i : nat) =>
       let nr := r + nth i dr 0 in
       let nc := c + nth i dc_coords 0 in
       if is_valid_move_coords nr nc then
         match piece_ptr board nr nc with
         | Some tgt_p =>
           if negb (player tgt_p =? plr)
              && rules_can_capture (Some pce) (Some tgt_p) r c nr nc board
           then dadd s (fdiv (fmul (float_of_int (value tgt_p)) ATTACK_THREAT_W)
                          GENERAL_VALUE_SCALE_DIVISOR)
           else s
         | None => s
         end
       else s)
    (seq 0 4) s.

Record EvalScan : Type := mkEvalScan {
  ai_s : double; pl_s : double; p0_ct : Z; p1_ct : Z
}.

Definition evaluate_square (board : Board) (r c : Z) (e : EvalScan) : EvalScan :=
  if negb (type (piece (squares board r c)) =? NO_PIECE) then
    let pce := piece (squares board r c) in
    let plr := player pce in
    mkEvalScan
      (if plr =? PLAYER1 then evaluate_piece board r c pce (ai_s e) else ai_s e)
      (if plr =? PLAYER1 then pl_s e else evaluate_piece board r c pce (pl_s e))
      (if plr =? PLAYER0 then p0_ct e + 1 else p0_ct e)
      (if plr =? PLAYER0 then p1_ct e else p1_ct e + 1)
  else e.

Definition evaluate_board_internal (board : Board) : Z :=
  match rules_get_game_status board with
  | GAME_STATUS_PLAYER1_WINS => WIN_SCORE
  | GAME_STATUS_PLAYER0_WINS => LOSE_SCORE
  | GAME_STATUS_DRAW => DRAW_SCORE
  | _ =>
    let e :=
      fold_left
        (fun e r => fold_left (fun e c => evaluate_square board r c e) (range BOARD_COLS) e)
        (range BOARD_ROWS) (mkEvalScan (double_of_int 0) (double_of_int 0) 0 0) in
    if (p1_ct e =? 0) && (p0_ct e >? 0) then LOSE_SCORE else
    if (p0_ct e =? 0) && (p1_ct e >? 0) then WIN_SCORE else
    double_to_int (dsub (ai_s e) (pl_s e))
  end.

(** ** Killer moves and move ordering *)

Definition same_squares (a b : Move) : bool :=
  (from_row a =? from_row b) && (from_col a =? from_col b)
  && (to_row a =? to_row b) && (to_col a =? to_col b).

Definition record_killer_move (ply : Z) (move : Move) (st : Engine) : Engine :=
  if (ply <? 0) || (ply >=? MAX_PLY_FOR_KILLERS) then st else
  if negb (killer_moves_valid st ply 0) || negb (same_squares (killer_moves st ply 0) move)
  then
    set_killers st
      (fun p s =>
         if p =? ply then
           if s =? 0 then move
           else if s =? 1 then killer_moves st ply 0
           else killer_moves st p s
         else killer_moves st p s)
      (fun p s =>
         if p =? ply then
           if s =? 0 then true
           else if s =? 1 then killer_moves_valid st ply 0
           else killer_moves_valid st p s
         else killer_moves_valid st p s)
  else st.

Definition set_order_score (m : Move) (s : Z) : Move :=
  mkMove (from_row m) (from_col m) (to_row m) (to_col m)
    (piece_type m) (captured_piece_type m) s.

(** The score the first loop of [order_moves] gives to [m]. *)
Definition move_order_score (st : Engine) (m : Move) (tt_move : option Move)
    (tt_move_valid : bool) (ply : Z) : Z :=
  let history := history_heuristic st (get_history_index (piece_type m) (to_row m) (to_col m)) in
  if tt_move_valid
     && match tt_move with Some t => same_squares m t | None => false end
  then 200000
  else if negb (captured_piece_type m =? NO_PIECE) then
    let attacker_value := value (PIECE_INFO (piece_type m)) in
    let victim_value := value (PIECE_INFO (captured_piece_type m)) in
    100000 + victim_value * 100 - attacker_value
  else if (ply >=? 0) && (ply <? MAX_PLY_FOR_KILLERS) then
    if killer_moves_valid st ply 0 && same_squares m (killer_moves st ply 0) then 90000
    else if killer_moves_valid st ply 1 && same_squares m (killer_moves st ply 1) then 80000
    else history
  else history.

(** The inner loop of the bubble sort: [k] adjacent comparisons from the front. *)
Fixpoint bubble_pass (k : nat) (moves : list Move) : list Move :=
  match k, moves with
  | S k', a :: b :: rest =>
    if order_score a <? order_score b
    then b :: bubble_pass k' (a :: rest)
    else a :: bubble_pass k' (b :: rest)
  | _, _ => moves
  end.

Definition bubble_sort (moves : list Move) : list Move :=
  let n := length moves in
  fold_left (fun ms i => bubble_pass (n - i - 1) ms) (seq 0 (n - 1)) moves.

Definition order_moves (st : Engine) (moves : list Move) (tt_move : option Move)
    (tt_move_valid : bool) (ply : Z) : list Move :=
  bubble_sort
    (map (fun m => set_order_score m (move_order_score st m tt_move tt_move_valid ply)) moves).

(** ** Search *)

(** The value [888888] that a node returns when the time budget is spent. *)
Definition TIMEOUT_SCORE : Z := 888888.

Definition NMP_REDUCTION : Z := 3.
Definition LMR_REDUCTION_BASE : Z := 1.
Definition LMR_MOVES_TRIED_THRESHOLD : Z := 4.

(** [ai_run_counter++] followed by the time check that opens both search
    functions. *)
Definition enter_node (st : Engine) : bool * Engine :=
  let st := set_ai_run_counter st (uint64 (ai_run_counter st + 1)) in
  let (now, st) := emscripten_get_now st in
  (time_is_up now st, st).

(** *** Quiescence search

    The recursive call is a parameter ([rec]) of the loop and of the node
    body; [quiescence_search] ties the knot on a fuel argument, and returns
    [None] only when the fuel is spent. *)

Definition QSearchFn : Type :=
  Board -> Z -> Z -> Z -> bool -> Z -> Z -> Engine -> option (Z * Engine).

(** The capture loop, lines 455-471. *)
Fixpoint quiescence_loop (rec : QSearchFn) (current_board : Board) (current_hash : Z)
    (is_maximizing_player : bool) (ply q_depth : Z)
    (capture_moves : list Move) (alpha beta : Z) (st : Engine) : option (Z * Engine) :=
  match capture_moves with
  | [] => Some (if is_maximizing_player then alpha else beta, st)
  | m :: rest =>
    let player_to_move := if is_maximizing_player then PLAYER1 else PLAYER0 in
    let (next_board_state, next_hash) :=
      simulate_move_and_update_hash st current_board m (piece_type m) player_to_move
        current_hash in
    match rec next_board_state next_hash alpha beta (negb is_maximizing_player) ply
            (int32 (q_depth + 1)) st with
    | None => None
    | Some (score_, st) =>
      if score_ =? TIMEOUT_SCORE then Some (TIMEOUT_SCORE, st) else
      if is_maximizing_player then
        let alpha := if score_ >? alpha then score_ else alpha in
        if alpha >=? beta then Some (beta, st)
        else quiescence_loop rec current_board current_hash is_maximizing_player ply q_depth
               rest alpha beta st
      else
        let beta := if score_ <? beta then score_ else beta in
        if alpha >=? beta then Some (alpha, st)
        else quiescence_loop rec current_board current_hash is_maximizing_player ply q_depth
               rest alpha beta st
    end
  end.

Definition quiescence_node (rec : QSearchFn) (current_board : Board) (current_hash : Z)
    (alpha beta : Z) (is_maximizing_player : bool) (ply q_depth : Z) (st : Engine)
    : option (Z * Engine) :=
  let (expired, st) := enter_node st in
  if expired then Some (TIMEOUT_SCORE, st) else
  let stand_pat_score := evaluate_board_internal current_board in
  if q_depth >=? MAX_Q_DEPTH then Some (stand_pat_score, st) else
  if is_maximizing_player && (stand_pat_score >=? beta) then Some (beta, st) else
  if negb is_maximizing_player && (stand_pat_score <=? alpha) then Some (alpha, st) else
  let alpha :=
    if is_maximizing_player && (stand_pat_score >? alpha) then stand_pat_score else alpha in
  let beta :=
    if negb is_maximizing_player && (stand_pat_score <? beta) then stand_pat_score else beta in
  let player_to_move := if is_maximizing_player then PLAYER1 else PLAYER0 in
  let capture_moves := generate_all_valid_moves current_board player_to_move true in
  let capture_moves := order_moves st capture_moves None false (-1) in
  quiescence_loop rec current_board current_hash is_maximizing_player ply q_depth
    capture_moves alpha beta st.

Fixpoint quiescence_search (fuel : nat) (current_board : Board) (current_hash : Z)
    (alpha beta : Z) (is_maximizing_player : bool) (ply q_depth : Z) (st : Engine)
    : option (Z * Engine) :=
  match fuel with
  | O => None
  | S fuel' =>
    quiescence_node (quiescence_search fuel') current_board current_hash alpha beta
      is_maximizing_player ply q_depth st
  end.

(** Fuel that always suffices for a call with [q_depth = 0]. *)
Definition Q_FUEL : nat := S (Z.to_nat MAX_Q_DEPTH).

(** *** Alpha-beta *)

Definition SearchFn : Type :=
  Board -> Z -> Z -> Z -> Z -> bool -> Z -> Z -> bool -> Engine -> option (Z * Engine).

(** Lines 482-493: does the repetition check return the draw score? *)
Definition rep_count (st : Engine) (current_hash path_hash_count : Z) : Z :=
  fold_left
    (fun n j => if path_hashes st j =? uint64 current_hash then n + 1 else n)
    (range (path_hash_count + 1)) 0.

Definition repetition_draw (st : Engine) (current_hash path_hash_count ply : Z) : bool :=
  (path_hash_count >? 0)
  && existsb
       (fun i =>
          (path_hashes st i =? uint64 current_hash)
          && ((rep_count st current_hash path_hash_count >=? 2) && (ply >? 0)))
       (range path_hash_count).

(** [path_hashes_main] is declared with [MAX_PLY_FOR_KILLERS + 5] cells
    (line 669). *)
Definition PATH_HASHES_SIZE : Z := MAX_PLY_FOR_KILLERS + 5.

(** [path_hashes[path_hash_count] = current_hash] on the cells of the
    array. *)
Definition store_path_hash (st : Engine) (path_hash_count current_hash : Z) : Engine :=
  set_path_hashes st
    (fun j => if j =? path_hash_count then uint64 current_hash else path_hashes st j).

(** Lines 494 and 695.  The code writes without a test on the index; a write
    outside the 35 cells has no defined result, and the model has none
    ([None]).  The reads of the repetition check stay at or below the index
    of this write. *)
Definition push_path_hash (st : Engine) (path_hash_count current_hash : Z)
    : option Engine :=
  if (0 <=? path_hash_count) && (path_hash_count <? PATH_HASHES_SIZE)
  then Some (store_path_hash st path_hash_count current_hash)
  else None.

Definition tt_index_of (current_hash : Z) : Z :=
  Z.rem (if current_hash >=? 0 then current_hash else int64 (- current_hash))
        TRANSPOSITION_TABLE_SIZE.

(** Lines 500-505: the probe either returns a score or leaves a (possibly
    tightened) window. *)
Definition tt_probe (st : Engine) (current_hash depth_ alpha beta ply : Z) : Z + (Z * Z) :=
  let tt_entry := transposition_table st (tt_index_of current_hash) in
  if (hash_key tt_entry =? current_hash) && (depth tt_entry >=? depth_) && (ply >? 0) then
    match flag tt_entry with
    | HASH_EXACT => inl (score tt_entry)
    | HASH_LOWERBOUND =>
      let alpha := if alpha >? score tt_entry then alpha else score tt_entry in
      if alpha >=? beta then inl (score tt_entry) else inr (alpha, beta)
    | HASH_UPPERBOUND =>
      let beta := if beta <? score tt_entry then beta else score tt_entry in
      if alpha >=? beta then inl (score tt_entry) else inr (alpha, beta)
    end
  else inr (alpha, beta).

(** Lines 609-622: the flag and the write to the slot. *)
Definition tt_flag_of (best_score original_alpha beta : Z) : HashFlag :=
  if best_score <=? original_alpha then HASH_UPPERBOUND
  else if best_score >=? beta then HASH_LOWERBOUND
  else HASH_EXACT.

Definition tt_store (st : Engine) (current_hash best_score depth_ original_alpha beta : Z)
    (best_move_for_node : option Move) : Engine :=
  if negb (best_score =? TIMEOUT_SCORE) then
    let idx := tt_index_of current_hash in
    let old := transposition_table st idx in
    let entry :=
      mkTTEntry current_hash best_score depth_
        (tt_flag_of best_score original_alpha beta)
        (match best_move_for_node with Some m => m | None => best_move old end)
        (is_some best_move_for_node) in
    set_transposition_table st
      (fun i => if i =? idx then entry else transposition_table st i)
  else st.

(** How the move loop ended. *)
Inductive LoopResult : Type :=
| LOOP_TIMEOUT (st : Engine)
| LOOP_DONE (best_score : Z) (best_move_for_node : option Move) (alpha beta : Z) (st : Engine).

(** The move loop, lines 556-607.  [best_move_for_node] is [Some m] exactly
    when [best_move_for_node_valid] is set. *)
Fixpoint search_moves (rec : SearchFn) (current_board : Board) (current_hash depth_ : Z)
    (is_maximizing_player : bool) (ply path_hash_count : Z)
    (moves : list Move) (best_score : Z) (best_move_for_node : option Move)
    (alpha beta moves_searched_full_depth : Z) (st : Engine) : option LoopResult :=
  match moves with
  | [] => Some (LOOP_DONE best_score best_move_for_node alpha beta st)
  | m :: rest =>
    let is_root_node_child := ply =? 0 in
    let current_player_val := if is_maximizing_player then PLAYER1 else PLAYER0 in
    let (next_board_state, next_hash) :=
      simulate_move_and_update_hash st current_board m (piece_type m) current_player_val
        current_hash in
    let current_search_depth :=
      if (depth_ >=? 3) && (moves_searched_full_depth >=? LMR_MOVES_TRIED_THRESHOLD)
         && (captured_piece_type m =? NO_PIECE) && negb is_root_node_child
      then depth_ - 1 - LMR_REDUCTION_BASE
      else depth_ - 1 in
    match rec next_board_state next_hash current_search_depth alpha beta
            (negb is_maximizing_player) (int32 (ply + 1)) (int32 (path_hash_count + 1))
            true st with
    | None => None
    | Some (score1, st1) =>
      match
        (if (current_search_depth <? depth_ - 1) && (score1 >? alpha)
            && negb (score1 =? TIMEOUT_SCORE)
         then rec next_board_state next_hash (depth_ - 1) alpha beta
                (negb is_maximizing_player) (int32 (ply + 1)) (int32 (path_hash_count + 1))
                true st1
         else Some (score1, st1))
      with
      | None => None
      | Some (score_, st) =>
        if score_ =? TIMEOUT_SCORE then Some (LOOP_TIMEOUT st) else
        let improved :=
          if is_maximizing_player then score_ >? best_score else score_ <? best_score in
        let best_score := if improved then score_ else best_score in
        let best_move_for_node := if improved then Some m else best_move_for_node in
        let alpha :=
          if is_maximizing_player
          then (if alpha >? best_score then alpha else best_score) else alpha in
        let beta :=
          if is_maximizing_player
          then beta else (if beta <? best_score then beta else best_score) in
        let moves_searched_full_depth := int32 (moves_searched_full_depth + 1) in
        if alpha >=? beta then
          let st :=
            if captured_piece_type m =? NO_PIECE then
              let st := record_killer_move ply m st in
              let idx := get_history_index (piece_type m) (to_row m) (to_col m) in
              set_history_heuristic st
                (fun i =>
                   if i =? idx then int32 (history_heuristic st i + depth_ * depth_)
                   else history_heuristic st i)
            else st in
          Some (LOOP_DONE best_score best_move_for_node alpha beta st)
        else
          search_moves rec current_board current_hash depth_ is_maximizing_player ply
            path_hash_count rest best_score best_move_for_node alpha beta
            moves_searched_full_depth st
      end
    end
  end.

(** Which [return] ended an [alpha_beta] node; [EXIT_SEARCHED] is the return
    of line 623 and carries [original_alpha] and the final [beta]. *)
Inductive NodeExit : Type :=
| EXIT_TIMEOUT
| EXIT_REPETITION
| EXIT_TT_HIT
| EXIT_TERMINAL
| EXIT_QUIESCENCE
| EXIT_NULL_TIMEOUT
| EXIT_NULL_PRUNE
| EXIT_NO_MOVES
| EXIT_CHILD_TIMEOUT
| EXIT_SEARCHED (original_alpha beta_end : Z).

(** Lines 519-535.  [inl v]: the node returns [v]; [inr tt]: the search goes
    on to the move loop. *)
Definition null_move_pruning (rec : SearchFn) (current_board : Board)
    (current_hash depth_ beta : Z) (is_maximizing_player : bool)
    (ply path_hash_count : Z) (allow_null_move : bool) (st : Engine)
    : option ((NodeExit * Z + unit) * Engine) :=
  let is_root_node_child := ply =? 0 in
  if allow_null_move && (depth_ >=? NMP_REDUCTION + 1) && negb is_root_node_child then
    let null_move_hash := Z.lxor current_hash (zobrist_player1_to_move st) in
    match rec current_board null_move_hash (depth_ - 1 - NMP_REDUCTION)
            (int32 (- beta)) (int32 (- beta + 1)) (negb is_maximizing_player)
            (int32 (ply + 1)) (int32 (path_hash_count + 1)) false st with
    | None => None
    | Some (r, st) =>
      let null_score := int32 (- r) in
      if null_score =? - TIMEOUT_SCORE then Some (inl (EXIT_NULL_TIMEOUT, TIMEOUT_SCORE), st)
      else if null_score >=? beta then
        if null_score >=? WIN_SCORE - MAX_PLY_FOR_KILLERS * 2
        then Some (inl (EXIT_NULL_PRUNE, beta), st)
        else Some (inl (EXIT_NULL_PRUNE, beta), st)
      else Some (inr tt, st)
    end
  else Some (inr tt, st).

(** Lines 538-623: move generation, ordering, the move loop and the store. *)
Definition search_and_store (rec : SearchFn) (current_board : Board)
    (current_hash depth_ alpha beta : Z) (is_maximizing_player : bool)
    (ply path_hash_count : Z) (st : Engine) : option (NodeExit * Z * Engine) :=
  let current_player_val := if is_maximizing_player then PLAYER1 else PLAYER0 in
  let moves := generate_all_valid_moves current_board current_player_val false in
  if Nat.eqb (length moves) 0 then
    Some (EXIT_NO_MOVES,
          (if is_maximizing_player then int32 (LOSE_SCORE + ply)
           else int32 (WIN_SCORE - ply)), st)
  else
  let tt_entry := transposition_table st (tt_index_of current_hash) in
  let moves :=
    order_moves st moves
      (if hash_key tt_entry =? current_hash then Some (best_move tt_entry) else None)
      ((hash_key tt_entry =? current_hash) && best_move_valid tt_entry) ply in
  let best_score := if is_maximizing_player then INT_MIN else INT_MAX in
  let original_alpha := alpha in
  match search_moves rec current_board current_hash depth_ is_maximizing_player
          ply path_hash_count moves best_score None alpha beta 0 st with
  | None => None
  | Some (LOOP_TIMEOUT st) => Some (EXIT_CHILD_TIMEOUT, TIMEOUT_SCORE, st)
  | Some (LOOP_DONE best_score best_move_for_node alpha beta st) =>
    Some (EXIT_SEARCHED original_alpha beta, best_score,
          tt_store st current_hash best_score depth_ original_alpha beta
            best_move_for_node)
  end.

(** Lines 507-516: the score of a finished game, if the game is finished. *)
Definition terminal_score (current_board : Board) (ply : Z) : option Z :=
  match rules_get_game_status current_board with
  | GAME_STATUS_ONGOING => None
  | GAME_STATUS_PLAYER1_WINS => Some (int32 (WIN_SCORE - ply))
  | GAME_STATUS_PLAYER0_WINS => Some (int32 (LOSE_SCORE + ply))
  | GAME_STATUS_INIT | GAME_STATUS_DRAW => Some DRAW_SCORE
  end.

(** The body of [alpha_beta], with the recursive call as a parameter. *)
Definition alpha_beta_node (rec : SearchFn) (current_board : Board)
    (current_hash depth_ alpha beta : Z) (is_maximizing_player : bool)
    (ply path_hash_count : Z) (allow_null_move : bool) (st : Engine)
    : option (NodeExit * Z * Engine) :=
  let (expired, st) := enter_node st in
  if expired then Some (EXIT_TIMEOUT, TIMEOUT_SCORE, st) else
  if repetition_draw st current_hash path_hash_count ply
  then Some (EXIT_REPETITION, DRAW_SCORE, st) else
  match push_path_hash st path_hash_count current_hash with
  | None => None
  | Some st =>
    match tt_probe st current_hash depth_ alpha beta ply with
    | inl v => Some (EXIT_TT_HIT, v, st)
    | inr (alpha, beta) =>
      match terminal_score current_board ply with
      | Some v => Some (EXIT_TERMINAL, v, st)
      | None =>
        if depth_ <=? 0 then
          match quiescence_search Q_FUEL current_board current_hash alpha beta
                  is_maximizing_player ply 0 st with
          | None => None
          | Some (v, st) => Some (EXIT_QUIESCENCE, v, st)
          end
        else
        match null_move_pruning rec current_board current_hash depth_ beta
                is_maximizing_player ply path_hash_count allow_null_move st with
        | None => None
        | Some (inl (e, v), st) => Some (e, v, st)
        | Some (inr _, st) =>
          search_and_store rec current_board current_hash depth_ alpha beta
            is_maximizing_player ply path_hash_count st
        end
      end
    end
  end.

Definition drop_exit (r : option (NodeExit * Z * Engine)) : option (Z * Engine) :=
  match r with
  | Some (_, v, st) => Some (v, st)
  | None => None
  end.

(** [alpha_beta fuel ...] is the C function.  The result is [None] when
    [fuel] is spent, which [S (Z.to_nat depth_)] never is, and when the call
    or one below it writes outside [path_hashes]. *)
Fixpoint alpha_beta (fuel : nat) (current_board : Board)
    (current_hash depth_ alpha beta : Z) (is_maximizing_player : bool)
    (ply path_hash_count : Z) (allow_null_move : bool) (st : Engine)
    : option (Z * Engine) :=
  match fuel with
  | O => None
  | S fuel' =>
    drop_exit
      (alpha_beta_node (alpha_beta fuel') current_board current_hash depth_ alpha beta
         is_maximizing_player ply path_hash_count allow_null_move st)
  end.

(** ** Exported functions *)

Definition initializeAiEngine (st : Engine) : Engine :=
  let st := initialize_zobrist st in
  let st :=
    set_transposition_table st
      (fun i =>
         let e := transposition_table st i in
         if (0 <=? i) && (i <? TRANSPOSITION_TABLE_SIZE)
         then mkTTEntry 0 (score e) (-1) (flag e) (best_move e) false
         else e) in
  let st :=
    set_killers st (killer_moves st)
      (fun p s =>
         if (0 <=? p) && (p <? MAX_PLY_FOR_KILLERS) && ((s =? 0) || (s =? 1))
         then false else killer_moves_valid st p s) in
  set_history_heuristic st
    (fun i => if (0 <=? i) && (i <? HISTORY_TABLE_SIZE) then 0 else history_heuristic st i).

(** [result_buffer[i] = v] *)
Definition buf_set (result_buffer : Z -> Z) (i v : Z) : Z -> Z :=
  fun j => if j =? i then v else result_buffer j.

(** How the loop over the root moves (lines 688-705) ended. *)
Inductive RootLoopResult : Type :=
| ROOT_TIMEOUT (st : Engine)
| ROOT_DONE (current_iter_best_score : Z) (current_iter_best_move : Move) (st : Engine).

Fixpoint search_root_moves (current_board_state : Board) (root_hash current_depth_iter : Z)
    (moves : list Move) (current_iter_best_score : Z) (current_iter_best_move : Move)
    (st : Engine) : option RootLoopResult :=
  match moves with
  | [] => Some (ROOT_DONE current_iter_best_score current_iter_best_move st)
  | m :: rest =>
    let (next_board, iter_next_hash) :=
      simulate_move_and_update_hash st current_board_state m (piece_type m) PLAYER1
        root_hash in
    match push_path_hash st 0 iter_next_hash with
    | None => None
    | Some st =>
      match alpha_beta (S (Z.to_nat (current_depth_iter - 1))) next_board iter_next_hash
              (current_depth_iter - 1) INT_MIN INT_MAX false 0 0 true st with
      | None => None
      | Some (score_, st) =>
        if score_ =? TIMEOUT_SCORE then Some (ROOT_TIMEOUT st) else
        if score_ >? current_iter_best_score
        then search_root_moves current_board_state root_hash current_depth_iter rest
               score_ m st
        else search_root_moves current_board_state root_hash current_depth_iter rest
               current_iter_best_score current_iter_best_move st
      end
    end
  end.

(** The locals of [findBestMoveWasm] that the deepening loop updates. *)
Record DriverVars : Type := mkDriverVars {
  root_moves : list Move;
  best_move_overall : Move;
  best_move_overall_found : bool;
  best_score_overall : Z;
  depth_achieved : Z
}.

(** The loop of lines 671-718 over the remaining values of
    [current_depth_iter]; the result is the state at [end_search_label]. *)
Fixpoint iterative_deepening (depths : list Z) (current_board_state : Board)
    (v : DriverVars) (st : Engine) : option (DriverVars * Engine) :=
  match depths with
  | [] => Some (v, st)
  | current_depth_iter :: rest =>
    let (now, st) := emscripten_get_now st in
    if time_is_up now st then Some (v, st) else
    let current_iter_best_score := INT_MIN in
    let current_iter_best_move := hd (best_move_overall v) (root_moves v) in
    let current_iter_best_move_found := true in
    let (root_hash, st) := compute_zobrist_key_full current_board_state PLAYER1 st in
    let tt_idx_root := tt_index_of root_hash in
    let e := transposition_table st tt_idx_root in
    let moves :=
      if (hash_key e =? root_hash) && best_move_valid e
      then order_moves st (root_moves v) (Some (best_move e)) true (-1)
      else order_moves st (root_moves v) None false (-1) in
    let v :=
      mkDriverVars moves (best_move_overall v) (best_move_overall_found v)
        (best_score_overall v) (depth_achieved v) in
    match search_root_moves current_board_state root_hash current_depth_iter moves
            current_iter_best_score current_iter_best_move st with
    | None => None
    | Some (ROOT_TIMEOUT st) => Some (v, st)
    | Some (ROOT_DONE current_iter_best_score current_iter_best_move st) =>
      let (now, st) := emscripten_get_now st in
      if time_is_left now st then
        let v :=
          mkDriverVars moves
            (if current_iter_best_move_found then current_iter_best_move
             else best_move_overall v)
            (if current_iter_best_move_found then true else best_move_overall_found v)
            current_iter_best_score current_depth_iter in
        if (best_score_overall v >? WIN_SCORE - MAX_PLY_FOR_KILLERS * 2)
           || (best_score_overall v <? LOSE_SCORE + MAX_PLY_FOR_KILLERS * 2)
        then Some (v, st)
        else iterative_deepening rest current_board_state v st
      else Some (v, st)
    end
  end.

(** [findBestMoveWasm]: [uninitialised] is the content of the local [Board]
    before [deserialize_board] fills it; the result is the final content of
    [result_buffer] and the final engine state.  The deepening loop visits
    [current_depth_iter = 1 .. max_depth]. *)
Definition findBestMoveWasm (flat_board_data : list Z) (max_depth time_limit_ms : Z)
    (result_buffer : Z -> Z) (uninitialised : Board) (st : Engine)
    : option ((Z -> Z) * Engine) :=
  let current_board_state := deserialize_board flat_board_data uninitialised in
  let st := set_current_time_limit_ms st time_limit_ms in
  let (now, st) := emscripten_get_now st in
  let st := set_start_search_time_ms st now in
  let st := set_ai_run_counter st 0 in
  let st := initializeAiEngine st in
  let moves := generate_all_valid_moves current_board_state PLAYER1 false in
  match moves with
  | [] => Some (buf_set (buf_set result_buffer 0 0) 9 1, st)
  | first :: _ =>
    let v := mkDriverVars moves first true INT_MIN 0 in
    match iterative_deepening (map (fun i => i + 1) (range max_depth))
            current_board_state v st with
    | None => None
    | Some (v, st) =>
      if best_move_overall_found v then
        let m := best_move_overall v in
        let b := buf_set result_buffer 0 1 in
        let b := buf_set b 1 (from_row m) in
        let b := buf_set b 2 (from_col m) in
        let b := buf_set b 3 (to_row m) in
        let b := buf_set b 4 (to_col m) in
        let b := buf_set b 5 (piece_type m) in
        let b := buf_set b 6 (depth_achieved v) in
        let b := buf_set b 7 (int32 (ai_run_counter st)) in
        let b := buf_set b 8
                   (if best_score_overall v =? INT_MIN then 0 else best_score_overall v) in
        Some (buf_set b 9 0, st)
      else
        match root_moves v with
        | m :: _ =>
          let b := buf_set result_buffer 0 1 in
          let b := buf_set b 1 (from_row m) in
          let b := buf_set b 2 (from_col m) in
          let b := buf_set b 3 (to_row m) in
          let b := buf_set b 4 (to_col m) in
          let b := buf_set b 5 (piece_type m) in
          let b := buf_set b 6 (depth_achieved v) in
          let b := buf_set b 7 (int32 (ai_run_counter st)) in
          let b := buf_set b 8
                     (if best_score_overall v =? INT_MIN then 0 else best_score_overall v) in
          Some (buf_set b 9 0, st)
        | [] => Some (buf_set (buf_set result_buffer 0 0) 9 2, st)
        end
    end
  end.

(** ** Notions used in the statements *)

(** The 63 squares in the row-major order of the double loops. *)
Definition all_squares : list (Z * Z) :=
  flat_map (fun r => map (fun c => (r, c)) (range BOARD_COLS)) (range BOARD_ROWS).

Definition occupied (board : Board) (r c : Z) : bool :=
  negb (type (piece (squares board r c)) =? NO_PIECE).

(** Number of pieces on the board. *)
Definition piece_count (board : Board) : Z :=
  fold_left (fun n rc => if occupied board (fst rc) (snd rc) then n + 1 else n) all_squares 0.

(** Every piece on the board belongs to one of the two players. *)
Definition players_well_formed (board : Board) : Prop :=
  forall r c, is_valid_move_coords r c = true -> occupied board r c = true ->
    player (piece (squares board r c)) = PLAYER0
    \/ player (piece (squares board r c)) = PLAYER1.

(** A move the generator offers to [pl] on [board], in either mode. *)
Definition legal_move (board : Board) (pl : Player) (m : Move) : Prop :=
  exists captures_only, In m (generate_all_valid_moves board pl captures_only).

(** The search applies a generated move with [moves[i].piece_type] as the
    moved type and hands the turn to the opponent. *)
Definition apply_move (st : Engine) (board : Board) (pl : Player) (hash : Z) (m : Move)
    : Board * Z :=
  simulate_move_and_update_hash st board m (piece_type m) pl hash.

Fixpoint play_line (st : Engine) (board : Board) (pl : Player) (hash : Z)
    (line : list Move) : Board * Player * Z :=
  match line with
  | [] => (board, pl, hash)
  | m :: rest =>
    let (next_board, next_hash) := apply_move st board pl hash m in
    play_line st next_board (get_opponent pl) next_hash rest
  end.

(** A line of moves, each legal for the side to move in the position reached. *)
Inductive legal_line (st : Engine) : Board -> Player -> list Move -> Prop :=
| legal_line_nil : forall board pl, legal_line st board pl []
| legal_line_cons : forall board pl m rest,
    legal_move board pl m ->
    legal_line st (fst (apply_move st board pl 0 m)) (get_opponent pl) rest ->
    legal_line st board pl (m :: rest).

(** A move that is not a step to an orthogonal neighbour. *)
Definition is_jump (m : Move) : Prop :=
  Z.abs (to_row m - from_row m) + Z.abs (to_col m - from_col m) > 1.

(** [(r, c)] lies strictly between the two ends of a straight move. *)
Definition on_jump_path (m : Move) (r c : Z) : Prop :=
  (c = from_col m /\ c = to_col m
   /\ (from_row m < r < to_row m \/ to_row m < r < from_row m))
  \/
  (r = from_row m /\ r = to_row m
   /\ (from_col m < c < to_col m \/ to_col m < c < from_col m)).

(** The landing rules of a jump by the piece [pce] from [(r, c)] to
    [(nr, nc)]: not the own den, not water, and either an empty square (in
    the all-moves mode) or a piece of the other side that [pce] can capture. *)
Definition landing_allowed (board : Board) (pce : Piece) (r c nr nc : Z)
    (captures_only : bool) : Prop :=
  terrain (squares board nr nc) <> own_den_terrain_of (player pce)
  /\ terrain (squares board nr nc) <> TERRAIN_WATER
  /\ ((occupied board nr nc = false /\ captures_only = false)
      \/ (occupied board nr nc = true
          /\ player (piece (squares board nr nc)) <> player pce
          /\ rules_can_capture (Some pce) (Some (piece (squares board nr nc)))
               r c nr nc board = true)).

(** Occurrences of [h] in [path_hashes[0..n]], both ends included. *)
Definition occurrences_in_path (st : Engine) (h n : Z) : Z :=
  Z.of_nat (length (filter (fun j => path_hashes st j =? uint64 h) (range (n + 1)))).

(** What the square [rc] adds to the piece count and to the Zobrist key. *)
Definition square_indicator (board : Board) (rc : Z * Z) : Z :=
  if occupied board (fst rc) (snd rc) then 1 else 0.

Definition zobrist_contribution (st : Engine) (board : Board) (rc : Z * Z) : Z :=
  if occupied board (fst rc) (snd rc)
  then zobrist_table st (type (piece (squares board (fst rc) (snd rc))))
         (player (piece (squares board (fst rc) (snd rc)))) (fst rc) (snd rc)
  else 0.

(** The move [m] matches the position: it takes a piece of [pl] from one
    square of the board to another, names that piece, and names as captured
    what stands on the destination, which is not a piece of [pl]. *)
Definition move_fits (board : Board) (pl : Player) (m : Move) : Prop :=
  is_valid_move_coords (from_row m) (from_col m) = true
  /\ is_valid_move_coords (to_row m) (to_col m) = true
  /\ (from_row m, from_col m) <> (to_row m, to_col m)
  /\ occupied board (from_row m) (from_col m) = true
  /\ type (piece (squares board (from_row m) (from_col m))) = piece_type m
  /\ player (piece (squares board (from_row m) (from_col m))) = pl
  /\ captured_piece_type m = captured_type_of (piece_ptr board (to_row m) (to_col m))
  /\ (occupied board (to_row m) (to_col m) = true ->
      player (piece (squares board (to_row m) (to_col m))) <> pl).

(** The XOR of the keys of all occupied squares. *)
Definition position_key (st : Engine) (board : Board) : Z :=
  fold_left (fun acc rc => Z.lxor acc (zobrist_contribution st board rc)) all_squares 0.

(** Executable form of [players_well_formed]. *)
Definition players_well_formedb (board : Board) : bool :=
  forallb
    (fun rc =>
       negb (occupied board (fst rc) (snd rc))
       || (player (piece (squares board (fst rc) (snd rc))) =? PLAYER0)
       || (player (piece (squares board (fst rc) (snd rc))) =? PLAYER1))
    all_squares.

Definition line_board (x : Board * Player * Z) : Board := fst (fst x).
Definition line_side (x : Board * Player * Z) : Player := snd (fst x).
Definition line_hash (x : Board * Player * Z) : Z := snd x.

(** No slot of the transposition table has been given the timeout value as
    its score between [st] and [st']: every slot is as it was or holds
    another score. *)
Definition tt_unspoiled (st st' : Engine) : Prop :=
  forall i,
    transposition_table st' i = transposition_table st i
    \/ score (transposition_table st' i) <> TIMEOUT_SCORE.

(** [m] is one of the moves of [l], up to the ordering score that
    [order_moves] writes into its scratch field. *)
Definition move_of (l : list Move) (m : Move) : Prop :=
  exists m0, In m0 l /\ set_order_score m 0 = set_order_score m0 0.

(** The recursive call never spoils a slot. *)
Definition rec_unspoiling (rec : SearchFn) : Prop :=
  forall b h d a be mx ply cnt an st v st',
    rec b h d a be mx ply cnt an st = Some (v, st') -> tt_unspoiled st st'.

(** A call at [path_hash_count = cnt] with depth [d] writes the cells
    [cnt .. cnt + d] at most: they lie inside [path_hashes]. *)
Definition path_fits (cnt d : Z) : Prop :=
  0 <= cnt /\ cnt + Z.max 0 d < PATH_HASHES_SIZE.

(** [rec] returns on every call with a depth below [d] whose path fits. *)
Definition rec_total_below (rec : SearchFn) (d : Z) : Prop :=
  forall b h d' a be mx ply cnt an st,
    d' < d -> path_fits cnt d' -> exists r, rec b h d' a be mx ply cnt an st = Some r.

(** What the deepening loop maintains about the locals of the driver,
    relative to the list [l] of generated root moves. *)
Definition driver_invariant (l : list Move) (v : DriverVars) : Prop :=
  (forall m, In m (root_moves v) -> move_of l m)
  /\ move_of l (best_move_overall v)
  /\ best_move_overall_found v = true
  /\ root_moves v <> [].

(** [rec'] returns whatever [rec] returns. *)
Definition rec_extends (rec rec' : SearchFn) : Prop :=
  forall b h d a be mx ply cnt an st r,
    rec b h d a be mx ply cnt an st = Some r -> rec' b h d a be mx ply cnt an st = Some r.

(** The moves the generator owes to the square [rc]: those of the piece on
    it when that piece belongs to [pl]. *)
Definition piece_moves_of (board : Board) (pl : Player) (captures_only : bool)
    (rc : Z * Z) : list Move :=
  if negb (type (piece (squares board (fst rc) (snd rc))) =? NO_PIECE)
     && (player (piece (squares board (fst rc) (snd rc))) =? pl)
  then rules_get_valid_moves_for_piece board (fst rc) (snd rc) captures_only
  else [].

Definition is_capture (m : Move) : bool := negb (captured_piece_type m =? NO_PIECE).

(** The test of line 395: [m] is the move of the table entry handed to
    [order_moves]. *)
Definition is_table_move (m : Move) (tt_move : option Move) (tt_move_valid : bool) : bool :=
  tt_move_valid && match tt_move with Some t => same_squares m t | None => false end.

(** The tests of lines 405 and 409: [m] is the killer move of [slot] at [ply]. *)
Definition is_killer (st : Engine) (ply slot : Z) (m : Move) : bool :=
  (ply >=? 0) && (ply <? MAX_PLY_FOR_KILLERS)
  && killer_moves_valid st ply slot && same_squares m (killer_moves st ply slot).

(** The rules for a step of the piece [pce] from [(r, c)] onto the
    neighbouring square [(nr, nc)]: not the own den, water for the Rat only,
    and either an empty square (in the all-moves mode) or a piece of the
    other side that [pce] can capture. *)
Definition step_allowed (board : Board) (pce : Piece) (r c nr nc : Z)
    (captures_only : bool) : Prop :=
  terrain (squares board nr nc) <> own_den_terrain_of (player pce)
  /\ (terrain (squares board nr nc) = TERRAIN_WATER -> type pce = PIECE_TYPE_RAT)
  /\ ((occupied board nr nc = false /\ captures_only = false)
      \/ (occupied board nr nc = true
          /\ player (piece (squares board nr nc)) <> player pce
          /\ rules_can_capture (Some pce) (Some (piece (squares board nr nc)))
               r c nr nc board = true)).

(** The move the generator writes for the piece on [(r, c)] going to [(nr, nc)]. *)
Definition move_to (board : Board) (r c nr nc : Z) : Move :=
  mkMove r c nr nc (type (piece (squares board r c)))
    (captured_type_of (piece_ptr board nr nc)) 0.

(** The four facts about a position that decide the game: which side still
    has a piece, and which side stands on the den of the other.  A piece
    counts for Player1 as soon as its owner is not Player0. *)
Definition owned_by_player0 (board : Board) (rc : Z * Z) : bool :=
  occupied board (fst rc) (snd rc)
  && (player (piece (squares board (fst rc) (snd rc))) =? PLAYER0).

Definition owned_by_player1 (board : Board) (rc : Z * Z) : bool :=
  occupied board (fst rc) (snd rc)
  && negb (player (piece (squares board (fst rc) (snd rc))) =? PLAYER0).

Definition player0_has_piece (board : Board) : bool :=
  existsb (owned_by_player0 board) all_squares.

Definition player1_has_piece (board : Board) : bool :=
  existsb (owned_by_player1 board) all_squares.

Definition player0_in_den (board : Board) : bool :=
  existsb
    (fun rc => owned_by_player0 board rc
               && (terrain (squares board (fst rc) (snd rc)) =? TERRAIN_PLAYER1_DEN))
    all_squares.

Definition player1_in_den (board : Board) : bool :=
  existsb
    (fun rc => owned_by_player1 board rc
               && (terrain (squares board (fst rc) (snd rc)) =? TERRAIN_PLAYER0_DEN))
    all_squares.

(** [a] may stand before [b] in a list ordered by decreasing [order_score]. *)
Definition score_ge (a b : Move) : Prop := order_score b <= order_score a.

(** What a search leaves alone in the engine state: the Zobrist keys and the
    generator behind them, the time budget and the host clock; the number of
    clock readings can only grow. *)
Definition search_frame (st st' : Engine) : Prop :=
  zobrist_table st' = zobrist_table st
  /\ zobrist_player1_to_move st' = zobrist_player1_to_move st
  /\ zobrist_initialized st' = zobrist_initialized st
  /\ lcg_rand_state st' = lcg_rand_state st
  /\ start_search_time_ms st' = start_search_time_ms st
  /\ current_time_limit_ms st' = current_time_limit_ms st
  /\ host_clock st' = host_clock st
  /\ (clock_reads st <= clock_reads st')%nat.

(** Every call of [rec] relates the state it is given to the state it returns. *)
Definition rec_keeps (R : Engine -> Engine -> Prop) (rec : SearchFn) : Prop :=
  forall b h d a be mx ply cnt an st v st',
    rec b h d a be mx ply cnt an st = Some (v, st') -> R st st'.

Definition qrec_keeps (R : Engine -> Engine -> Prop) (rec : QSearchFn) : Prop :=
  forall b h a be mx ply qd st v st',
    rec b h a be mx ply qd st = Some (v, st') -> R st st'.

(** The values of the C type [int64_t], and the engine states whose Zobrist
    keys are such values. *)
Definition is_int64 (z : Z) : Prop := - 2 ^ 63 <= z < 2 ^ 63.

Definition keys_are_int64 (st : Engine) : Prop :=
  is_int64 (zobrist_player1_to_move st)
  /\ forall pt p r c, is_int64 (zobrist_table st pt p r c).

(** Between [st] and [st'] the node counter has advanced, modulo 2^64, by
    the number of clock readings made. *)
Definition counts_nodes (st st' : Engine) : Prop :=
  (clock_reads st <= clock_reads st')%nat
  /\ (0 <= ai_run_counter st < 2 ^ 64 -> 0 <= ai_run_counter st' < 2 ^ 64)
  /\ exists k,
       ai_run_counter st'
       = ai_run_counter st + Z.of_nat (clock_reads st' - clock_reads st) + k * 2 ^ 64.

(** [st'] is [st] up to the node counter and the number of clock readings. *)
Definition only_counters_differ (st st' : Engine) : Prop :=
  exists n k, st' = set_clock_reads (set_ai_run_counter st n) k.

(** The sums and counters of [evaluate_board_internal] after its double loop. *)
Definition eval_scan (board : Board) : EvalScan :=
  fold_left (fun e rc => evaluate_square board (fst rc) (snd rc) e) all_squares
    (mkEvalScan (double_of_int 0) (double_of_int 0) 0 0).

(** ** Positions and engine states used in the examples *)

Definition standard_terrain (r c : Z) : TerrainType :=
  if rules_is_river r c then TERRAIN_WATER
  else if (r =? PLAYER0_DEN_ROW) && (c =? PLAYER0_DEN_COL) then TERRAIN_PLAYER0_DEN
  else if (r =? PLAYER1_DEN_ROW) && (c =? PLAYER1_DEN_COL) then TERRAIN_PLAYER1_DEN
  else if ((r =? 8) && ((c =? 2) || (c =? 4))) || ((r =? 7) && (c =? 3)) then TERRAIN_TRAP
  else if ((r =? 0) && ((c =? 2) || (c =? 4))) || ((r =? 1) && (c =? 3)) then TERRAIN_TRAP
  else TERRAIN_LAND.

Definition empty_board : Board :=
  mkBoard (fun r c => mkSquare (standard_terrain r c) (mkPiece NO_PIECE PLAYER_NONE 0 0)).

Definition place (b : Board) (r c : Z) (t : PieceType) (p : Player) : Board :=
  set_piece b r c (mkPiece t p (rank (PIECE_INFO t)) (value (PIECE_INFO t))).

Definition zero_move : Move := mkMove 0 0 0 0 0 0 0.

(** The zero-initialised globals at program start, with a given host clock. *)
Definition initial_engine (clock : nat -> double) : Engine :=
  mkEngine (fun _ _ _ _ => 0) 0 false 1234567890123456789 0
    (fun _ _ => zero_move) (fun _ _ => false)
    (fun _ => mkTTEntry 0 0 0 HASH_EXACT zero_move false)
    (fun _ => 0) (double_of_int 0) 0 (fun _ => 0) clock 0%nat.

(** A clock that stands still, and an engine ready to search with a budget
    of one second. *)
Definition frozen_clock : nat -> double := fun _ => double_of_int 0.

Definition ready_engine : Engine :=
  set_current_time_limit_ms (initializeAiEngine (initial_engine frozen_clock)) 1000.

(** A Rat of Player1 in the river next to an Elephant of Player0 on land. *)
Definition rat_in_water_board : Board :=
  place (place empty_board 3 1 PIECE_TYPE_RAT PLAYER1) 3 0 PIECE_TYPE_ELEPHANT PLAYER0.

(** A Rat of Player1 on land next to an Elephant of Player0. *)
Definition rat_on_land_board : Board :=
  place (place empty_board 2 1 PIECE_TYPE_RAT PLAYER1) 2 0 PIECE_TYPE_ELEPHANT PLAYER0.

(** A Lion of Player1 at (2,1) facing a Dog of Player0 at (6,1) across the river. *)
Definition lion_jump_board : Board :=
  place (place empty_board 2 1 PIECE_TYPE_LION PLAYER1) 6 1 PIECE_TYPE_DOG PLAYER0.

(** Player0's Rat stands on Player1's den. *)
Definition den_taken_board : Board :=
  place (place empty_board 1 3 PIECE_TYPE_ELEPHANT PLAYER1) 0 3 PIECE_TYPE_RAT PLAYER0.

(** The Lion position with a Rat of Player0 added at (7,0). *)
Definition two_sided_board : Board := place lion_jump_board 7 0 PIECE_TYPE_RAT PLAYER0.

(** An engine whose budget of one second is spent, and whose path array
    holds the hash 5 everywhere. *)
Definition expired_engine : Engine :=
  set_path_hashes
    (set_current_time_limit_ms
       (initializeAiEngine (initial_engine (fun _ => double_of_int 2000))) 1000)
    (fun _ => 5).

(** Player1's only piece, a Cat in the corner, is boxed in by a Dog and a
    Wolf of Player0 that it cannot capture: Player1 has no legal move. *)
Definition boxed_cat_board : Board :=
  place (place (place empty_board 0 0 PIECE_TYPE_CAT PLAYER1)
           0 1 PIECE_TYPE_DOG PLAYER0)
    1 0 PIECE_TYPE_WOLF PLAYER0.

(** A Rat on each side, far apart. *)
Definition rats_board : Board :=
  place (place empty_board 2 0 PIECE_TYPE_RAT PLAYER1) 6 6 PIECE_TYPE_RAT PLAYER0.

Definition rats_hash : Z := fst (compute_zobrist_key_full rats_board PLAYER1 ready_engine).

(** [ready_engine] with a lower-bound entry of score 5000 and depth 1 stored
    for [rats_hash]. *)
Definition primed_engine : Engine :=
  set_transposition_table ready_engine
    (fun i =>
       if i =? tt_index_of rats_hash
       then mkTTEntry rats_hash 5000 1 HASH_LOWERBOUND zero_move false
       else transposition_table ready_engine i).

Definition boxed_cat_hash : Z :=
  fst (compute_zobrist_key_full boxed_cat_board PLAYER0 ready_engine).

Definition den_taken_hash : Z :=
  fst (compute_zobrist_key_full den_taken_board PLAYER1 ready_engine).

(** What the examples look at in the result of a node. *)
Definition exit_and_score (r : option (NodeExit * Z * Engine)) : option (NodeExit * Z) :=
  option_map fst r.

Definition state_of (r : option (NodeExit * Z * Engine)) (default : Engine) : Engine :=
  match r with Some (_, _, st) => st | None => default end.

(** The flat vector the caller passes for a board: rows, columns, then
    (terrain, piece type, owner) for every square in row-major order. *)
Definition flat_of_board (b : Board) : list Z :=
  BOARD_ROWS :: BOARD_COLS ::
  flat_map
    (fun rc =>
       [terrain (squares b (fst rc) (snd rc));
        type (piece (squares b (fst rc) (snd rc)));
        player (piece (squares b (fst rc) (snd rc)))])
    all_squares.

(** The trap squares as [rules_get_effective_rank] knows them. *)
Definition is_player0_trap_square (r c : Z) : bool :=
  ((r =? 8) && ((c =? 2) || (c =? 4))) || ((r =? 7) && (c =? 3)).

Definition is_player1_trap_square (r c : Z) : bool :=
  ((r =? 0) && ((c =? 2) || (c =? 4))) || ((r =? 1) && (c =? 3)).

(** An Elephant of Player0 on the trap (0,2) of Player1, next to a Cat of
    Player1 at (0,1). *)
Definition trapped_elephant_board : Board :=
  place (place empty_board 0 2 PIECE_TYPE_ELEPHANT PLAYER0) 0 1 PIECE_TYPE_CAT PLAYER1.

(** * Properties *)

Ltac unfold_consts :=
  unfold PIECE_TYPE_RAT, PIECE_TYPE_CAT, PIECE_TYPE_DOG, PIECE_TYPE_WOLF,
    PIECE_TYPE_LEOPARD, PIECE_TYPE_TIGER, PIECE_TYPE_LION, PIECE_TYPE_ELEPHANT,
    NUM_PIECE_TYPES, NO_PIECE, PLAYER_NONE, PLAYER0, PLAYER1,
    TERRAIN_LAND, TERRAIN_WATER, TERRAIN_TRAP, TERRAIN_PLAYER0_DEN, TERRAIN_PLAYER1_DEN,
    BOARD_ROWS, BOARD_COLS in *.

(** Turn boolean integer tests in the context and the goal into propositions. *)
Ltac zbool :=
  repeat match goal with
  | H : (_ && _) = true |- _ => apply andb_true_iff in H; destruct H
  | H : (_ || _) = false |- _ => apply orb_false_iff in H; destruct H
  | H : negb _ = true |- _ => apply negb_true_iff in H
  | H : negb _ = false |- _ => apply negb_false_iff in H
  | H : (_ =? _) = true |- _ => apply Z.eqb_eq in H
  | H : (_ =? _) = false |- _ => apply Z.eqb_neq in H
  | H : (_ <? _) = true |- _ => apply Z.ltb_lt in H
  | H : (_ <? _) = false |- _ => apply Z.ltb_ge in H
  | H : (_ <=? _) = true |- _ => apply Z.leb_le in H
  | H : (_ <=? _) = false |- _ => apply Z.leb_gt in H
  | H : (_ >=? _) = true |- _ => rewrite Z.geb_leb in H
  | H : (_ >=? _) = false |- _ => rewrite Z.geb_leb in H
  | H : (_ >? _) = true |- _ => rewrite Z.gtb_ltb in H
  | H : (_ >? _) = false |- _ => rewrite Z.gtb_ltb in H
  end.

(** *** Captures between Rat and Elephant *)

Lemma eqb_neq_false : forall a b : Z, a <> b -> (a =? b) = false.
Proof. intros a b H. now apply Z.eqb_neq. Qed.

(** What the code does with a capture from a Water square onto a non-Water
    square: [rules_can_capture] refuses it whatever the two pieces are.
    Lines 150-156 let the pair Rat, Elephant through, with the comment that
    this attack is allowed; line 159 then refuses it. *)
Lemma capture_from_water_onto_land_refused :
  forall board att def att_r att_c def_r def_c,
    terrain (squares board att_r att_c) = TERRAIN_WATER ->
    terrain (squares board def_r def_c) <> TERRAIN_WATER ->
    rules_can_capture (Some att) (Some def) att_r att_c def_r def_c board = false.
Proof.
  intros board att def att_r att_c def_r def_c Hw Hl.
  unfold rules_can_capture.
  rewrite Hw, Z.eqb_refl, (eqb_neq_false _ _ Hl). cbn [andb negb].
  destruct ((type att =? NO_PIECE) || (type def =? NO_PIECE) || (player att =? player def));
    [reflexivity|].
  destruct (type att =? PIECE_TYPE_RAT); cbn [andb negb]; [|reflexivity].
  destruct (type def =? PIECE_TYPE_ELEPHANT); reflexivity.
Qed.

(** C3: a Rat in the water attacking an opposing Elephant on land.  The
    comment of line 152 says that this attack is allowed, and lines 150-156
    exempt it from the refusal of captures out of the water; the test of
    lines 158-160 then answers [att_terrain != TERRAIN_WATER], which is
    false.  Player1's Rat stands in the river at (3,1), Player0's Elephant
    on land at (3,0), and [rules_can_capture] returns false. *)
Theorem rat_in_water_elephant_on_land_refused :
  type (piece (squares rat_in_water_board 3 1)) = PIECE_TYPE_RAT
  /\ player (piece (squares rat_in_water_board 3 1)) = PLAYER1
  /\ terrain (squares rat_in_water_board 3 1) = TERRAIN_WATER
  /\ type (piece (squares rat_in_water_board 3 0)) = PIECE_TYPE_ELEPHANT
  /\ player (piece (squares rat_in_water_board 3 0)) = PLAYER0
  /\ terrain (squares rat_in_water_board 3 0) = TERRAIN_LAND
  /\ rules_can_capture (piece_ptr rat_in_water_board 3 1) (piece_ptr rat_in_water_board 3 0)
       3 1 3 0 rat_in_water_board = false.
Proof. vm_compute. repeat split. Qed.

(** C4: between opposing pieces, an Elephant never captures a Rat, and a Rat
    standing on a non-Water square always captures an Elephant; neither
    answer looks at the effective ranks. *)
Theorem elephant_and_rat_special_case :
  forall board att def att_r att_c def_r def_c,
    type att <> NO_PIECE -> type def <> NO_PIECE -> player att <> player def ->
    (type att = PIECE_TYPE_ELEPHANT -> type def = PIECE_TYPE_RAT ->
     rules_can_capture (Some att) (Some def) att_r att_c def_r def_c board = false)
    /\
    (type att = PIECE_TYPE_RAT -> type def = PIECE_TYPE_ELEPHANT ->
     terrain (squares board att_r att_c) <> TERRAIN_WATER ->
     rules_can_capture (Some att) (Some def) att_r att_c def_r def_c board = true).
Proof.
  intros board att def att_r att_c def_r def_c Ha Hd Hp.
  unfold rules_can_capture.
  rewrite (eqb_neq_false _ _ Ha), (eqb_neq_false _ _ Hd), (eqb_neq_false _ _ Hp).
  cbn [orb]. split.
  - intros Hae Hdr. rewrite Hae, Hdr. cbn.
    destruct (terrain (squares board att_r att_c) =? TERRAIN_WATER); reflexivity.
  - intros Har Hde Hw. rewrite Har, Hde, (eqb_neq_false _ _ Hw). reflexivity.
Qed.

Lemma elephant_and_rat_special_case_witness :
  rules_can_capture (Some (piece (squares rat_on_land_board 2 0)))
    (Some (piece (squares rat_on_land_board 2 1))) 2 0 2 1 rat_on_land_board = false
  /\ rules_can_capture (Some (piece (squares rat_on_land_board 2 1)))
       (Some (piece (squares rat_on_land_board 2 0))) 2 1 2 0 rat_on_land_board = true.
Proof.
  split.
  - apply (elephant_and_rat_special_case rat_on_land_board
             (piece (squares rat_on_land_board 2 0)) (piece (squares rat_on_land_board 2 1)));
      vm_compute; first [reflexivity | discriminate].
  - apply (elephant_and_rat_special_case rat_on_land_board
             (piece (squares rat_on_land_board 2 1)) (piece (squares rat_on_land_board 2 0)));
      vm_compute; first [reflexivity | discriminate].
Defined.

(** *** Evaluation of terminal positions *)

(** C9: on a board whose game status is a win for Player1, a win for
    Player0 or a draw, [evaluate_board_internal] returns exactly 20000,
    -20000 or 0 respectively. *)
Theorem evaluate_terminal_board_exact :
  forall board,
    rules_get_game_status board <> GAME_STATUS_ONGOING ->
    (rules_get_game_status board = GAME_STATUS_PLAYER1_WINS ->
     evaluate_board_internal board = WIN_SCORE /\ WIN_SCORE = 20000)
    /\ (rules_get_game_status board = GAME_STATUS_PLAYER0_WINS ->
        evaluate_board_internal board = LOSE_SCORE /\ LOSE_SCORE = -20000)
    /\ (rules_get_game_status board = GAME_STATUS_DRAW ->
        evaluate_board_internal board = DRAW_SCORE /\ DRAW_SCORE = 0)
    /\ (rules_get_game_status board = GAME_STATUS_PLAYER1_WINS
        \/ rules_get_game_status board = GAME_STATUS_PLAYER0_WINS
        \/ rules_get_game_status board = GAME_STATUS_DRAW).
Proof.
  intros board Hterm. unfold evaluate_board_internal.
  split; [|split; [|split]]; try (intros H; rewrite H; split; reflexivity).
  destruct (rules_get_game_status board) eqn:E; auto; try congruence.
  exfalso. revert E. unfold rules_get_game_status.
  repeat match goal with |- context [if ?b then _ else _] => destruct b end;
    discriminate.
Qed.

Lemma evaluate_terminal_board_exact_witness :
  evaluate_board_internal den_taken_board = -20000
  /\ evaluate_board_internal empty_board = 0.
Proof.
  split.
  - assert (Hs : rules_get_game_status den_taken_board = GAME_STATUS_PLAYER0_WINS)
      by (vm_compute; reflexivity).
    assert (Ht : rules_get_game_status den_taken_board <> GAME_STATUS_ONGOING)
      by (rewrite Hs; discriminate).
    destruct (evaluate_terminal_board_exact den_taken_board Ht) as (_ & H0 & _).
    destruct (H0 Hs) as [He Hv]. rewrite He. exact Hv.
  - assert (Hs : rules_get_game_status empty_board = GAME_STATUS_DRAW)
      by (vm_compute; reflexivity).
    assert (Ht : rules_get_game_status empty_board <> GAME_STATUS_ONGOING)
      by (rewrite Hs; discriminate).
    destruct (evaluate_terminal_board_exact empty_board Ht) as (_ & _ & H0 & _).
    destruct (H0 Hs) as [He Hv]. rewrite He. exact Hv.
Defined.

(** *** River jumps *)

Lemma orthogonal_step_not_jump :
  forall board r c pce co i m,
    In m (orthogonal_step board r c pce co i) -> ~ is_jump m.
Proof.
  intros board r c pce co i m Hin Hj.
  assert (Hd : Z.abs (nth i dr 0) + Z.abs (nth i dc_coords 0) <= 1).
  { do 4 (destruct i as [|i]; [cbn; lia|]). destruct i; cbn; lia. }
  unfold orthogonal_step in Hin.
  assert (Hm : from_row m = r /\ from_col m = c
               /\ to_row m = r + nth i dr 0 /\ to_col m = c + nth i dc_coords 0).
  { repeat match type of Hin with
           | In _ (if ?b then _ else _) => destruct b
           | In _ (match ?o with Some _ => _ | None => _ end) => destruct o
           | In _ [] => destruct Hin
           | In _ [_] => destruct Hin as [<-|[]]; cbn; auto
           end. }
  destruct Hm as (H1 & H2 & H3 & H4). unfold is_jump in Hj.
  rewrite H1, H2, H3, H4 in Hj.
  replace (r + nth i dr 0 - r) with (nth i dr 0) in Hj by lia.
  replace (c + nth i dc_coords 0 - c) with (nth i dc_coords 0) in Hj by lia.
  lia.
Qed.

(** What one iteration of the jump loop emits, and when. *)
Lemma jump_step_spec :
  forall board r c pce co j m,
    In m (jump_step board r c pce co j) <->
    (m = mkMove r c (jump_target_r j) (jump_target_c j) (type pce)
           (captured_type_of (piece_ptr board (jump_target_r j) (jump_target_c j))) 0
     /\ path_blocked board (river_cells j) = false
     /\ landing_allowed board pce r c (jump_target_r j) (jump_target_c j) co).
Proof.
  intros board r c pce co j m. unfold jump_step, landing_allowed, piece_ptr, occupied.
  destruct (path_blocked board (river_cells j));
    [split; [intros [] | intros (_ & H & _); discriminate]|].
  destruct (negb (type (piece (squares board (jump_target_r j) (jump_target_c j))) =? NO_PIECE))
    eqn:Hocc; cbn [is_some negb andb captured_type_of].
  - rewrite andb_false_r.
    destruct (Z.eqb_spec (terrain (squares board (jump_target_r j) (jump_target_c j)))
                (own_den_terrain_of (player pce))) as [Hden|Hden];
      [split; [intros [] | intros (_ & _ & H & _); contradiction]|].
    destruct (Z.eqb_spec (terrain (squares board (jump_target_r j) (jump_target_c j)))
                TERRAIN_WATER) as [Hwat|Hwat];
      [split; [intros [] | intros (_ & _ & _ & H & _); contradiction]|].
    destruct (Z.eqb_spec (player (piece (squares board (jump_target_r j) (jump_target_c j))))
                (player pce)) as [Hpl|Hpl].
    { split; [intros [] | intros (_ & _ & _ & _ & [[H _]|(_ & H & _)])];
        [discriminate | contradiction]. }
    destruct (rules_can_capture (Some pce)
                (Some (piece (squares board (jump_target_r j) (jump_target_c j))))
                r c (jump_target_r j) (jump_target_c j) board) eqn:Hcap; cbn [negb].
    + split.
      * intros [<-|[]]. repeat split; auto.
      * intros (-> & _). now left.
    + split; [intros [] | intros (_ & _ & _ & _ & [[H _]|(_ & _ & H)])]; discriminate.
  - destruct co; cbn [andb].
    + split; [intros [] | intros (_ & _ & _ & _ & [[_ H]|(H & _)])]; discriminate.
    + destruct (Z.eqb_spec (terrain (squares board (jump_target_r j) (jump_target_c j)))
                  (own_den_terrain_of (player pce))) as [Hden|Hden];
        [split; [intros [] | intros (_ & _ & H & _); contradiction]|].
      destruct (Z.eqb_spec (terrain (squares board (jump_target_r j) (jump_target_c j)))
                  TERRAIN_WATER) as [Hwat|Hwat];
        [split; [intros [] | intros (_ & _ & _ & H & _); contradiction]|].
      split.
      * intros [<-|[]]. repeat split; auto.
      * intros (-> & _). now left.
Qed.

(** The jump part of the generator only runs for a Lion or a Tiger. *)
Lemma valid_moves_jump_origin :
  forall board r c co m,
    In m (rules_get_valid_moves_for_piece board r c co) -> is_jump m ->
    (type (piece (squares board r c)) = PIECE_TYPE_LION
     \/ type (piece (squares board r c)) = PIECE_TYPE_TIGER)
    /\ exists j, In j (jump_paths (type (piece (squares board r c))) r c)
                 /\ In m (jump_step board r c (piece (squares board r c)) co j).
Proof.
  intros board r c co m Hin Hj. unfold rules_get_valid_moves_for_piece in Hin.
  destruct (type (piece (squares board r c)) =? NO_PIECE); [destruct Hin|].
  apply in_app_or in Hin. destruct Hin as [Hin|Hin].
  - apply in_flat_map in Hin. destruct Hin as (i & _ & Hi).
    exfalso. eapply orthogonal_step_not_jump; eauto.
  - destruct (Z.eqb_spec (type (piece (squares board r c))) PIECE_TYPE_LION) as [Hl|Hl];
      [|destruct (Z.eqb_spec (type (piece (squares board r c))) PIECE_TYPE_TIGER) as [Ht|Ht]];
      cbn [orb] in Hin; try destruct Hin.
    + split; [now left|]. apply in_flat_map in Hin. destruct Hin as (j & Hj1 & Hj2). eauto.
    + split; [now right|]. apply in_flat_map in Hin. destruct Hin as (j & Hj1 & Hj2). eauto.
Qed.

Lemma jump_paths_vertical :
  forall pt c,
    pt = PIECE_TYPE_LION \/ pt = PIECE_TYPE_TIGER ->
    c = 1 \/ c = 2 \/ c = 4 \/ c = 5 ->
    jump_paths pt 2 c = [mkJumpPath 6 c [(3, c); (4, c); (5, c)]]
    /\ jump_paths pt 6 c = [mkJumpPath 2 c [(5, c); (4, c); (3, c)]].
Proof.
  intros pt c [-> | ->] [-> | [-> | [-> | ->]]]; split; reflexivity.
Qed.

Lemma path_blocked_three :
  forall board a b c col,
    a <> -1 -> b <> -1 -> c <> -1 ->
    rules_is_river a col = true -> rules_is_river b col = true ->
    rules_is_river c col = true ->
    (path_blocked board [(a, col); (b, col); (c, col)] = false
     <-> occupied board a col = false /\ occupied board b col = false
         /\ occupied board c col = false).
Proof.
  intros board a b c col Ha Hb Hc Ra Rb Rc. unfold occupied. cbn [path_blocked].
  rewrite (eqb_neq_false _ _ Ha), (eqb_neq_false _ _ Hb), (eqb_neq_false _ _ Hc), Ra, Rb, Rc.
  cbn [andb negb orb].
  destruct (negb (type (piece (squares board a col)) =? NO_PIECE));
    destruct (negb (type (piece (squares board b col)) =? NO_PIECE));
    destruct (negb (type (piece (squares board c col)) =? NO_PIECE));
    intuition congruence.
Qed.

Lemma path_blocked_two :
  forall board row a b,
    row <> -1 ->
    rules_is_river row a = true -> rules_is_river row b = true ->
    path_blocked board [(row, a); (row, b); (-1, -1)] = false ->
    occupied board row a = false /\ occupied board row b = false.
Proof.
  intros board row a b Hr Ra Rb. unfold occupied. cbn [path_blocked].
  rewrite (eqb_neq_false _ _ Hr), Ra, Rb. cbn [andb negb orb].
  destruct (negb (type (piece (squares board row a)) =? NO_PIECE));
    destruct (negb (type (piece (squares board row b)) =? NO_PIECE));
    intuition congruence.
Qed.

Lemma river_row_bounds : forall r c, rules_is_river r c = true -> 3 <= r <= 5.
Proof. intros r c H. unfold rules_is_river in H. zbool. lia. Qed.

Lemma river_col_cases :
  forall c, rules_is_river 3 c = true -> c = 1 \/ c = 2 \/ c = 4 \/ c = 5.
Proof.
  intros c H. unfold rules_is_river in H. cbn in H.
  destruct (Z.eqb_spec c 1); auto. destruct (Z.eqb_spec c 2); auto.
  destruct (Z.eqb_spec c 4); auto. destruct (Z.eqb_spec c 5); auto. discriminate.
Qed.

Lemma river_any_row :
  forall r c, 3 <= r <= 5 -> c = 1 \/ c = 2 \/ c = 4 \/ c = 5 -> rules_is_river r c = true.
Proof.
  intros r c Hr Hc. unfold rules_is_river.
  replace (r >=? 3) with true by (symmetry; rewrite Z.geb_leb; apply Z.leb_le; lia).
  replace (r <=? 5) with true by (symmetry; apply Z.leb_le; lia).
  destruct Hc as [-> | [-> | [-> | ->]]]; reflexivity.
Qed.

(** Every jump the generator emits crosses empty river cells only. *)
Lemma jump_path_is_empty :
  forall board r c pce co j m rr rc,
    In j (jump_paths (type pce) r c) ->
    In m (jump_step board r c pce co j) ->
    on_jump_path m rr rc -> occupied board rr rc = false.
Proof.
  intros board r c pce co j m rr rc Hj Hm Hp.
  apply jump_step_spec in Hm. destruct Hm as (-> & Hb & _).
  unfold on_jump_path in Hp. cbn [from_row from_col to_row to_col] in Hp.
  unfold jump_paths in Hj. apply in_app_or in Hj. destruct Hj as [Hj|Hj].
  - destruct (rules_is_river 3 c) eqn:Hriv; cbn [andb] in Hj; [|destruct Hj].
    destruct (negb (type pce =? PIECE_TYPE_RAT)); [|destruct Hj].
    pose proof (river_col_cases _ Hriv) as Hc.
    destruct (Z.eqb_spec r 2) as [->|Hr2];
      [|destruct (Z.eqb_spec r 6) as [->|Hr6]; [|destruct Hj]];
      destruct Hj as [<-|[]]; cbn [jump_target_r jump_target_c river_cells] in *;
      apply path_blocked_three in Hb; try lia; try (apply river_any_row; lia);
      destruct Hb as (H3 & H4 & H5);
      destruct Hp as [(-> & _ & Hrows)|(_ & _ & Hcols)]; try lia;
      assert (Hrr : rr = 3 \/ rr = 4 \/ rr = 5) by lia;
      destruct Hrr as [-> | [-> | ->]]; assumption.
  - destruct (type pce =? PIECE_TYPE_LION); [|destruct Hj].
    apply in_app_or in Hj. destruct Hj as [Hj|Hj].
    + destruct (rules_is_river r 1) eqn:R1; cbn [andb] in Hj; [|destruct Hj].
      destruct (rules_is_river r 2) eqn:R2; cbn [andb] in Hj; [|destruct Hj].
      destruct (negb (type pce =? PIECE_TYPE_RAT)); [|destruct Hj].
      pose proof (river_row_bounds _ _ R1) as Hr.
      destruct (Z.eqb_spec c 0) as [->|Hc0];
        [|destruct (Z.eqb_spec c 3) as [->|Hc3]; [|destruct Hj]];
        destruct Hj as [<-|[]]; cbn [jump_target_r jump_target_c river_cells] in *;
        apply path_blocked_two in Hb; try lia; auto;
        destruct Hb as (H1 & H2);
        destruct Hp as [(_ & _ & Hrows)|(-> & _ & Hcols)]; try lia;
        assert (Hcc : rc = 1 \/ rc = 2) by lia;
        destruct Hcc as [-> | ->]; assumption.
    + destruct (rules_is_river r 4) eqn:R4; cbn [andb] in Hj; [|destruct Hj].
      destruct (rules_is_river r 5) eqn:R5; cbn [andb] in Hj; [|destruct Hj].
      destruct (negb (type pce =? PIECE_TYPE_RAT)); [|destruct Hj].
      pose proof (river_row_bounds _ _ R4) as Hr.
      destruct (Z.eqb_spec c 3) as [->|Hc3];
        [|destruct (Z.eqb_spec c 6) as [->|Hc6]; [|destruct Hj]];
        destruct Hj as [<-|[]]; cbn [jump_target_r jump_target_c river_cells] in *;
        apply path_blocked_two in Hb; try lia; auto;
        destruct Hb as (H4 & H5);
        destruct Hp as [(_ & _ & Hrows)|(-> & _ & Hcols)]; try lia;
        assert (Hcc : rc = 4 \/ rc = 5) by lia;
        destruct Hcc as [-> | ->]; assumption.
Qed.

(** C5: [rules_get_valid_moves_for_piece] emits a jump only for a Lion or a
    Tiger; for [c] in {1,2,4,5} it emits the vertical jump between (2,c) and
    (6,c) exactly when the mover is a Lion or a Tiger, the three river cells
    in between hold no piece and the landing square passes the landing
    rules; and no emitted jump crosses a cell that holds a piece. *)
Theorem river_jump_generation :
  forall board r c captures_only,
    (forall m, In m (rules_get_valid_moves_for_piece board r c captures_only) ->
       is_jump m ->
       type (piece (squares board r c)) = PIECE_TYPE_LION
       \/ type (piece (squares board r c)) = PIECE_TYPE_TIGER)
    /\
    (forall r', (r = 2 /\ r' = 6) \/ (r = 6 /\ r' = 2) ->
       c = 1 \/ c = 2 \/ c = 4 \/ c = 5 ->
       ((exists m, In m (rules_get_valid_moves_for_piece board r c captures_only)
                   /\ from_row m = r /\ from_col m = c /\ to_row m = r' /\ to_col m = c)
        <->
        ((type (piece (squares board r c)) = PIECE_TYPE_LION
          \/ type (piece (squares board r c)) = PIECE_TYPE_TIGER)
         /\ occupied board 3 c = false /\ occupied board 4 c = false
         /\ occupied board 5 c = false
         /\ landing_allowed board (piece (squares board r c)) r c r' c captures_only)))
    /\
    (forall m, In m (rules_get_valid_moves_for_piece board r c captures_only) ->
       is_jump m ->
       forall rr rc, on_jump_path m rr rc -> occupied board rr rc = false).
Proof.
  intros board r c co. split; [|split].
  - intros m Hin Hj. now destruct (valid_moves_jump_origin _ _ _ _ _ Hin Hj).
  - intros r' Hr Hc. split.
    + intros (m & Hin & Hfr & Hfc & Htr & Htc).
      assert (Hj : is_jump m) by (unfold is_jump; rewrite Hfr, Hfc, Htr, Htc; lia).
      destruct (valid_moves_jump_origin _ _ _ _ _ Hin Hj) as (Hty & j & Hj1 & Hj2).
      split; [exact Hty|].
      destruct (jump_paths_vertical _ c Hty Hc) as [P2 P6].
      apply jump_step_spec in Hj2. destruct Hj2 as (_ & Hb & Hl).
      destruct Hr as [[-> ->] | [-> ->]].
      * rewrite P2 in Hj1. destruct Hj1 as [<-|[]].
        cbn [jump_target_r jump_target_c river_cells] in *.
        apply path_blocked_three in Hb; try lia; try (apply river_any_row; lia).
        tauto.
      * rewrite P6 in Hj1. destruct Hj1 as [<-|[]].
        cbn [jump_target_r jump_target_c river_cells] in *.
        apply path_blocked_three in Hb; try lia; try (apply river_any_row; lia).
        tauto.
    + intros (Hty & H3 & H4 & H5 & Hl).
      destruct (jump_paths_vertical _ c Hty Hc) as [P2 P6].
      exists (mkMove r c r' c (type (piece (squares board r c)))
                (captured_type_of (piece_ptr board r' c)) 0).
      split; [|cbn; auto].
      unfold rules_get_valid_moves_for_piece.
      assert (Hne : (type (piece (squares board r c)) =? NO_PIECE) = false).
      { destruct Hty as [-> | ->]; reflexivity. }
      rewrite Hne. apply in_or_app. right.
      assert (Hlt : (type (piece (squares board r c)) =? PIECE_TYPE_LION)
                    || (type (piece (squares board r c)) =? PIECE_TYPE_TIGER) = true).
      { destruct Hty as [-> | ->]; reflexivity. }
      rewrite Hlt. apply in_flat_map.
      destruct Hr as [[-> ->] | [-> ->]].
      * exists (mkJumpPath 6 c [(3, c); (4, c); (5, c)]). rewrite P2. split; [now left|].
        apply jump_step_spec. cbn [jump_target_r jump_target_c river_cells].
        split; [reflexivity|]. split; [|exact Hl].
        apply path_blocked_three; try lia; try (apply river_any_row; lia). tauto.
      * exists (mkJumpPath 2 c [(5, c); (4, c); (3, c)]). rewrite P6. split; [now left|].
        apply jump_step_spec. cbn [jump_target_r jump_target_c river_cells].
        split; [reflexivity|]. split; [|exact Hl].
        apply path_blocked_three; try lia; try (apply river_any_row; lia). tauto.
  - intros m Hin Hj rr rc Hp.
    destruct (valid_moves_jump_origin _ _ _ _ _ Hin Hj) as (_ & j & Hj1 & Hj2).
    eapply jump_path_is_empty; eauto.
Qed.

Lemma river_jump_generation_witness :
  (exists m, In m (rules_get_valid_moves_for_piece lion_jump_board 2 1 false)
             /\ from_row m = 2 /\ from_col m = 1 /\ to_row m = 6 /\ to_col m = 1)
  /\ occupied lion_jump_board 4 1 = false.
Proof.
  destruct (river_jump_generation lion_jump_board 2 1 false) as (_ & Hv & Hb).
  assert (He : exists m, In m (rules_get_valid_moves_for_piece lion_jump_board 2 1 false)
             /\ from_row m = 2 /\ from_col m = 1 /\ to_row m = 6 /\ to_col m = 1).
  { apply (Hv 6); [left; split; reflexivity | left; reflexivity |].
    split; [left; reflexivity|].
    repeat split; try reflexivity; try (vm_compute; discriminate).
    right. repeat split; try reflexivity. vm_compute. discriminate. }
  split; [exact He|].
  destruct He as (m & Hin & Hfr & Hfc & Htr & Htc).
  apply (Hb m Hin).
  - unfold is_jump. rewrite Hfr, Hfc, Htr, Htc. lia.
  - left. rewrite Hfc, Htc, Hfr, Htr. repeat split; lia.
Defined.

(** *** Folds over the squares of the board *)

Section FoldGroup.
Context {K : Type}.
Variable op : Z -> Z -> Z.
Variable inv : Z -> Z.
Hypothesis op_assoc : forall a b c, op (op a b) c = op a (op b c).
Hypothesis op_comm : forall a b, op a b = op b a.
Hypothesis op_inv : forall a b, op (op a b) (inv b) = a.

Lemma fold_op_shift :
  forall (f : K -> Z) l a v,
    fold_left (fun acc x => op acc (f x)) l (op a v)
    = op (fold_left (fun acc x => op acc (f x)) l a) v.
Proof.
  intros f l. induction l as [|x l IH]; intros a v; cbn; [reflexivity|].
  rewrite <- IH. f_equal.
  rewrite !op_assoc. f_equal. apply op_comm.
Qed.

Lemma fold_op_agree :
  forall (f g : K -> Z) l a,
    (forall x, In x l -> f x = g x) ->
    fold_left (fun acc x => op acc (g x)) l a
    = fold_left (fun acc x => op acc (f x)) l a.
Proof.
  intros f g l. induction l as [|x l IH]; intros a H; cbn; [reflexivity|].
  rewrite (H x) by now left. apply IH. intros y Hy. apply H. now right.
Qed.

(** Changing the summand at one position of a duplicate-free list. *)
Lemma fold_op_change_one :
  forall (f g : K -> Z) l k a,
    NoDup l -> In k l -> (forall x, x <> k -> f x = g x) ->
    fold_left (fun acc x => op acc (g x)) l a
    = op (op (fold_left (fun acc x => op acc (f x)) l a) (inv (f k))) (g k).
Proof.
  intros f g l k. induction l as [|x l IH]; intros a Hnd Hin Hfg; [destruct Hin|].
  inversion Hnd as [|? ? Hnotin Hnd']; subst. cbn [fold_left].
  destruct Hin as [->|Hin].
  - rewrite (fold_op_agree f g) by (intros y Hy; apply Hfg; intros ->; contradiction).
    rewrite !fold_op_shift, op_inv. reflexivity.
  - assert (Hx : x <> k) by (intros ->; contradiction).
    rewrite <- (Hfg x Hx). apply IH; assumption.
Qed.
End FoldGroup.

Lemma in_range : forall n x, In x (range n) <-> 0 <= x < n.
Proof.
  intros n x. unfold range. rewrite in_map_iff. split.
  - intros (k & <- & Hk). apply in_seq in Hk. lia.
  - intros H. exists (Z.to_nat x). split; [lia|]. apply in_seq. lia.
Qed.

Lemma in_all_squares :
  forall r c, In (r, c) all_squares <-> is_valid_move_coords r c = true.
Proof.
  intros r c. unfold all_squares, is_valid_move_coords. rewrite in_flat_map. split.
  - intros (r0 & Hr & Hc). apply in_map_iff in Hc. destruct Hc as (c0 & Heq & Hc).
    inversion Heq; subst. apply in_range in Hr. apply in_range in Hc.
    rewrite !andb_true_iff, Z.geb_leb, Z.geb_leb, !Z.leb_le, !Z.ltb_lt. lia.
  - rewrite !andb_true_iff, Z.geb_leb, Z.geb_leb, !Z.leb_le, !Z.ltb_lt. intros H.
    exists r. split; [apply in_range; lia|]. apply in_map. apply in_range. lia.
Qed.

Lemma square_eq_dec : forall x y : Z * Z, {x = y} + {x <> y}.
Proof. decide equality; apply Z.eq_dec. Defined.

Lemma all_squares_NoDup : NoDup all_squares.
Proof.
  replace all_squares with (nodup square_eq_dec all_squares) by (vm_compute; reflexivity).
  apply NoDup_nodup.
Qed.

(** The double loops over rows and columns visit [all_squares] in order. *)
Lemma row_col_loops :
  forall (A : Type) (F : Z -> Z -> A -> A) (a : A),
    fold_left (fun acc r => fold_left (fun acc c => F r c acc) (range BOARD_COLS) acc)
      (range BOARD_ROWS) a
    = fold_left (fun acc rc => F (fst rc) (snd rc) acc) all_squares a.
Proof. intros A F a. reflexivity. Qed.

Lemma piece_count_sum :
  forall board,
    piece_count board = fold_left (fun acc rc => acc + square_indicator board rc) all_squares 0.
Proof.
  intros board. unfold piece_count. generalize 0. generalize all_squares.
  induction l as [|x l IH]; intros a; cbn [fold_left]; [reflexivity|].
  rewrite IH. f_equal. unfold square_indicator.
  destruct (occupied board (fst x) (snd x)); lia.
Qed.

Lemma squares_set_piece :
  forall b r c p r' c',
    squares (set_piece b r c p) r' c'
    = if (r' =? r) && (c' =? c) then mkSquare (terrain (squares b r' c')) p
      else squares b r' c'.
Proof. reflexivity. Qed.

Lemma same_square_test :
  forall r c r' c', (r' =? r) && (c' =? c) = true <-> (r', c') = (r, c).
Proof.
  intros. rewrite andb_true_iff, !Z.eqb_eq. split; [intros [-> ->]; reflexivity|].
  intros H; inversion H; auto.
Qed.

Lemma other_square_test :
  forall r c r' c', (r', c') <> (r, c) -> (r' =? r) && (c' =? c) = false.
Proof.
  intros r c r' c' H. destruct ((r' =? r) && (c' =? c)) eqn:E; [|reflexivity].
  apply same_square_test in E. contradiction.
Qed.

(** Piece count after overwriting the piece of one square. *)
Lemma piece_count_set_piece :
  forall b r c p,
    is_valid_move_coords r c = true ->
    piece_count (set_piece b r c p)
    = piece_count b - square_indicator b (r, c) + square_indicator (set_piece b r c p) (r, c).
Proof.
  intros b r c p Hv. rewrite !piece_count_sum.
  rewrite (fold_op_change_one Z.add Z.opp) with (f := square_indicator b) (k := (r, c)).
  - lia.
  - intros; lia.
  - intros; lia.
  - intros; lia.
  - apply all_squares_NoDup.
  - now apply in_all_squares.
  - intros [r' c'] Hne. unfold square_indicator, occupied. cbn [fst snd].
    rewrite squares_set_piece, (other_square_test _ _ _ _ Hne). reflexivity.
Qed.

(** *** Effect of a move on the board *)

(** What [simulate_move_and_update_hash] does to the board, for any move
    record and moved type. *)
Lemma simulate_move_effect :
  forall st board m moved_type pl hash,
    let next_board := fst (simulate_move_and_update_hash st board m moved_type pl hash) in
    (forall r c, terrain (squares next_board r c) = terrain (squares board r c))
    /\ (forall r c,
          (r, c) <> (from_row m, from_col m) -> (r, c) <> (to_row m, to_col m) ->
          squares next_board r c = squares board r c)
    /\ type (piece (squares next_board (from_row m) (from_col m))) = NO_PIECE
    /\ ((from_row m, from_col m) <> (to_row m, to_col m) ->
        piece (squares next_board (to_row m) (to_col m))
        = mkPiece moved_type pl (rank (PIECE_INFO moved_type)) (value (PIECE_INFO moved_type)))
    /\ (is_valid_move_coords (from_row m) (from_col m) = true ->
        is_valid_move_coords (to_row m) (to_col m) = true ->
        (from_row m, from_col m) <> (to_row m, to_col m) ->
        occupied board (from_row m) (from_col m) = true ->
        moved_type <> NO_PIECE ->
        piece_count next_board
        = piece_count board - (if occupied board (to_row m) (to_col m) then 1 else 0)).
Proof.
  intros st board m moved_type pl hash. cbn zeta.
  unfold simulate_move_and_update_hash. cbn [fst].
  set (mp := mkPiece moved_type pl (rank (PIECE_INFO moved_type))
               (value (PIECE_INFO moved_type))).
  set (b1 := set_piece board (to_row m) (to_col m) mp).
  unfold set_piece_type.
  set (emptied := mkPiece NO_PIECE _ _ _).
  split; [|split; [|split; [|split]]].
  - intros r c. rewrite squares_set_piece. unfold b1.
    destruct ((r =? from_row m) && (c =? from_col m)); cbn [terrain];
      rewrite squares_set_piece;
      destruct ((r =? to_row m) && (c =? to_col m)); reflexivity.
  - intros r c Hf Ht. rewrite squares_set_piece, (other_square_test _ _ _ _ Hf).
    unfold b1. rewrite squares_set_piece, (other_square_test _ _ _ _ Ht). reflexivity.
  - rewrite squares_set_piece, !Z.eqb_refl. reflexivity.
  - intros Hne. rewrite squares_set_piece.
    rewrite other_square_test by congruence.
    unfold b1. rewrite squares_set_piece, !Z.eqb_refl. reflexivity.
  - intros Hvf Hvt Hne Hocc Hmt.
    rewrite piece_count_set_piece by assumption.
    assert (H1 : piece_count b1
                 = piece_count board - square_indicator board (to_row m, to_col m)
                   + square_indicator b1 (to_row m, to_col m))
      by (apply piece_count_set_piece; assumption).
    rewrite H1. clear H1.
    unfold square_indicator, occupied. cbn [fst snd].
    rewrite !squares_set_piece, !Z.eqb_refl. cbn [andb piece type].
    unfold b1. rewrite !squares_set_piece, (other_square_test _ _ _ _ Hne), !Z.eqb_refl.
    unfold occupied in Hocc. rewrite Hocc.
    unfold mp. cbn [andb piece type negb]. rewrite (eqb_neq_false _ _ Hmt).
    cbn [negb]. lia.
Qed.

(** *** Generated moves match the board *)

Lemma in_append_capped :
  forall ms acc m, In m (append_capped acc ms) -> In m acc \/ In m ms.
Proof.
  unfold append_capped.
  induction ms as [|x ms IH]; intros acc m H; cbn [fold_left] in H; [now left|].
  apply IH in H. destruct H as [H|H]; [|now right; right].
  destruct (Z.of_nat (length acc) <? BOARD_ROWS * BOARD_COLS * 8); [|now left].
  apply in_app_or in H. destruct H as [H|[<-|[]]]; [now left | right; now left].
Qed.

Lemma generate_all_origin :
  forall board pl co m,
    In m (generate_all_valid_moves board pl co) ->
    exists r c,
      is_valid_move_coords r c = true
      /\ occupied board r c = true
      /\ player (piece (squares board r c)) = pl
      /\ In m (rules_get_valid_moves_for_piece board r c co).
Proof.
  intros board pl co m. unfold generate_all_valid_moves.
  rewrite (row_col_loops _
    (fun r c acc =>
       if negb (type (piece (squares board r c)) =? NO_PIECE)
          && (player (piece (squares board r c)) =? pl)
       then append_capped acc (rules_get_valid_moves_for_piece board r c co)
       else acc)).
  assert (G : forall l acc,
             (forall rc, In rc l -> In rc all_squares) ->
             In m (fold_left
                     (fun acc rc =>
                        if negb (type (piece (squares board (fst rc) (snd rc))) =? NO_PIECE)
                           && (player (piece (squares board (fst rc) (snd rc))) =? pl)
                        then append_capped acc
                               (rules_get_valid_moves_for_piece board (fst rc) (snd rc) co)
                        else acc) l acc) ->
             In m acc \/
             exists r c,
               is_valid_move_coords r c = true /\ occupied board r c = true
               /\ player (piece (squares board r c)) = pl
               /\ In m (rules_get_valid_moves_for_piece board r c co)).
  { induction l as [|[r c] l IH]; intros acc Hl H; cbn [fold_left fst snd] in H; [now left|].
    apply IH in H; [|intros; apply Hl; now right].
    destruct H as [H|H]; [|now right].
    destruct (negb (type (piece (squares board r c)) =? NO_PIECE)) eqn:Ho; cbn [andb] in H;
      [|now left].
    destruct (Z.eqb_spec (player (piece (squares board r c))) pl) as [Hp|Hp]; [|now left].
    apply in_append_capped in H. destruct H as [H|H]; [now left|].
    right. exists r, c. repeat split; auto.
    apply in_all_squares. apply Hl. now left. }
  intros H. specialize (G all_squares [] (fun _ h => h)). cbv beta in H.
  destruct (G H) as [[]|H']. exact H'.
Qed.

Lemma captured_type_occupied :
  forall board r c,
    captured_type_of (piece_ptr board r c)
    = if occupied board r c then type (piece (squares board r c)) else NO_PIECE.
Proof.
  intros. unfold piece_ptr, occupied.
  destruct (negb (type (piece (squares board r c)) =? NO_PIECE)); reflexivity.
Qed.

Lemma orthogonal_step_fits :
  forall board r c pce co i m,
    (i < 4)%nat ->
    In m (orthogonal_step board r c pce co i) ->
    from_row m = r /\ from_col m = c /\ piece_type m = type pce
    /\ is_valid_move_coords (to_row m) (to_col m) = true
    /\ (r, c) <> (to_row m, to_col m)
    /\ captured_piece_type m = captured_type_of (piece_ptr board (to_row m) (to_col m))
    /\ (occupied board (to_row m) (to_col m) = true ->
        player (piece (squares board (to_row m) (to_col m))) <> player pce).
Proof.
  intros board r c pce co i m Hi Hin. unfold orthogonal_step in Hin.
  assert (Hd : (r, c) <> (r + nth i dr 0, c + nth i dc_coords 0)).
  { do 4 (destruct i as [|i]; [cbn; intros H; inversion H; lia|]). lia. }
  destruct (is_valid_move_coords (r + nth i dr 0) (c + nth i dc_coords 0)) eqn:Hv;
    cbn [negb] in Hin; [|destruct Hin].
  set (nr := r + nth i dr 0) in *. set (nc := c + nth i dc_coords 0) in *.
  assert (Hgoal : forall t,
            (occupied board nr nc = true ->
             player (piece (squares board nr nc)) <> player pce) ->
            m = mkMove r c nr nc t (captured_type_of (piece_ptr board nr nc)) 0 ->
            t = type pce ->
            from_row m = r /\ from_col m = c /\ piece_type m = type pce
            /\ is_valid_move_coords (to_row m) (to_col m) = true
            /\ (r, c) <> (to_row m, to_col m)
            /\ captured_piece_type m
               = captured_type_of (piece_ptr board (to_row m) (to_col m))
            /\ (occupied board (to_row m) (to_col m) = true ->
                player (piece (squares board (to_row m) (to_col m))) <> player pce)).
  { intros t Hp -> ->. cbn. repeat split; auto. }
  repeat match type of Hin with
         | In _ (if ?b then _ else _) => destruct b eqn:?
         | In _ [] => destruct Hin
         end.
  unfold piece_ptr in Hin. unfold occupied in Hgoal.
  destruct (negb (type (piece (squares board nr nc)) =? NO_PIECE)) eqn:Ho.
  - destruct (Z.eqb_spec (player (piece (squares board nr nc))) (player pce)) as [Hp|Hp];
      [destruct Hin|].
    destruct (negb (rules_can_capture _ _ _ _ _ _ _)); [destruct Hin|].
    destruct Hin as [<-|[]].
    eapply Hgoal; [|unfold piece_ptr; rewrite Ho|]; eauto.
  - destruct Hin as [<-|[]].
    eapply Hgoal; [|unfold piece_ptr; rewrite Ho|]; eauto. intros; discriminate.
Qed.

Lemma jump_target_fits :
  forall pt r c j,
    In j (jump_paths pt r c) ->
    is_valid_move_coords (jump_target_r j) (jump_target_c j) = true
    /\ (r, c) <> (jump_target_r j, jump_target_c j).
Proof.
  intros pt r c j Hj. unfold jump_paths in Hj.
  apply in_app_or in Hj. destruct Hj as [Hj|Hj].
  - destruct (rules_is_river 3 c) eqn:Hriv; cbn [andb] in Hj; [|destruct Hj].
    destruct (negb (pt =? PIECE_TYPE_RAT)); [|destruct Hj].
    pose proof (river_col_cases _ Hriv) as Hc.
    destruct (Z.eqb_spec r 2) as [->|Hr2];
      [|destruct (Z.eqb_spec r 6) as [->|Hr6]; [|destruct Hj]];
      destruct Hj as [<-|[]]; cbn [jump_target_r jump_target_c];
      (split; [destruct Hc as [-> | [-> | [-> | ->]]]; reflexivity
              | intros H; inversion H]).
  - destruct (pt =? PIECE_TYPE_LION); [|destruct Hj].
    apply in_app_or in Hj. destruct Hj as [Hj|Hj].
    + destruct (rules_is_river r 1) eqn:R1; cbn [andb] in Hj; [|destruct Hj].
      destruct (rules_is_river r 2) eqn:R2; cbn [andb] in Hj; [|destruct Hj].
      destruct (negb (pt =? PIECE_TYPE_RAT)); [|destruct Hj].
      pose proof (river_row_bounds _ _ R1) as Hr.
      assert (Hrr : r = 3 \/ r = 4 \/ r = 5) by lia.
      destruct (Z.eqb_spec c 0) as [->|Hc0];
        [|destruct (Z.eqb_spec c 3) as [->|Hc3]; [|destruct Hj]];
        destruct Hj as [<-|[]]; cbn [jump_target_r jump_target_c];
        (split; [destruct Hrr as [-> | [-> | ->]]; reflexivity
                | intros H; inversion H]).
    + destruct (rules_is_river r 4) eqn:R4; cbn [andb] in Hj; [|destruct Hj].
      destruct (rules_is_river r 5) eqn:R5; cbn [andb] in Hj; [|destruct Hj].
      destruct (negb (pt =? PIECE_TYPE_RAT)); [|destruct Hj].
      pose proof (river_row_bounds _ _ R4) as Hr.
      assert (Hrr : r = 3 \/ r = 4 \/ r = 5) by lia.
      destruct (Z.eqb_spec c 3) as [->|Hc3];
        [|destruct (Z.eqb_spec c 6) as [->|Hc6]; [|destruct Hj]];
        destruct Hj as [<-|[]]; cbn [jump_target_r jump_target_c];
        (split; [destruct Hrr as [-> | [-> | ->]]; reflexivity
                | intros H; inversion H]).
Qed.

Lemma valid_moves_fit :
  forall board r c co m,
    is_valid_move_coords r c = true ->
    In m (rules_get_valid_moves_for_piece board r c co) ->
    move_fits board (player (piece (squares board r c))) m.
Proof.
  intros board r c co m Hv Hin. unfold rules_get_valid_moves_for_piece in Hin.
  destruct (type (piece (squares board r c)) =? NO_PIECE) eqn:Hty; [destruct Hin|].
  assert (Hocc : occupied board r c = true) by (unfold occupied; now rewrite Hty).
  apply in_app_or in Hin. destruct Hin as [Hin|Hin].
  - apply in_flat_map in Hin. destruct Hin as (i & Hi & Hm).
    apply in_seq in Hi.
    apply orthogonal_step_fits in Hm; [|lia].
    destruct Hm as (H1 & H2 & H3 & H4 & H5 & H6 & H7).
    unfold move_fits. rewrite H1, H2. repeat split; auto.
  - destruct ((type (piece (squares board r c)) =? PIECE_TYPE_LION)
              || (type (piece (squares board r c)) =? PIECE_TYPE_TIGER)); [|destruct Hin].
    apply in_flat_map in Hin. destruct Hin as (j & Hj & Hm).
    destruct (jump_target_fits _ _ _ _ Hj) as [Hvt Hne].
    apply jump_step_spec in Hm. destruct Hm as (-> & _ & Hl).
    unfold move_fits. cbn [from_row from_col to_row to_col piece_type captured_piece_type].
    repeat split; auto.
    destruct Hl as (_ & _ & [[Ho _]|(_ & Hp & _)]); [congruence|auto].
Qed.

Lemma legal_move_fits :
  forall board pl m, legal_move board pl m -> move_fits board pl m.
Proof.
  intros board pl m [co Hin].
  apply generate_all_origin in Hin. destruct Hin as (r & c & Hv & Ho & <- & Hin).
  eapply valid_moves_fit; eauto.
Qed.

(** C10: every call of [simulate_move_and_update_hash] in the engine
    passes a move that the generator offered to the player on that board,
    with [moves[i].piece_type] as the moved type.  For every board, player
    and such move the function keeps every terrain, keeps every square other
    than origin and destination, empties the origin, and puts on the
    destination the moving piece (the type that stood on the origin, owned
    by the player) with the rank and value of [PIECE_INFO]; the piece count
    never increases, and it drops by one exactly when the move is a capture,
    that is when the destination was occupied. *)
Theorem simulate_move_frame :
  forall st board pl m hash,
    legal_move board pl m ->
    let next_board :=
      fst (simulate_move_and_update_hash st board m (piece_type m) pl hash) in
    (forall r c, terrain (squares next_board r c) = terrain (squares board r c))
    /\ (forall r c,
          (r, c) <> (from_row m, from_col m) -> (r, c) <> (to_row m, to_col m) ->
          squares next_board r c = squares board r c)
    /\ type (piece (squares next_board (from_row m) (from_col m))) = NO_PIECE
    /\ piece (squares next_board (to_row m) (to_col m))
       = mkPiece (piece_type m) pl
           (rank (PIECE_INFO (piece_type m))) (value (PIECE_INFO (piece_type m)))
    /\ piece_type m = type (piece (squares board (from_row m) (from_col m)))
    /\ pl = player (piece (squares board (from_row m) (from_col m)))
    /\ piece_count next_board <= piece_count board
    /\ (piece_count next_board = piece_count board - 1
        <-> captured_piece_type m <> NO_PIECE)
    /\ (captured_piece_type m <> NO_PIECE
        <-> occupied board (to_row m) (to_col m) = true).
Proof.
  intros st board pl m hash Hm. cbn zeta.
  apply legal_move_fits in Hm.
  destruct Hm as (Hvf & Hvt & Hne & Hocc & Hty & Hpl & Hcap & _).
  assert (Hmt : piece_type m <> NO_PIECE).
  { rewrite <- Hty. unfold occupied in Hocc.
    intros E. rewrite E in Hocc. discriminate. }
  destruct (simulate_move_effect st board m (piece_type m) pl hash)
    as (T & F & O & D & C).
  cbn zeta in C. specialize (C Hvf Hvt Hne Hocc Hmt).
  assert (Hc : captured_piece_type m <> NO_PIECE
               <-> occupied board (to_row m) (to_col m) = true).
  { rewrite Hcap, captured_type_occupied.
    unfold occupied. destruct (Z.eqb_spec
      (type (piece (squares board (to_row m) (to_col m)))) NO_PIECE) as [E|E];
      cbn [negb]; split; intros H; congruence. }
  split; [exact T|]. split; [exact F|]. split; [exact O|].
  split; [exact (D Hne)|]. split; [now symmetry|]. split; [now symmetry|].
  rewrite C.
  destruct (occupied board (to_row m) (to_col m)).
  - split; [lia|]. split; [|exact Hc]. split; intros _; [now apply Hc|lia].
  - split; [lia|]. split; [|exact Hc]. split; intros H; [lia|].
    apply Hc in H. discriminate.
Qed.

Lemma simulate_move_frame_witness :
  piece_count
    (fst (simulate_move_and_update_hash ready_engine lion_jump_board
            (mkMove 2 1 6 1 PIECE_TYPE_LION PIECE_TYPE_DOG 0) PIECE_TYPE_LION PLAYER1 0))
  = piece_count lion_jump_board - 1.
Proof.
  destruct (simulate_move_frame ready_engine lion_jump_board PLAYER1
              (mkMove 2 1 6 1 PIECE_TYPE_LION PIECE_TYPE_DOG 0) 0)
    as (_ & _ & _ & _ & _ & _ & _ & H & _).
  - exists false. vm_compute. tauto.
  - apply H. discriminate.
Defined.

(** *** Incremental and full Zobrist keys *)

(** Equations between XOR combinations, decided bit by bit. *)
Ltac xor_solve :=
  apply Z.bits_inj'; intros ?n ?Hn;
  rewrite ?Z.lxor_spec, ?Z.bits_0;
  repeat match goal with
         | |- context [Z.testbit ?a ?n] => destruct (Z.testbit a n)
         end;
  reflexivity.

Lemma initialize_zobrist_initialized :
  forall st, zobrist_initialized (initialize_zobrist st) = true.
Proof.
  intros st. unfold initialize_zobrist.
  destruct (zobrist_initialized st) eqn:E; [exact E|].
  match goal with |- context [random_int64 ?s] => destruct (random_int64 s) end.
  reflexivity.
Qed.

Lemma zobrist_square_contribution :
  forall st board r c key,
    zobrist_square st board r c key = Z.lxor key (zobrist_contribution st board (r, c)).
Proof.
  intros. unfold zobrist_square, zobrist_contribution, occupied. cbn [fst snd].
  destruct (negb (type (piece (squares board r c)) =? NO_PIECE)); [reflexivity|].
  now rewrite Z.lxor_0_r.
Qed.

Lemma compute_zobrist_key_full_initialized :
  forall st board pl,
    zobrist_initialized st = true ->
    compute_zobrist_key_full board pl st
    = ((if pl =? PLAYER1
        then Z.lxor (position_key st board) (zobrist_player1_to_move st)
        else position_key st board), st).
Proof.
  intros st board pl Hi. unfold compute_zobrist_key_full. rewrite Hi. cbn [negb].
  rewrite (row_col_loops _ (fun r c key => zobrist_square st board r c key)).
  unfold position_key.
  replace (fold_left (fun acc rc => zobrist_square st board (fst rc) (snd rc) acc) all_squares 0)
    with (fold_left (fun acc rc => Z.lxor acc (zobrist_contribution st board rc)) all_squares 0);
    [reflexivity|].
  generalize 0. generalize all_squares.
  induction l as [|[r c] l IH]; intros a; cbn [fold_left fst snd]; [reflexivity|].
  rewrite zobrist_square_contribution. apply IH.
Qed.

Lemma compute_zobrist_key_full_state :
  forall st board pl,
    zobrist_initialized (snd (compute_zobrist_key_full board pl st)) = true.
Proof.
  intros st board pl. unfold compute_zobrist_key_full. cbn [snd].
  destruct (zobrist_initialized st) eqn:E; cbn [negb]; [exact E|].
  apply initialize_zobrist_initialized.
Qed.

Lemma position_key_set_piece :
  forall st b r c p,
    is_valid_move_coords r c = true ->
    position_key st (set_piece b r c p)
    = Z.lxor (Z.lxor (position_key st b) (zobrist_contribution st b (r, c)))
        (zobrist_contribution st (set_piece b r c p) (r, c)).
Proof.
  intros st b r c p Hv. unfold position_key.
  apply (fold_op_change_one Z.lxor (fun x => x)).
  - intros; xor_solve.
  - intros; xor_solve.
  - intros; xor_solve.
  - apply all_squares_NoDup.
  - now apply in_all_squares.
  - intros [r' c'] Hne. unfold zobrist_contribution, occupied. cbn [fst snd].
    rewrite squares_set_piece, (other_square_test _ _ _ _ Hne). reflexivity.
Qed.

Lemma opponent_of_player :
  forall pl q, (pl = PLAYER0 \/ pl = PLAYER1) -> (q = PLAYER0 \/ q = PLAYER1) ->
    q <> pl -> q = get_opponent pl.
Proof.
  intros pl q [-> | ->] [-> | ->] H; try reflexivity; contradiction.
Qed.

(** One move: position key and incremental hash change by the same keys. *)
Lemma apply_move_keys :
  forall st board pl hash m,
    (pl = PLAYER0 \/ pl = PLAYER1) ->
    players_well_formed board ->
    move_fits board pl m ->
    Z.lxor (snd (apply_move st board pl hash m))
           (position_key st (fst (apply_move st board pl hash m)))
    = Z.lxor (Z.lxor hash (position_key st board)) (zobrist_player1_to_move st).
Proof.
  intros st board pl hash m Hpl Hwf (Hvf & Hvt & Hne & Hocc & Hty & Hplr & Hcap & Hopp).
  unfold apply_move, simulate_move_and_update_hash. cbn [fst snd].
  set (mp := mkPiece (piece_type m) pl (rank (PIECE_INFO (piece_type m)))
               (value (PIECE_INFO (piece_type m)))).
  set (b1 := set_piece board (to_row m) (to_col m) mp).
  unfold set_piece_type. rewrite position_key_set_piece by assumption.
  assert (H1 : position_key st b1
               = Z.lxor (Z.lxor (position_key st board)
                           (zobrist_contribution st board (to_row m, to_col m)))
                   (zobrist_contribution st b1 (to_row m, to_col m)))
    by (apply position_key_set_piece; assumption).
  rewrite H1. clear H1.
  assert (Hmt : (piece_type m =? NO_PIECE) = false).
  { rewrite <- Hty. unfold occupied in Hocc. now apply negb_true_iff in Hocc. }
  assert (Cfrom' : forall p', type p' = NO_PIECE ->
            zobrist_contribution st (set_piece b1 (from_row m) (from_col m) p')
              (from_row m, from_col m) = 0).
  { intros p' Hp'. unfold zobrist_contribution, occupied. cbn [fst snd].
    rewrite squares_set_piece, !Z.eqb_refl. cbn [andb piece]. rewrite Hp'. reflexivity. }
  rewrite Cfrom' by reflexivity.
  assert (Cfrom : zobrist_contribution st b1 (from_row m, from_col m)
                  = zobrist_table st (piece_type m) pl (from_row m) (from_col m)).
  { unfold zobrist_contribution, occupied, b1. cbn [fst snd].
    rewrite squares_set_piece, (other_square_test _ _ _ _ Hne).
    unfold occupied in Hocc. rewrite Hocc, Hty, Hplr. reflexivity. }
  rewrite Cfrom.
  assert (Cto1 : zobrist_contribution st b1 (to_row m, to_col m)
                 = zobrist_table st (piece_type m) pl (to_row m) (to_col m)).
  { unfold zobrist_contribution, occupied, b1. cbn [fst snd].
    rewrite squares_set_piece, !Z.eqb_refl. unfold mp. cbn [andb piece type player].
    rewrite Hmt. reflexivity. }
  rewrite Cto1.
  assert (Cto : (if negb (captured_piece_type m =? NO_PIECE)
                 then Z.lxor
                        (Z.lxor hash
                           (zobrist_table st (piece_type m) pl (from_row m) (from_col m)))
                        (zobrist_table st (captured_piece_type m) (get_opponent pl)
                           (to_row m) (to_col m))
                 else Z.lxor hash
                        (zobrist_table st (piece_type m) pl (from_row m) (from_col m)))
                = Z.lxor (Z.lxor hash
                            (zobrist_table st (piece_type m) pl (from_row m) (from_col m)))
                    (zobrist_contribution st board (to_row m, to_col m))).
  { rewrite Hcap, captured_type_occupied. unfold zobrist_contribution. cbn [fst snd].
    destruct (occupied board (to_row m) (to_col m)) eqn:Ho.
    - unfold occupied in Ho. rewrite Ho.
      assert (Hq : player (piece (squares board (to_row m) (to_col m))) = get_opponent pl).
      { apply opponent_of_player; auto. }
      rewrite Hq. reflexivity.
    - rewrite Z.eqb_refl. cbn [negb]. now rewrite Z.lxor_0_r. }
  rewrite Cto.
  xor_solve.
Qed.

Lemma apply_move_board_hash_free :
  forall st board pl h h' m,
    fst (apply_move st board pl h m) = fst (apply_move st board pl h' m).
Proof. reflexivity. Qed.

Lemma apply_move_well_formed :
  forall st board pl h m,
    (pl = PLAYER0 \/ pl = PLAYER1) ->
    players_well_formed board ->
    players_well_formed (fst (apply_move st board pl h m)).
Proof.
  intros st board pl h m Hpl Hwf r c Hv Ho.
  unfold apply_move, simulate_move_and_update_hash, set_piece_type in *. cbn [fst] in *.
  unfold occupied in Ho. rewrite squares_set_piece in *.
  destruct ((r =? from_row m) && (c =? from_col m)) eqn:Ef.
  - cbn [piece type] in Ho. rewrite Z.eqb_refl in Ho. discriminate.
  - rewrite squares_set_piece in *.
    destruct ((r =? to_row m) && (c =? to_col m)) eqn:Et.
    + cbn [piece player]. exact Hpl.
    + apply Hwf; assumption.
Qed.

Lemma players_well_formedb_sound :
  forall board, players_well_formedb board = true -> players_well_formed board.
Proof.
  intros board H r c Hv Ho. unfold players_well_formedb in H.
  rewrite forallb_forall in H. specialize (H (r, c)). cbn [fst snd] in H.
  rewrite Ho in H. cbn [negb orb] in H.
  apply in_all_squares in Hv. apply H in Hv.
  apply orb_true_iff in Hv. destruct Hv as [Hv|Hv]; apply Z.eqb_eq in Hv; auto.
Qed.

Lemma get_opponent_player :
  forall pl, (pl = PLAYER0 \/ pl = PLAYER1) ->
    (get_opponent pl = PLAYER0 \/ get_opponent pl = PLAYER1)
    /\ ((get_opponent pl =? PLAYER1) = negb (pl =? PLAYER1)).
Proof. intros pl [-> | ->]; split; auto. Qed.

(** The invariant behind C1, for an engine whose keys are initialised. *)
Lemma play_line_keeps_hash :
  forall st line board pl hash,
    zobrist_initialized st = true ->
    (pl = PLAYER0 \/ pl = PLAYER1) ->
    players_well_formed board ->
    legal_line st board pl line ->
    compute_zobrist_key_full board pl st = (hash, st) ->
    compute_zobrist_key_full (line_board (play_line st board pl hash line))
      (line_side (play_line st board pl hash line)) st
    = (line_hash (play_line st board pl hash line), st).
Proof.
  intros st line. induction line as [|m rest IH]; intros board pl hash Hi Hpl Hwf Hl Hh.
  - exact Hh.
  - inversion Hl as [|? ? ? ? Hm Hrest]; subst. cbn [play_line].
    destruct (apply_move st board pl hash m) as [nb nh] eqn:E.
    assert (Eb : nb = fst (apply_move st board pl 0 m)).
    { rewrite (apply_move_board_hash_free st board pl 0 hash), E. reflexivity. }
    destruct (get_opponent_player pl Hpl) as [Hop Hside].
    apply IH; auto.
    + rewrite Eb. now apply apply_move_well_formed.
    + rewrite Eb. exact Hrest.
    + rewrite compute_zobrist_key_full_initialized in * by assumption.
      apply (f_equal fst) in Hh. cbn [fst] in Hh. rename Hh into Hh'. f_equal.
      pose proof (apply_move_keys st board pl hash m Hpl Hwf (legal_move_fits _ _ _ Hm)) as K.
      rewrite E in K. cbn [fst snd] in K. rewrite Hside.
      rewrite <- Hh' in K.
      destruct (pl =? PLAYER1); cbn [negb];
        revert K; generalize (position_key st nb); generalize (position_key st board);
        generalize (zobrist_player1_to_move st); intros k p p' K.
      * assert (nh = Z.lxor (Z.lxor (Z.lxor (Z.lxor p k) p) k) p') as ->; [|xor_solve].
        rewrite <- K. xor_solve.
      * assert (nh = Z.lxor (Z.lxor (Z.lxor p p) k) p') as ->; [|xor_solve].
        rewrite <- K. xor_solve.
Qed.

(** C1: along every line of legal moves that starts from the key
    [compute_zobrist_key_full] gives for the position and the side to move,
    the hash updated by [simulate_move_and_update_hash] is the key
    [compute_zobrist_key_full] gives for the board reached, with the side to
    move flipped once per move; a single move is the line of length one. *)
Theorem zobrist_incremental_matches_full :
  forall st0 board pl line,
    (pl = PLAYER0 \/ pl = PLAYER1) ->
    players_well_formed board ->
    legal_line (snd (compute_zobrist_key_full board pl st0)) board pl line ->
    let st := snd (compute_zobrist_key_full board pl st0) in
    let start_hash := fst (compute_zobrist_key_full board pl st0) in
    compute_zobrist_key_full
      (line_board (play_line st board pl start_hash line))
      (line_side (play_line st board pl start_hash line)) st
    = (line_hash (play_line st board pl start_hash line), st).
Proof.
  intros st0 board pl line Hpl Hwf Hl st start_hash.
  pose proof (compute_zobrist_key_full_state st0 board pl) as Hi. fold st in Hi, Hl.
  apply play_line_keeps_hash; auto.
  unfold start_hash, st. clear.
  unfold compute_zobrist_key_full.
  destruct (zobrist_initialized st0) eqn:E; cbn [negb fst snd].
  - rewrite E. reflexivity.
  - rewrite initialize_zobrist_initialized. reflexivity.
Qed.

Lemma zobrist_incremental_matches_full_witness :
  let line := [mkMove 2 1 6 1 PIECE_TYPE_LION PIECE_TYPE_DOG 0;
               mkMove 7 0 6 0 PIECE_TYPE_RAT NO_PIECE 0] in
  let st := snd (compute_zobrist_key_full two_sided_board PLAYER1
                   (initial_engine frozen_clock)) in
  let start_hash := fst (compute_zobrist_key_full two_sided_board PLAYER1
                           (initial_engine frozen_clock)) in
  compute_zobrist_key_full
    (line_board (play_line st two_sided_board PLAYER1 start_hash line))
    (line_side (play_line st two_sided_board PLAYER1 start_hash line)) st
  = (line_hash (play_line st two_sided_board PLAYER1 start_hash line), st).
Proof.
  apply (zobrist_incremental_matches_full (initial_engine frozen_clock) two_sided_board
           PLAYER1).
  - right. reflexivity.
  - apply players_well_formedb_sound. vm_compute. reflexivity.
  - apply legal_line_cons.
    + exists false. vm_compute. tauto.
    + apply legal_line_cons.
      * exists false. vm_compute. tauto.
      * apply legal_line_nil.
Defined.

(** *** Repetition check *)

Lemma range_succ : forall n, 0 <= n -> range (n + 1) = range n ++ [n].
Proof.
  intros n Hn. unfold range.
  replace (Z.to_nat (n + 1)) with (S (Z.to_nat n)) by lia.
  rewrite seq_S, map_app. cbn. now rewrite Z2Nat.id.
Qed.

Lemma range_nonpos : forall n, n <= 0 -> range n = [].
Proof. intros n Hn. unfold range. now replace (Z.to_nat n) with 0%nat by lia. Qed.

Lemma rep_count_occurrences :
  forall st h n, rep_count st h n = occurrences_in_path st h n.
Proof.
  intros st h n. unfold rep_count, occurrences_in_path.
  assert (G : forall l a,
             fold_left (fun k j => if path_hashes st j =? uint64 h then k + 1 else k) l a
             = a + Z.of_nat (length (filter (fun j => path_hashes st j =? uint64 h) l))).
  { induction l as [|x l IH]; intros a; cbn [fold_left filter]; [cbn; lia|].
    rewrite IH. destruct (path_hashes st x =? uint64 h); cbn [length]; lia. }
  rewrite G. lia.
Qed.

Lemma repetition_draw_fires :
  forall st h n ply,
    ply > 0 -> occurrences_in_path st h n >= 2 -> repetition_draw st h n ply = true.
Proof.
  intros st h n ply Hply Hocc. unfold repetition_draw.
  rewrite rep_count_occurrences.
  assert (Hn : 0 < n).
  { destruct (Z_lt_le_dec 0 n) as [|Hle]; [assumption|]. exfalso.
    unfold occurrences_in_path in Hocc.
    destruct (Z.eq_dec n 0) as [->|Hne].
    - change (range (0 + 1)) with [0] in Hocc. cbn [filter] in Hocc.
      destruct (path_hashes st 0 =? uint64 h); cbn [length] in Hocc; lia.
    - rewrite range_nonpos in Hocc by lia. cbn [filter length] in Hocc. lia. }
  replace (n >? 0) with true by (symmetry; apply Z.gtb_lt; lia).
  replace (occurrences_in_path st h n >=? 2) with true
    by (symmetry; rewrite Z.geb_leb; apply Z.leb_le; lia).
  replace (ply >? 0) with true by (symmetry; apply Z.gtb_lt; lia).
  cbn [andb]. apply existsb_exists.
  unfold occurrences_in_path in Hocc. rewrite range_succ, filter_app, length_app in Hocc by lia.
  destruct (filter (fun j => path_hashes st j =? uint64 h) (range n)) as [|i l] eqn:Ef.
  - cbn [filter length] in Hocc.
    destruct (path_hashes st n =? uint64 h); cbn [length] in Hocc; lia.
  - assert (Hi : In i (filter (fun j => path_hashes st j =? uint64 h) (range n)))
      by (rewrite Ef; now left).
    apply filter_In in Hi. destruct Hi as [Hi1 Hi2].
    exists i. split; [exact Hi1|]. now rewrite Hi2.
Qed.

(** C6 (as the code has it): in a call of [alpha_beta] with [ply > 0] whose
    entry time check passes, if the current hash occurs at least twice in
    [path_hashes[0..path_hash_count]] the call returns the draw score 0 at
    the repetition check; the engine state it leaves is the entry state
    with the node counted and the clock read once, so no move was searched
    and no recursive call made. *)
Theorem repetition_returns_draw :
  forall fuel rec board hash depth_ alpha beta is_max ply path_hash_count allow_null st,
    fst (enter_node st) = false ->
    ply > 0 ->
    occurrences_in_path st hash path_hash_count >= 2 ->
    alpha_beta_node rec board hash depth_ alpha beta is_max ply path_hash_count allow_null st
    = Some (EXIT_REPETITION, DRAW_SCORE, snd (enter_node st))
    /\ alpha_beta (S fuel) board hash depth_ alpha beta is_max ply path_hash_count
         allow_null st
       = Some (0, snd (enter_node st)).
Proof.
  intros fuel rec board hash depth_ alpha beta is_max ply cnt allow_null st Ht Hply Hocc.
  assert (G : forall rec',
             alpha_beta_node rec' board hash depth_ alpha beta is_max ply cnt allow_null st
             = Some (EXIT_REPETITION, DRAW_SCORE, snd (enter_node st))).
  { intros rec'. unfold alpha_beta_node.
    destruct (enter_node st) as [expired st1] eqn:E. cbn [fst snd] in *. subst expired.
    assert (Hp : path_hashes st1 = path_hashes st).
    { unfold enter_node, emscripten_get_now in E. inversion E. reflexivity. }
    assert (Hr : repetition_draw st1 hash cnt ply = true).
    { apply repetition_draw_fires; [assumption|].
      unfold occurrences_in_path in *. now rewrite Hp. }
    now rewrite Hr. }
  split; [apply G|]. cbn [alpha_beta]. rewrite G. reflexivity.
Qed.

Lemma repetition_returns_draw_witness :
  alpha_beta 1 two_sided_board 5 3 (-100) 100 true 2 2 true
    (set_path_hashes ready_engine (fun _ => 5))
  = Some (0, snd (enter_node (set_path_hashes ready_engine (fun _ => 5)))).
Proof.
  apply (repetition_returns_draw 0 (alpha_beta 0)).
  - vm_compute. reflexivity.
  - lia.
  - vm_compute. discriminate.
Defined.

(** C6, the claim as written fails when the time budget is already spent at
    entry: the hash 5 fills [path_hashes[0..2]], [ply] is 2, and the call
    returns 888888 instead of 0. *)
Lemma repetition_after_timeout_returns_sentinel :
  occurrences_in_path expired_engine 5 2 = 3
  /\ option_map fst
       (alpha_beta 1 two_sided_board 5 3 (-100) 100 true 2 2 true expired_engine)
     = Some 888888.
Proof. vm_compute. split; reflexivity. Qed.

(** *** Null-move pruning *)

(** Whatever the size of the null-move score, a fail-high on it ends the
    node with [beta]: both branches of the mate test return. *)
Lemma null_move_pruning_always_prunes :
  forall rec board hash depth_ beta is_max ply path_hash_count st r st',
    depth_ >= NMP_REDUCTION + 1 -> ply <> 0 ->
    rec board (Z.lxor hash (zobrist_player1_to_move st)) (depth_ - 1 - NMP_REDUCTION)
      (int32 (- beta)) (int32 (- beta + 1)) (negb is_max) (int32 (ply + 1))
      (int32 (path_hash_count + 1)) false st = Some (r, st') ->
    int32 (- r) <> - TIMEOUT_SCORE ->
    int32 (- r) >= beta ->
    null_move_pruning rec board hash depth_ beta is_max ply path_hash_count true st
    = Some (inl (EXIT_NULL_PRUNE, beta), st').
Proof.
  intros rec board hash depth_ beta is_max ply cnt st r st' Hd Hply Hrec Hto Hge.
  unfold null_move_pruning.
  replace (depth_ >=? NMP_REDUCTION + 1) with true
    by (symmetry; rewrite Z.geb_leb; apply Z.leb_le; lia).
  rewrite (eqb_neq_false _ _ Hply). cbn [andb negb]. rewrite Hrec.
  rewrite (eqb_neq_false _ _ Hto).
  replace (int32 (- r) >=? beta) with true
    by (symmetry; rewrite Z.geb_leb; apply Z.leb_le; lia).
  destruct (int32 (- r) >=? WIN_SCORE - MAX_PLY_FOR_KILLERS * 2); reflexivity.
Qed.

(** C8, the claim as written fails.  Player0 is to move at depth 5, ply 1,
    window (-1000, 1000), on a board where Player1 has no move.  Player0 has
    six moves to search; the null-move search returns -19998, so the null
    score 19998 is at least [beta] and is a mate score (at least
    WIN_SCORE - 60); the node still returns [beta] through the null-move
    exit, having visited two nodes only: no move was searched. *)
Lemma null_move_mate_score_still_prunes :
  let st1 := store_path_hash (snd (enter_node ready_engine)) 1 boxed_cat_hash in
  length (generate_all_valid_moves boxed_cat_board PLAYER0 false) = 6%nat
  /\ option_map fst
       (alpha_beta 5 boxed_cat_board (Z.lxor boxed_cat_hash (zobrist_player1_to_move st1))
          (5 - 1 - NMP_REDUCTION) (int32 (- 1000)) (int32 (- 1000 + 1)) true 2 2 false st1)
     = Some (-19998)
  /\ (19998 >=? 1000) = true
  /\ (19998 >=? WIN_SCORE - MAX_PLY_FOR_KILLERS * 2) = true
  /\ exit_and_score
       (alpha_beta_node (alpha_beta 5) boxed_cat_board boxed_cat_hash 5 (-1000) 1000
          false 1 1 true ready_engine)
     = Some (EXIT_NULL_PRUNE, 1000)
  /\ ai_run_counter
       (state_of
          (alpha_beta_node (alpha_beta 5) boxed_cat_board boxed_cat_hash 5 (-1000) 1000
             false 1 1 true ready_engine) ready_engine)
     = 2.
Proof. vm_compute. repeat split. Qed.

(** C8 (as the code has it): in a node that reaches null-move pruning with
    [allow_null_move] set, [depth >= 4] and [ply <> 0], when the negated
    result of the null-move search is at least [beta] (and is not the
    negated timeout value) the node returns [beta]; the size of that score
    plays no part, a mate score prunes like any other, and the state
    returned is the one the null-move search left: no move is searched. *)
Theorem null_move_fail_high_returns_beta :
  forall rec board hash depth_ alpha beta is_max ply path_hash_count st st2
         alpha' beta' r st',
    fst (enter_node st) = false ->
    repetition_draw (snd (enter_node st)) hash path_hash_count ply = false ->
    push_path_hash (snd (enter_node st)) path_hash_count hash = Some st2 ->
    tt_probe st2 hash depth_ alpha beta ply = inr (alpha', beta') ->
    terminal_score board ply = None ->
    depth_ >= NMP_REDUCTION + 1 -> ply <> 0 ->
    rec board
      (Z.lxor hash (zobrist_player1_to_move st2))
      (depth_ - 1 - NMP_REDUCTION) (int32 (- beta')) (int32 (- beta' + 1)) (negb is_max)
      (int32 (ply + 1)) (int32 (path_hash_count + 1)) false st2 = Some (r, st') ->
    int32 (- r) <> - 888888 ->
    int32 (- r) >= beta' ->
    alpha_beta_node rec board hash depth_ alpha beta is_max ply path_hash_count true st
    = Some (EXIT_NULL_PRUNE, beta', st').
Proof.
  intros rec board hash depth_ alpha beta is_max ply cnt st st2 alpha' beta' r st'
         Ht Hrep Hpush Hprobe Hterm Hd Hply Hrec Hto Hge.
  unfold alpha_beta_node.
  destruct (enter_node st) as [expired st1]. cbn [fst snd] in *. subst expired.
  rewrite Hrep, Hpush, Hprobe, Hterm.
  replace (depth_ <=? 0) with false
    by (symmetry; apply Z.leb_gt; unfold NMP_REDUCTION in Hd; lia).
  rewrite (null_move_pruning_always_prunes rec board hash depth_ beta' is_max ply cnt
             st2 r st'); auto.
Qed.

Lemma null_move_fail_high_returns_beta_witness :
  exit_and_score
    (alpha_beta_node (alpha_beta 5) boxed_cat_board boxed_cat_hash 5 (-1000) 1000
       false 1 1 true ready_engine)
  = Some (EXIT_NULL_PRUNE, 1000).
Proof.
  assert (Hr : option_map fst
                 (alpha_beta 5 boxed_cat_board
                    (Z.lxor boxed_cat_hash
                       (zobrist_player1_to_move
                          (store_path_hash (snd (enter_node ready_engine)) 1 boxed_cat_hash)))
                    (5 - 1 - NMP_REDUCTION) (int32 (- 1000)) (int32 (- 1000 + 1))
                    (negb false) (int32 (1 + 1)) (int32 (1 + 1)) false
                    (store_path_hash (snd (enter_node ready_engine)) 1 boxed_cat_hash))
               = Some (-19998)) by (vm_compute; reflexivity).
  destruct (alpha_beta 5 boxed_cat_board
              (Z.lxor boxed_cat_hash
                 (zobrist_player1_to_move
                    (store_path_hash (snd (enter_node ready_engine)) 1 boxed_cat_hash)))
              (5 - 1 - NMP_REDUCTION) (int32 (- 1000)) (int32 (- 1000 + 1))
              (negb false) (int32 (1 + 1)) (int32 (1 + 1)) false
              (store_path_hash (snd (enter_node ready_engine)) 1 boxed_cat_hash))
    as [[r st']|] eqn:E; [|discriminate].
  cbn [option_map fst] in Hr. injection Hr as ->.
  rewrite (null_move_fail_high_returns_beta (alpha_beta 5) boxed_cat_board boxed_cat_hash 5
             (-1000) 1000 false 1 1 ready_engine
             (store_path_hash (snd (enter_node ready_engine)) 1 boxed_cat_hash)
             (-1000) 1000 (-19998) st').
  - reflexivity.
  - vm_compute. reflexivity.
  - vm_compute. reflexivity.
  - reflexivity.
  - vm_compute. reflexivity.
  - vm_compute. reflexivity.
  - vm_compute. discriminate.
  - discriminate.
  - exact E.
  - vm_compute. discriminate.
  - vm_compute. discriminate.
Defined.

(** *** Results of the search functions *)

Lemma some_pair_inv :
  forall (A B : Type) (a a' : A) (b b' : B),
    Some (a, b) = Some (a', b') -> a = a' /\ b = b'.
Proof. intros A B a a' b b' H. inversion H. auto. Qed.

Lemma some_triple_inv :
  forall (A B C : Type) (a a' : A) (b b' : B) (c c' : C),
    Some (a, b, c) = Some (a', b', c') -> a = a' /\ b = b' /\ c = c'.
Proof. intros A B C a a' b b' c c' H. inversion H. auto. Qed.

(** Split an equation between two returned results into its components. *)
Ltac some_inv H :=
  first
    [ apply some_triple_inv in H; destruct H as (? & ? & ?)
    | apply some_pair_inv in H; destruct H as (? & ?) ];
  subst.

(** *** Transposition-table stores *)

Lemma tt_unspoiled_refl : forall st, tt_unspoiled st st.
Proof. intros st i. now left. Qed.

Lemma tt_unspoiled_trans :
  forall a b c, tt_unspoiled a b -> tt_unspoiled b c -> tt_unspoiled a c.
Proof.
  intros a b c Hab Hbc i. destruct (Hbc i) as [H|H]; [|now right].
  rewrite H. apply Hab.
Qed.

Lemma tt_unspoiled_same :
  forall st st', transposition_table st' = transposition_table st -> tt_unspoiled st st'.
Proof. intros st st' H i. left. now rewrite H. Qed.

Lemma enter_node_tt :
  forall st, transposition_table (snd (enter_node st)) = transposition_table st.
Proof. reflexivity. Qed.

Lemma record_killer_move_tt :
  forall ply m st,
    transposition_table (record_killer_move ply m st) = transposition_table st.
Proof.
  intros ply m st. unfold record_killer_move.
  destruct ((ply <? 0) || (ply >=? MAX_PLY_FOR_KILLERS)); [reflexivity|].
  destruct (negb (killer_moves_valid st ply 0)
            || negb (same_squares (killer_moves st ply 0) m)); reflexivity.
Qed.

Lemma tt_store_unspoiled :
  forall st h best d a b bm, tt_unspoiled st (tt_store st h best d a b bm).
Proof.
  intros st h best d a b bm i. unfold tt_store.
  destruct (Z.eqb_spec best TIMEOUT_SCORE) as [He|Hne]; cbn [negb]; [now left|].
  cbn [transposition_table set_transposition_table].
  destruct (i =? tt_index_of h); [right; exact Hne | now left].
Qed.

Lemma quiescence_loop_tt :
  forall (rec : QSearchFn),
    (forall b h a be mx ply qd st v st',
        rec b h a be mx ply qd st = Some (v, st') ->
        transposition_table st' = transposition_table st) ->
    forall board hash is_max ply q_depth moves alpha beta st v st',
      quiescence_loop rec board hash is_max ply q_depth moves alpha beta st = Some (v, st') ->
      transposition_table st' = transposition_table st.
Proof.
  intros rec Hrec board hash is_max ply q_depth moves.
  induction moves as [|m rest IH]; intros alpha beta st v st' H; cbn [quiescence_loop] in H.
  - inversion H. reflexivity.
  - destruct (simulate_move_and_update_hash st board m (piece_type m)
                (if is_max then PLAYER1 else PLAYER0) hash) as [nb nh].
    destruct (rec nb nh alpha beta (negb is_max) ply (int32 (q_depth + 1)) st)
      as [[s st1]|] eqn:E; [|discriminate].
    apply Hrec in E.
    destruct (s =? TIMEOUT_SCORE); [inversion H; subst; exact E|].
    destruct is_max.
    + destruct ((if s >? alpha then s else alpha) >=? beta);
        [inversion H; subst; exact E|].
      apply IH in H. congruence.
    + destruct (alpha >=? (if s <? beta then s else beta));
        [inversion H; subst; exact E|].
      apply IH in H. congruence.
Qed.

Lemma quiescence_search_tt :
  forall fuel board hash alpha beta is_max ply q_depth st v st',
    quiescence_search fuel board hash alpha beta is_max ply q_depth st = Some (v, st') ->
    transposition_table st' = transposition_table st.
Proof.
  induction fuel as [|fuel IH]; intros board hash alpha beta is_max ply q_depth st v st' H;
    cbn [quiescence_search] in H; [discriminate|].
  unfold quiescence_node in H.
  destruct (enter_node st) as [expired st1] eqn:E.
  assert (Ht : transposition_table st1 = transposition_table st)
    by (unfold enter_node, emscripten_get_now in E; inversion E; reflexivity).
  repeat match type of H with
         | (if ?b then _ else _) = _ => destruct b
         | Some _ = Some _ => inversion H; subst; exact Ht
         end.
  apply (quiescence_loop_tt (quiescence_search fuel) IH) in H. congruence.
Qed.

Lemma search_moves_unspoiled :
  forall rec, rec_unspoiling rec ->
    forall board hash depth_ is_max ply cnt moves best bm alpha beta n st r,
      search_moves rec board hash depth_ is_max ply cnt moves best bm alpha beta n st
      = Some r ->
      tt_unspoiled st
        (match r with LOOP_TIMEOUT st' => st' | LOOP_DONE _ _ _ _ st' => st' end).
Proof.
  intros rec Hrec board hash depth_ is_max ply cnt moves.
  induction moves as [|m rest IH]; intros best bm alpha beta n st r H;
    cbn [search_moves] in H.
  - inversion H. apply tt_unspoiled_refl.
  - destruct (simulate_move_and_update_hash st board m (piece_type m)
                (if is_max then PLAYER1 else PLAYER0) hash) as [nb nh].
    match type of H with
    | match rec ?b ?h ?d ?a ?be ?mx ?p ?c ?an ?s with _ => _ end = _ =>
      destruct (rec b h d a be mx p c an s) as [[s1 st1]|] eqn:E1; [|discriminate]
    end.
    apply Hrec in E1.
    match type of H with
    | match (if ?c then ?x else ?y) with _ => _ end = _ =>
      destruct c; [destruct x as [[s2 st2]|] eqn:E2; [apply Hrec in E2|discriminate]|]
    end.
    + assert (T2 : tt_unspoiled st st2) by (eapply tt_unspoiled_trans; eauto).
      clear E1 E2.
      destruct (s2 =? TIMEOUT_SCORE); [inversion H; subst; exact T2|].
      match type of H with
      | (if ?c then _ else _) = _ => destruct c
      end.
      * inversion H; subst. cbn match.
        destruct (captured_piece_type m =? NO_PIECE); [|exact T2].
        eapply tt_unspoiled_trans; [exact T2|].
        apply tt_unspoiled_same. cbn [transposition_table set_history_heuristic].
        apply record_killer_move_tt.
      * apply IH in H. eapply tt_unspoiled_trans; eauto.
    + destruct (s1 =? TIMEOUT_SCORE); [inversion H; subst; exact E1|].
      match type of H with
      | (if ?c then _ else _) = _ => destruct c
      end.
      * inversion H; subst. cbn match.
        destruct (captured_piece_type m =? NO_PIECE); [|exact E1].
        eapply tt_unspoiled_trans; [exact E1|].
        apply tt_unspoiled_same. cbn [transposition_table set_history_heuristic].
        apply record_killer_move_tt.
      * apply IH in H. eapply tt_unspoiled_trans; eauto.
Qed.

Lemma null_move_pruning_unspoiled :
  forall rec, rec_unspoiling rec ->
    forall board hash depth_ beta is_max ply cnt an st x st',
      null_move_pruning rec board hash depth_ beta is_max ply cnt an st = Some (x, st') ->
      tt_unspoiled st st'.
Proof.
  intros rec Hrec board hash depth_ beta is_max ply cnt an st x st' H.
  unfold null_move_pruning in H.
  destruct (an && (depth_ >=? NMP_REDUCTION + 1) && negb (ply =? 0));
    [|inversion H; apply tt_unspoiled_refl].
  match type of H with
  | match rec ?b ?h ?d ?a ?be ?mx ?p ?c ?an ?s with _ => _ end = _ =>
    destruct (rec b h d a be mx p c an s) as [[r st1]|] eqn:E1; [|discriminate]
  end.
  apply Hrec in E1.
  repeat match type of H with
         | (if ?b then _ else _) = _ => destruct b
         end; inversion H; subst; exact E1.
Qed.

Lemma search_and_store_unspoiled :
  forall rec, rec_unspoiling rec ->
    forall board hash depth_ alpha beta is_max ply cnt st e v st',
      search_and_store rec board hash depth_ alpha beta is_max ply cnt st
      = Some (e, v, st') ->
      tt_unspoiled st st'.
Proof.
  intros rec Hrec board hash depth_ alpha beta is_max ply cnt st e v st' H.
  unfold search_and_store in H.
  match type of H with
  | (if ?c then _ else _) = _ =>
    destruct c; [some_inv H; apply tt_unspoiled_refl|]
  end.
  match type of H with
  | match ?x with _ => _ end = _ => destruct x as [r|] eqn:L; [|discriminate]
  end.
  apply (search_moves_unspoiled rec Hrec) in L.
  destruct r as [st4|best' bm' a' b' st4]; some_inv H.
  - exact L.
  - eapply tt_unspoiled_trans; [exact L|]. apply tt_store_unspoiled.
Qed.

Lemma push_path_hash_some :
  forall st n h st',
    push_path_hash st n h = Some st' ->
    st' = store_path_hash st n h /\ 0 <= n < PATH_HASHES_SIZE.
Proof.
  intros st n h st' H. unfold push_path_hash in H.
  destruct (Z.leb_spec 0 n); destruct (Z.ltb_spec n PATH_HASHES_SIZE);
    cbn [andb] in H; try discriminate.
  injection H as <-. split; [reflexivity|lia].
Qed.

Lemma push_path_hash_fits :
  forall st n h,
    0 <= n < PATH_HASHES_SIZE -> push_path_hash st n h = Some (store_path_hash st n h).
Proof.
  intros st n h H. unfold push_path_hash.
  destruct (Z.leb_spec 0 n); destruct (Z.ltb_spec n PATH_HASHES_SIZE);
    cbn [andb]; try lia.
  reflexivity.
Qed.

Lemma alpha_beta_node_unspoiled :
  forall rec, rec_unspoiling rec ->
    forall board hash depth_ alpha beta is_max ply cnt an st e v st',
      alpha_beta_node rec board hash depth_ alpha beta is_max ply cnt an st
      = Some (e, v, st') ->
      tt_unspoiled st st'.
Proof.
  intros rec Hrec board hash depth_ alpha beta is_max ply cnt an st e v st' H.
  unfold alpha_beta_node in H.
  destruct (enter_node st) as [expired st1] eqn:E.
  assert (T1 : tt_unspoiled st st1).
  { apply tt_unspoiled_same. unfold enter_node, emscripten_get_now in E.
    inversion E. reflexivity. }
  destruct expired; [some_inv H; exact T1|].
  destruct (repetition_draw st1 hash cnt ply); [some_inv H; exact T1|].
  destruct (push_path_hash st1 cnt hash) as [st2|] eqn:P; [|discriminate].
  apply push_path_hash_some in P. destruct P as [P _].
  assert (T2 : tt_unspoiled st st2).
  { eapply tt_unspoiled_trans; [exact T1|]. apply tt_unspoiled_same. now rewrite P. }
  clear P.
  destruct (tt_probe st2 hash depth_ alpha beta ply) as [s|[alpha' beta']];
    [some_inv H; exact T2|].
  destruct (terminal_score board ply); [some_inv H; exact T2|].
  destruct (depth_ <=? 0).
  - destruct (quiescence_search Q_FUEL board hash alpha' beta' is_max ply 0 st2)
      as [[s st3]|] eqn:Q; [|discriminate].
    apply quiescence_search_tt in Q. some_inv H.
    eapply tt_unspoiled_trans; [exact T2|]. now apply tt_unspoiled_same.
  - destruct (null_move_pruning rec board hash depth_ beta' is_max ply cnt an st2)
      as [[x st3]|] eqn:N; [|discriminate].
    apply (null_move_pruning_unspoiled rec Hrec) in N.
    assert (T3 : tt_unspoiled st st3) by (eapply tt_unspoiled_trans; eauto).
    destruct x as [[e' v']|[]]; [some_inv H; exact T3|].
    apply (search_and_store_unspoiled rec Hrec) in H.
    eapply tt_unspoiled_trans; eauto.
Qed.

Lemma alpha_beta_unspoiling : forall fuel, rec_unspoiling (alpha_beta fuel).
Proof.
  induction fuel as [|fuel IH]; intros b h d a be mx ply cnt an st v st' H;
    cbn [alpha_beta] in H; [discriminate|].
  destruct (alpha_beta_node (alpha_beta fuel) b h d a be mx ply cnt an st)
    as [[[e v0] st0]|] eqn:E; cbn [drop_exit] in H; [|discriminate].
  inversion H; subst. eapply alpha_beta_node_unspoiled; eauto.
Qed.

(** The window and the best score at the end of the move loop. *)
Lemma search_moves_window :
  forall rec board hash depth_ is_max ply cnt moves best bm alpha beta n st
         best' bm' alpha' beta' st',
    search_moves rec board hash depth_ is_max ply cnt moves best bm alpha beta n st
    = Some (LOOP_DONE best' bm' alpha' beta' st') ->
    (best <> TIMEOUT_SCORE -> best' <> TIMEOUT_SCORE)
    /\ (is_max = true -> beta' = beta)
    /\ (is_max = false ->
        best' <= best /\ (beta' = Z.min beta best' \/ (beta' = beta /\ best' = best))).
Proof.
  intros rec board hash depth_ is_max ply cnt moves.
  induction moves as [|m rest IH];
    intros best bm alpha beta n st best' bm' alpha' beta' st' H; cbn [search_moves] in H.
  - inversion H; subst. repeat split; auto; try lia.
  - destruct (simulate_move_and_update_hash st board m (piece_type m)
                (if is_max then PLAYER1 else PLAYER0) hash) as [nb nh].
    match type of H with
    | match rec ?b ?h ?d ?a ?be ?mx ?p ?c ?an ?s with _ => _ end = _ =>
      destruct (rec b h d a be mx p c an s) as [[s1 st1]|]; [|discriminate]
    end.
    match type of H with
    | match ?x with _ => _ end = _ => destruct x as [[s2 st2]|]; [|discriminate]
    end.
    destruct (Z.eqb_spec s2 TIMEOUT_SCORE) as [Hto|Hto]; [discriminate|].
    destruct is_max.
    + match type of H with
      | (if ?c then _ else _) = _ => destruct c
      end.
      * inversion H; subst. repeat split; try discriminate.
        intros Hb. destruct (s2 >? best); auto.
      * apply IH in H. destruct H as (H1 & H2 & _). repeat split; try discriminate.
        -- intros Hb. apply H1. destruct (s2 >? best); auto.
        -- intros _. now apply H2.
    + set (best1 := if s2 <? best then s2 else best) in *.
      assert (Hb1 : best1 <= best /\ (best1 = s2 \/ best1 = best)).
      { unfold best1. destruct (Z.ltb_spec s2 best); lia. }
      set (beta1 := if beta <? best1 then beta else best1) in *.
      assert (Hbe : beta1 = Z.min beta best1).
      { unfold beta1. destruct (Z.ltb_spec beta best1); lia. }
      match type of H with
      | (if ?c then _ else _) = _ => destruct c
      end.
      * inversion H; subst. repeat split; try discriminate; lia.
      * apply IH in H. destruct H as (H1 & _ & H3). split; [|split]; try discriminate.
        -- intros Hb. apply H1. lia.
        -- intros _. destruct (H3 eq_refl) as [Hle [Hm | [Hm1 Hm2]]]; split; lia.
Qed.

Lemma null_move_pruning_exit :
  forall rec board hash depth_ beta is_max ply cnt an st e v st',
    null_move_pruning rec board hash depth_ beta is_max ply cnt an st
    = Some (inl (e, v), st') ->
    e = EXIT_NULL_TIMEOUT \/ e = EXIT_NULL_PRUNE.
Proof.
  intros rec board hash depth_ beta is_max ply cnt an st e v st' H.
  unfold null_move_pruning in H.
  destruct (an && (depth_ >=? NMP_REDUCTION + 1) && negb (ply =? 0)); [|discriminate].
  match type of H with
  | match ?x with _ => _ end = _ => destruct x as [[r st1]|]; [|discriminate]
  end.
  repeat match type of H with
         | (if ?b then _ else _) = _ => destruct b
         end; try discriminate; some_inv H;
    match goal with
    | H0 : inl _ = inl _ |- _ => injection H0 as <- _; auto
    end.
Qed.

Lemma tt_store_slot :
  forall st h best d a b bm,
    best <> TIMEOUT_SCORE ->
    transposition_table (tt_store st h best d a b bm) (tt_index_of h)
    = mkTTEntry h best d (tt_flag_of best a b)
        (match bm with
         | Some m => m
         | None => best_move (transposition_table st (tt_index_of h))
         end)
        (is_some bm).
Proof.
  intros st h best d a b bm Hne. unfold tt_store.
  rewrite (eqb_neq_false _ _ Hne). cbn [negb transposition_table set_transposition_table].
  now rewrite Z.eqb_refl.
Qed.

Lemma tt_flag_of_cases :
  forall v a b,
    (v <= a -> tt_flag_of v a b = HASH_UPPERBOUND)
    /\ (a < v -> b <= v -> tt_flag_of v a b = HASH_LOWERBOUND)
    /\ (a < v -> v < b -> tt_flag_of v a b = HASH_EXACT).
Proof.
  intros v a b. unfold tt_flag_of.
  destruct (Z.leb_spec v a); [repeat split; intros; auto; lia|].
  rewrite Z.geb_leb. destruct (Z.leb_spec b v); repeat split; intros; auto; lia.
Qed.

(** A node that leaves through the return of line 623 has written its slot. *)
Lemma search_and_store_slot :
  forall rec board hash depth_ alpha beta is_max ply cnt st a0 b1 v st',
    search_and_store rec board hash depth_ alpha beta is_max ply cnt st
    = Some (EXIT_SEARCHED a0 b1, v, st') ->
    a0 = alpha
    /\ (is_max = true -> b1 = beta)
    /\ (is_max = false -> b1 = Z.min beta v \/ (b1 = beta /\ v = INT_MAX))
    /\ v <> TIMEOUT_SCORE
    /\ hash_key (transposition_table st' (tt_index_of hash)) = hash
    /\ score (transposition_table st' (tt_index_of hash)) = v
    /\ depth (transposition_table st' (tt_index_of hash)) = depth_
    /\ flag (transposition_table st' (tt_index_of hash)) = tt_flag_of v a0 b1.
Proof.
  intros rec board hash depth_ alpha beta is_max ply cnt st a0 b1 v st' H.
  unfold search_and_store in H.
  match type of H with
  | (if ?c then _ else _) = _ => destruct c; [some_inv H; discriminate|]
  end.
  match type of H with
  | match ?x with _ => _ end = _ => destruct x as [r|] eqn:L; [|discriminate]
  end.
  destruct r as [st4|best' bm' a' b' st4]; [some_inv H; discriminate|].
  apply some_triple_inv in H. destruct H as (He & Hv & Hst).
  injection He as <- <-. subst best'.
  apply search_moves_window in L. destruct L as (L1 & L2 & L3).
  assert (Hne : v <> TIMEOUT_SCORE).
  { apply L1. destruct is_max; discriminate. }
  subst st'. rewrite tt_store_slot by assumption. cbn [hash_key score depth flag].
  repeat split; auto.
  intros Hm. destruct (L3 Hm) as [_ [Hb | [Hb Hb']]]; [now left|right].
  rewrite Hm in Hb'. auto.
Qed.

Lemma alpha_beta_node_slot :
  forall rec board hash depth_ alpha beta is_max ply cnt an st a0 b1 v st',
    alpha_beta_node rec board hash depth_ alpha beta is_max ply cnt an st
    = Some (EXIT_SEARCHED a0 b1, v, st') ->
    (exists b0,
        tt_probe (store_path_hash (snd (enter_node st)) cnt hash) hash depth_ alpha beta ply
        = inr (a0, b0)
        /\ (is_max = true -> b1 = b0)
        /\ (is_max = false -> b1 = Z.min b0 v \/ (b1 = b0 /\ v = INT_MAX)))
    /\ v <> TIMEOUT_SCORE
    /\ hash_key (transposition_table st' (tt_index_of hash)) = hash
    /\ score (transposition_table st' (tt_index_of hash)) = v
    /\ depth (transposition_table st' (tt_index_of hash)) = depth_
    /\ flag (transposition_table st' (tt_index_of hash)) = tt_flag_of v a0 b1.
Proof.
  intros rec board hash depth_ alpha beta is_max ply cnt an st a0 b1 v st' H.
  unfold alpha_beta_node in H.
  destruct (enter_node st) as [expired st1] eqn:E. cbn [snd].
  destruct expired; [some_inv H; discriminate|].
  destruct (repetition_draw st1 hash cnt ply); [some_inv H; discriminate|].
  destruct (push_path_hash st1 cnt hash) as [st2|] eqn:P; [|discriminate].
  apply push_path_hash_some in P. destruct P as [-> _].
  destruct (tt_probe (store_path_hash st1 cnt hash) hash depth_ alpha beta ply)
    as [s|[alpha' beta']]; [some_inv H; discriminate|].
  destruct (terminal_score board ply); [some_inv H; discriminate|].
  destruct (depth_ <=? 0).
  - match type of H with
    | match ?x with _ => _ end = _ => destruct x as [[s st3]|]; [|discriminate]
    end.
    some_inv H. discriminate.
  - destruct (null_move_pruning rec board hash depth_ beta' is_max ply cnt an
                (store_path_hash st1 cnt hash)) as [[x st3]|] eqn:N; [|discriminate].
    destruct x as [[e' v']|[]].
    + apply null_move_pruning_exit in N. some_inv H. destruct N; discriminate.
    + apply search_and_store_slot in H.
      destruct H as (-> & H1 & H2 & H3 & H4).
      split; [exists beta'; auto|auto].
Qed.

(** In a minimising node line 595 lowers [beta] to the best score after
    every move, so the test of line 614 holds whenever that of line 613
    fails: such a node stores UpperBound or LowerBound, never Exact. *)
Lemma minimising_node_flag :
  forall rec board hash depth_ alpha beta ply cnt an st a0 b1 v st',
    beta <= INT_MAX ->
    alpha_beta_node rec board hash depth_ alpha beta false ply cnt an st
    = Some (EXIT_SEARCHED a0 b1, v, st') ->
    flag (transposition_table st' (tt_index_of hash))
    = if v <=? a0 then HASH_UPPERBOUND else HASH_LOWERBOUND.
Proof.
  intros rec board hash depth_ alpha beta ply cnt an st a0 b1 v st' Hint H.
  apply alpha_beta_node_slot in H.
  destruct H as ((b0 & Hp & _ & Hb) & _ & _ & _ & _ & ->).
  assert (Hb0 : b0 <= beta).
  { revert Hp. unfold tt_probe.
    destruct (_ && _); [|intros Hp; injection Hp as _ <-; lia].
    destruct (flag _); try discriminate.
    - destruct (_ >=? beta); [discriminate|]. intros Hp. injection Hp as _ <-. lia.
    - match goal with
      | |- context [beta <? ?x] => destruct (Z.ltb_spec beta x)
      end;
        (destruct (alpha >=? _); [discriminate|]); intros Hp; injection Hp as _ <-;
        first [lia | assumption]. }
  unfold tt_flag_of. destruct (v <=? a0); [reflexivity|].
  replace (v >=? b1) with true; [reflexivity|].
  symmetry. rewrite Z.geb_leb. apply Z.leb_le.
  destruct (Hb eq_refl) as [->|[-> ->]]; lia.
Qed.

(** C7 (as the code has it): a node of [alpha_beta] that runs its move loop
    to the end without a timeout overwrites the slot of its hash with its
    hash, best score and depth.  The flag is UpperBound when the best score
    is at most [original_alpha], which is the alpha left by the table probe
    at the start of the node and not the alpha of the call; in a maximising
    node it is LowerBound when the best score is above [original_alpha] and
    at least the beta left by the probe, and Exact when it lies strictly
    between the two.  The stored score is never 888888, and no call of
    [alpha_beta] ever leaves 888888 as the score of a slot it has
    written. *)
Theorem tt_store_classification :
  forall fuel board hash depth_ alpha beta is_max ply path_hash_count allow_null st,
    (forall a0 b1 v st',
        alpha_beta_node (alpha_beta fuel) board hash depth_ alpha beta is_max ply
          path_hash_count allow_null st
        = Some (EXIT_SEARCHED a0 b1, v, st') ->
        exists b0,
          tt_probe (store_path_hash (snd (enter_node st)) path_hash_count hash)
            hash depth_ alpha beta ply = inr (a0, b0)
          /\ v <> 888888
          /\ hash_key (transposition_table st' (tt_index_of hash)) = hash
          /\ score (transposition_table st' (tt_index_of hash)) = v
          /\ depth (transposition_table st' (tt_index_of hash)) = depth_
          /\ (v <= a0 ->
              flag (transposition_table st' (tt_index_of hash)) = HASH_UPPERBOUND)
          /\ (is_max = true -> a0 < v -> b0 <= v ->
              flag (transposition_table st' (tt_index_of hash)) = HASH_LOWERBOUND)
          /\ (is_max = true -> a0 < v -> v < b0 ->
              flag (transposition_table st' (tt_index_of hash)) = HASH_EXACT))
    /\
    (forall v st',
        alpha_beta fuel board hash depth_ alpha beta is_max ply path_hash_count
          allow_null st = Some (v, st') ->
        forall i,
          transposition_table st' i = transposition_table st i
          \/ score (transposition_table st' i) <> 888888).
Proof.
  intros fuel board hash depth_ alpha beta is_max ply cnt an st. split.
  - intros a0 b1 v st' H. apply alpha_beta_node_slot in H.
    destruct H as ((b0 & Hp & Hmax & _) & H2 & H3 & H4 & H5 & H6).
    destruct (tt_flag_of_cases v a0 b1) as (F1 & F2 & F3).
    exists b0. rewrite H6. repeat split; auto.
    + intros Hm Ha Hb. apply F2; [exact Ha|]. rewrite (Hmax Hm). exact Hb.
    + intros Hm Ha Hb. apply F3; [exact Ha|]. rewrite (Hmax Hm). exact Hb.
  - intros v st' H. exact (alpha_beta_unspoiling fuel _ _ _ _ _ _ _ _ _ _ _ _ H).
Qed.

Lemma tt_store_classification_witness :
  flag (transposition_table
          (state_of
             (alpha_beta_node (alpha_beta 1) rats_board rats_hash 1 (-500) 19000 true 1 1
                true primed_engine) primed_engine)
          (tt_index_of rats_hash))
  = HASH_UPPERBOUND.
Proof.
  assert (Hv : exit_and_score
                 (alpha_beta_node (alpha_beta 1) rats_board rats_hash 1 (-500) 19000 true
                    1 1 true primed_engine)
               = Some (EXIT_SEARCHED 5000 19000, 5000)) by (vm_compute; reflexivity).
  destruct (alpha_beta_node (alpha_beta 1) rats_board rats_hash 1 (-500) 19000 true 1 1
              true primed_engine) as [[[e v] s]|] eqn:E; [|discriminate].
  cbn [exit_and_score option_map fst] in Hv. apply some_pair_inv in Hv.
  destruct Hv as [-> ->]. cbn [state_of].
  destruct (tt_store_classification 1 rats_board rats_hash 1 (-500) 19000 true 1 1 true
              primed_engine) as [A _].
  destruct (A _ _ _ _ E) as (b0 & _ & _ & _ & _ & _ & U & _).
  apply U. lia.
Defined.

(** C7, the claim as written fails twice.  A node that ends at the terminal
    check is finished without a timeout and writes no slot: the slot of its
    hash still holds key 0.  And a node entered with alpha = -500 whose probe
    finds a lower bound of 5000 ends its move loop with best score 5000,
    above the entry alpha and below beta = 19000, and stores UpperBound. *)
Lemma tt_store_not_by_entry_alpha :
  (exit_and_score
     (alpha_beta_node (alpha_beta 1) den_taken_board den_taken_hash 1 (-500) 19000 true
        1 1 true ready_engine)
   = Some (EXIT_TERMINAL, -19999)
   /\ hash_key (transposition_table
                  (state_of
                     (alpha_beta_node (alpha_beta 1) den_taken_board den_taken_hash 1
                        (-500) 19000 true 1 1 true ready_engine) ready_engine)
                  (tt_index_of den_taken_hash)) = 0
   /\ den_taken_hash <> 0)
  /\
  (exit_and_score
     (alpha_beta_node (alpha_beta 1) rats_board rats_hash 1 (-500) 19000 true 1 1 true
        primed_engine)
   = Some (EXIT_SEARCHED 5000 19000, 5000)
   /\ flag (transposition_table
              (state_of
                 (alpha_beta_node (alpha_beta 1) rats_board rats_hash 1 (-500) 19000 true
                    1 1 true primed_engine) primed_engine)
              (tt_index_of rats_hash))
      = HASH_UPPERBOUND
   /\ -500 < 5000 < 19000).
Proof. vm_compute. repeat split; discriminate. Qed.

(** *** Termination of the search *)

Lemma int32_small : forall z, - 2 ^ 31 <= z < 2 ^ 31 -> int32 z = z.
Proof.
  intros z H. unfold int32. rewrite Z.mod_small; lia.
Qed.

Lemma quiescence_loop_total :
  forall (rec : QSearchFn) ply q_depth,
    (forall b h a be mx st, exists r, rec b h a be mx ply (int32 (q_depth + 1)) st = Some r) ->
    forall board hash is_max moves alpha beta st,
    exists r, quiescence_loop rec board hash is_max ply q_depth moves alpha beta st = Some r.
Proof.
  intros rec ply q_depth Hrec board hash is_max moves.
  induction moves as [|m rest IH]; intros alpha beta st; cbn [quiescence_loop]; [eauto|].
  destruct (simulate_move_and_update_hash st board m (piece_type m)
              (if is_max then PLAYER1 else PLAYER0) hash) as [nb nh].
  destruct (Hrec nb nh alpha beta (negb is_max) st) as [[s st1] ->].
  destruct (s =? TIMEOUT_SCORE); [eauto|].
  destruct is_max.
  - destruct ((if s >? alpha then s else alpha) >=? beta); [eauto|apply IH].
  - destruct (alpha >=? (if s <? beta then s else beta)); [eauto|apply IH].
Qed.

Lemma quiescence_search_total :
  forall fuel q_depth,
    0 <= q_depth ->
    (Z.to_nat (MAX_Q_DEPTH - q_depth) < fuel)%nat ->
    forall board hash alpha beta is_max ply st,
    exists r, quiescence_search fuel board hash alpha beta is_max ply q_depth st = Some r.
Proof.
  induction fuel as [|fuel IH]; intros q_depth Hq Hf board hash alpha beta is_max ply st;
    [lia|].
  cbn [quiescence_search]. unfold quiescence_node.
  destruct (enter_node st) as [expired st1].
  destruct expired; [eauto|].
  destruct (Z.geb_spec q_depth MAX_Q_DEPTH) as [Hge|Hlt]; [eauto|].
  repeat match goal with
         | |- exists r, (if ?b then _ else _) = Some r => destruct b; [eauto|]
         end.
  apply quiescence_loop_total.
  intros b h a be mx st'. unfold MAX_Q_DEPTH in *.
  rewrite int32_small by lia. apply IH; lia.
Qed.

Lemma path_fits_child :
  forall cnt depth_ d,
    path_fits cnt depth_ -> 0 < depth_ -> d < depth_ ->
    path_fits (int32 (cnt + 1)) d.
Proof.
  intros cnt depth_ d [H0 H1] Hd Hlt.
  unfold path_fits, PATH_HASHES_SIZE, MAX_PLY_FOR_KILLERS in *.
  rewrite int32_small by lia. lia.
Qed.

Lemma search_moves_total :
  forall rec depth_ cnt,
    rec_total_below rec depth_ -> path_fits cnt depth_ -> 0 < depth_ ->
    forall board hash is_max ply moves best bm alpha beta n st,
    exists r,
      search_moves rec board hash depth_ is_max ply cnt moves best bm alpha beta n st
      = Some r.
Proof.
  intros rec depth_ cnt Hrec Hfit Hpos board hash is_max ply moves.
  induction moves as [|m rest IH]; intros best bm alpha beta n st; cbn [search_moves];
    [eauto|].
  destruct (simulate_move_and_update_hash st board m (piece_type m)
              (if is_max then PLAYER1 else PLAYER0) hash) as [nb nh].
  match goal with
  | |- exists r, match rec ?b ?h ?d ?a ?be ?mx ?p ?c ?an ?s with _ => _ end = _ =>
    assert (Hd : d < depth_)
      by (unfold LMR_REDUCTION_BASE; destruct (_ && _); lia);
    destruct (Hrec b h d a be mx p c an s Hd (path_fits_child _ _ _ Hfit Hpos Hd))
      as [[s1 st1] ->]
  end.
  match goal with
  | |- exists r, match (if ?c then ?x else ?y) with _ => _ end = _ =>
    destruct c
  end.
  - match goal with
    | |- exists r, match rec ?b ?h ?d ?a ?be ?mx ?p ?c ?an ?s with _ => _ end = _ =>
      assert (Hd' : d < depth_) by lia;
      destruct (Hrec b h d a be mx p c an s Hd' (path_fits_child _ _ _ Hfit Hpos Hd'))
        as [[s2 st2] ->]
    end.
    destruct (s2 =? TIMEOUT_SCORE); [eauto|].
    match goal with
    | |- exists r, (if ?c then _ else _) = Some r => destruct c; [eauto|apply IH]
    end.
  - destruct (s1 =? TIMEOUT_SCORE); [eauto|].
    match goal with
    | |- exists r, (if ?c then _ else _) = Some r => destruct c; [eauto|apply IH]
    end.
Qed.

Lemma null_move_pruning_total :
  forall rec depth_ cnt,
    rec_total_below rec depth_ -> path_fits cnt depth_ -> 0 < depth_ ->
    forall board hash beta is_max ply an st,
    exists r, null_move_pruning rec board hash depth_ beta is_max ply cnt an st = Some r.
Proof.
  intros rec depth_ cnt Hrec Hfit Hpos board hash beta is_max ply an st.
  unfold null_move_pruning.
  destruct (an && (depth_ >=? NMP_REDUCTION + 1) && negb (ply =? 0)); [|eauto].
  match goal with
  | |- exists r, match rec ?b ?h ?d ?a ?be ?mx ?p ?c ?an ?s with _ => _ end = _ =>
    assert (Hd : d < depth_) by (unfold NMP_REDUCTION; lia);
    destruct (Hrec b h d a be mx p c an s Hd (path_fits_child _ _ _ Hfit Hpos Hd))
      as [[s1 st1] ->]
  end.
  repeat match goal with
         | |- exists r, (if ?b then _ else _) = Some r => destruct b
         end; eauto.
Qed.

Lemma search_and_store_total :
  forall rec depth_ cnt,
    rec_total_below rec depth_ -> path_fits cnt depth_ -> 0 < depth_ ->
    forall board hash alpha beta is_max ply st,
    exists r, search_and_store rec board hash depth_ alpha beta is_max ply cnt st = Some r.
Proof.
  intros rec depth_ cnt Hrec Hfit Hpos board hash alpha beta is_max ply st.
  unfold search_and_store.
  match goal with
  | |- exists r, (if ?c then _ else _) = Some r => destruct c; [eauto|]
  end.
  match goal with
  | |- exists r, match ?x with _ => _ end = Some r =>
    destruct (search_moves_total rec depth_ cnt Hrec Hfit Hpos board hash is_max ply
                (order_moves st
                   (generate_all_valid_moves board (if is_max then PLAYER1 else PLAYER0) false)
                   (if hash_key (transposition_table st (tt_index_of hash)) =? hash
                    then Some (best_move (transposition_table st (tt_index_of hash)))
                    else None)
                   ((hash_key (transposition_table st (tt_index_of hash)) =? hash)
                    && best_move_valid (transposition_table st (tt_index_of hash))) ply)
                (if is_max then INT_MIN else INT_MAX) None alpha beta 0 st) as [r ->]
  end.
  destruct r; eauto.
Qed.

Lemma alpha_beta_node_total :
  forall rec depth_ cnt,
    (0 < depth_ -> rec_total_below rec depth_) -> path_fits cnt depth_ ->
    forall board hash alpha beta is_max ply an st,
    exists r, alpha_beta_node rec board hash depth_ alpha beta is_max ply cnt an st = Some r.
Proof.
  intros rec depth_ cnt Hrec Hfit board hash alpha beta is_max ply an st.
  unfold alpha_beta_node.
  destruct (enter_node st) as [expired st1].
  destruct expired; [eauto|].
  destruct (repetition_draw st1 hash cnt ply); [eauto|].
  rewrite push_path_hash_fits by (unfold path_fits in Hfit; lia).
  destruct (tt_probe (store_path_hash st1 cnt hash) hash depth_ alpha beta ply)
    as [s|[alpha' beta']]; [eauto|].
  destruct (terminal_score board ply); [eauto|].
  destruct (Z.leb_spec depth_ 0) as [Hd|Hd].
  - destruct (quiescence_search_total Q_FUEL 0 ltac:(lia) ltac:(vm_compute; lia) board hash
                alpha' beta' is_max ply (store_path_hash st1 cnt hash)) as [[s st2] ->].
    eauto.
  - destruct (null_move_pruning_total rec depth_ cnt (Hrec Hd) Hfit Hd board hash beta'
                is_max ply an (store_path_hash st1 cnt hash)) as [[x st2] ->].
    destruct x as [[e v]|[]]; [eauto|].
    apply search_and_store_total; auto.
Qed.

(** A call whose path fits in [path_hashes] returns, given fuel above its
    depth. *)
Lemma alpha_beta_total :
  forall fuel depth_ cnt,
    (Z.to_nat depth_ < fuel)%nat -> path_fits cnt depth_ ->
    forall board hash alpha beta is_max ply an st,
    exists r, alpha_beta fuel board hash depth_ alpha beta is_max ply cnt an st = Some r.
Proof.
  induction fuel as [|fuel IH];
    intros depth_ cnt Hf Hfit board hash alpha beta is_max ply an st; [lia|].
  cbn [alpha_beta].
  destruct (alpha_beta_node_total (alpha_beta fuel) depth_ cnt) with
    (board := board) (hash := hash) (alpha := alpha) (beta := beta) (is_max := is_max)
    (ply := ply) (an := an) (st := st) as [[[e v] st'] ->].
  - intros Hd b h d' a be mx p c an' s Hlt Hc. apply IH; [lia|exact Hc].
  - exact Hfit.
  - cbn [drop_exit]. eauto.
Qed.

(** The write of line 494 at an index outside the array: a call that passes
    the time check and the repetition check with [path_hash_count] at or
    above 35 (or below 0) has no defined result, whatever the recursive
    calls would do. *)
Lemma alpha_beta_node_path_overflow :
  forall rec board hash depth_ alpha beta is_max ply cnt an st,
    fst (enter_node st) = false ->
    repetition_draw (snd (enter_node st)) hash cnt ply = false ->
    cnt < 0 \/ PATH_HASHES_SIZE <= cnt ->
    alpha_beta_node rec board hash depth_ alpha beta is_max ply cnt an st = None.
Proof.
  intros rec board hash depth_ alpha beta is_max ply cnt an st Ht Hrep Hout.
  unfold alpha_beta_node.
  destruct (enter_node st) as [expired st1]. cbn [fst snd] in *. subst expired.
  rewrite Hrep. unfold push_path_hash.
  destruct (Z.leb_spec 0 cnt); destruct (Z.ltb_spec cnt PATH_HASHES_SIZE);
    cbn [andb]; try reflexivity.
  lia.
Qed.

(** The result of a call does not depend on the fuel, once there is enough. *)
Lemma search_moves_extends :
  forall rec rec', rec_extends rec rec' ->
    forall board hash depth_ is_max ply cnt moves best bm alpha beta n st r,
      search_moves rec board hash depth_ is_max ply cnt moves best bm alpha beta n st
      = Some r ->
      search_moves rec' board hash depth_ is_max ply cnt moves best bm alpha beta n st
      = Some r.
Proof.
  intros rec rec' Hext board hash depth_ is_max ply cnt moves.
  induction moves as [|m rest IH]; intros best bm alpha beta n st r H;
    cbn [search_moves] in *; [exact H|].
  destruct (simulate_move_and_update_hash st board m (piece_type m)
              (if is_max then PLAYER1 else PLAYER0) hash) as [nb nh].
  match type of H with
  | match rec ?b ?h ?d ?a ?be ?mx ?p ?c ?an ?s with _ => _ end = _ =>
    destruct (rec b h d a be mx p c an s) as [[s1 st1]|] eqn:E1; [|discriminate];
      rewrite (Hext _ _ _ _ _ _ _ _ _ _ _ E1)
  end.
  match type of H with
  | match (if ?c then ?x else ?y) with _ => _ end = _ => destruct c
  end.
  - match type of H with
    | match rec ?b ?h ?d ?a ?be ?mx ?p ?c ?an ?s with _ => _ end = _ =>
      destruct (rec b h d a be mx p c an s) as [[s2 st2]|] eqn:E2; [|discriminate];
        rewrite (Hext _ _ _ _ _ _ _ _ _ _ _ E2)
    end.
    destruct (s2 =? TIMEOUT_SCORE); [exact H|].
    match type of H with
    | (if ?c then _ else _) = _ => destruct c; [exact H|apply IH; exact H]
    end.
  - destruct (s1 =? TIMEOUT_SCORE); [exact H|].
    match type of H with
    | (if ?c then _ else _) = _ => destruct c; [exact H|apply IH; exact H]
    end.
Qed.

Lemma alpha_beta_node_extends :
  forall rec rec', rec_extends rec rec' ->
    forall board hash depth_ alpha beta is_max ply cnt an st r,
      alpha_beta_node rec board hash depth_ alpha beta is_max ply cnt an st = Some r ->
      alpha_beta_node rec' board hash depth_ alpha beta is_max ply cnt an st = Some r.
Proof.
  intros rec rec' Hext board hash depth_ alpha beta is_max ply cnt an st r H.
  unfold alpha_beta_node in *.
  destruct (enter_node st) as [expired st1].
  destruct expired; [exact H|].
  destruct (repetition_draw st1 hash cnt ply); [exact H|].
  destruct (push_path_hash st1 cnt hash) as [st2|]; [|discriminate].
  destruct (tt_probe st2 hash depth_ alpha beta ply)
    as [s|[alpha' beta']]; [exact H|].
  destruct (terminal_score board ply); [exact H|].
  destruct (depth_ <=? 0); [exact H|].
  assert (N : forall x,
             null_move_pruning rec board hash depth_ beta' is_max ply cnt an
               st2 = Some x ->
             null_move_pruning rec' board hash depth_ beta' is_max ply cnt an
               st2 = Some x).
  { intros x Hx. unfold null_move_pruning in *.
    destruct (an && (depth_ >=? NMP_REDUCTION + 1) && negb (ply =? 0)); [|exact Hx].
    match type of Hx with
    | match rec ?b ?h ?d ?a ?be ?mx ?p ?c ?an ?s with _ => _ end = _ =>
      destruct (rec b h d a be mx p c an s) as [[s1 st3]|] eqn:E1; [|discriminate];
        rewrite (Hext _ _ _ _ _ _ _ _ _ _ _ E1)
    end.
    exact Hx. }
  destruct (null_move_pruning rec board hash depth_ beta' is_max ply cnt an
              st2) as [[x st3]|] eqn:E; [|discriminate].
  rewrite (N _ eq_refl).
  destruct x as [[e v]|[]]; [exact H|].
  unfold search_and_store in *.
  match type of H with
  | (if ?c then _ else _) = _ => destruct c; [exact H|]
  end.
  match type of H with
  | match ?x with _ => _ end = _ => destruct x as [l|] eqn:L; [|discriminate]
  end.
  rewrite (search_moves_extends rec rec' Hext _ _ _ _ _ _ _ _ _ _ _ _ _ _ L). exact H.
Qed.

Lemma alpha_beta_fuel_monotone :
  forall fuel fuel', (fuel <= fuel')%nat -> rec_extends (alpha_beta fuel) (alpha_beta fuel').
Proof.
  induction fuel as [|fuel IH]; intros fuel' Hle b h d a be mx ply cnt an st r H;
    cbn [alpha_beta] in H; [discriminate|].
  destruct fuel' as [|fuel']; [lia|]. cbn [alpha_beta].
  destruct (alpha_beta_node (alpha_beta fuel) b h d a be mx ply cnt an st) as [x|] eqn:E;
    [|discriminate].
  rewrite (alpha_beta_node_extends (alpha_beta fuel) (alpha_beta fuel')
             (IH fuel' ltac:(lia)) _ _ _ _ _ _ _ _ _ _ _ E).
  exact H.
Qed.

(** *** Move ordering keeps the moves *)

Lemma bubble_pass_perm : forall k moves, Permutation (bubble_pass k moves) moves.
Proof.
  induction k as [|k IH]; intros moves; [destruct moves; apply Permutation_refl|].
  destruct moves as [|a [|b rest]]; cbn [bubble_pass]; try apply Permutation_refl.
  destruct (order_score a <? order_score b).
  - eapply Permutation_trans; [apply perm_skip, IH|apply perm_swap].
  - apply perm_skip, IH.
Qed.

Lemma bubble_sort_perm : forall moves, Permutation (bubble_sort moves) moves.
Proof.
  intros moves. unfold bubble_sort. generalize (length moves) as n.
  intros n. generalize (seq 0 (n - 1)) as passes. intros passes. revert moves.
  induction passes as [|i passes IH]; intros moves; cbn [fold_left];
    [apply Permutation_refl|].
  eapply Permutation_trans; [apply IH|apply bubble_pass_perm].
Qed.

Lemma move_of_rescored :
  forall l m s, move_of l m -> move_of l (set_order_score m s).
Proof. intros l m s (m0 & Hin & He). exists m0. split; [exact Hin|exact He]. Qed.

Lemma move_of_in : forall l m, In m l -> move_of l m.
Proof. intros l m H. exists m. auto. Qed.

Lemma order_moves_of :
  forall st l moves tt_move valid ply m,
    (forall x, In x moves -> move_of l x) ->
    In m (order_moves st moves tt_move valid ply) -> move_of l m.
Proof.
  intros st l moves tt_move valid ply m Hall Hin. unfold order_moves in Hin.
  apply (Permutation_in _ (bubble_sort_perm _)) in Hin.
  apply in_map_iff in Hin. destruct Hin as (x & <- & Hx).
  apply move_of_rescored. auto.
Qed.

Lemma order_moves_nonempty :
  forall st moves tt_move valid ply,
    moves <> [] -> order_moves st moves tt_move valid ply <> [].
Proof.
  intros st moves tt_move valid ply Hne He. unfold order_moves in He.
  pose proof (Permutation_length (bubble_sort_perm
    (map (fun m => set_order_score m (move_order_score st m tt_move valid ply)) moves))) as Hl.
  rewrite He, length_map in Hl. destruct moves; [contradiction|discriminate].
Qed.

(** *** The driver *)

Lemma path_fits_root : forall d, d <= PATH_HASHES_SIZE -> path_fits 0 (d - 1).
Proof.
  intros d H. unfold path_fits, PATH_HASHES_SIZE, MAX_PLY_FOR_KILLERS in *. lia.
Qed.

Lemma search_root_moves_result :
  forall board root_hash d moves best bm st,
    d <= PATH_HASHES_SIZE ->
  exists r,
    search_root_moves board root_hash d moves best bm st = Some r
    /\ match r with
       | ROOT_TIMEOUT _ => True
       | ROOT_DONE _ m _ => m = bm \/ In m moves
       end.
Proof.
  intros board root_hash d moves best bm st Hd. revert best bm st.
  induction moves as [|m rest IH]; intros best bm st; cbn [search_root_moves].
  - eexists. split; [reflexivity|]. now left.
  - destruct (simulate_move_and_update_hash st board m (piece_type m) PLAYER1 root_hash)
      as [nb nh].
    rewrite push_path_hash_fits by (vm_compute; split; [discriminate|reflexivity]).
    destruct (alpha_beta_total (S (Z.to_nat (d - 1))) (d - 1) 0 ltac:(lia)
                (path_fits_root d Hd) nb nh INT_MIN INT_MAX
                false 0 true (store_path_hash st 0 nh)) as [[s st1] ->].
    destruct (s =? TIMEOUT_SCORE); [eexists; split; [reflexivity|exact I]|].
    destruct (s >? best).
    + destruct (IH s m st1) as (r & -> & Hr). exists r. split; [reflexivity|].
      destruct r; [exact I|]. destruct Hr as [->|Hr]; right; [now left|now right].
    + destruct (IH best bm st1) as (r & -> & Hr). exists r. split; [reflexivity|].
      destruct r; [exact I|]. destruct Hr as [->|Hr]; [now left|right; now right].
Qed.

Lemma iterative_deepening_result :
  forall l board depths v st,
    Forall (fun d => d <= PATH_HASHES_SIZE) depths ->
    driver_invariant l v ->
    exists v' st',
      iterative_deepening depths board v st = Some (v', st')
      /\ driver_invariant l v'.
Proof.
  intros l board depths.
  induction depths as [|d rest IH]; intros v st Hds Hinv; cbn [iterative_deepening];
    [eauto|].
  apply Forall_cons_iff in Hds. destruct Hds as [Hd Hds].
  destruct (emscripten_get_now st) as [now st1].
  destruct (time_is_up now st1); [eauto|].
  destruct (compute_zobrist_key_full board PLAYER1 st1) as [root_hash st2].
  destruct Hinv as (Hall & Hbest & Hfound & Hne).
  set (moves := if (hash_key (transposition_table st2 (tt_index_of root_hash)) =? root_hash)
                   && best_move_valid (transposition_table st2 (tt_index_of root_hash))
                then order_moves st2 (root_moves v)
                       (Some (best_move (transposition_table st2 (tt_index_of root_hash))))
                       true (-1)
                else order_moves st2 (root_moves v) None false (-1)).
  assert (Hmoves : forall m, In m moves -> move_of l m).
  { intros m Hm. unfold moves in Hm.
    destruct (_ && _); eapply order_moves_of; eauto. }
  assert (Hmne : moves <> []).
  { unfold moves. destruct (_ && _); now apply order_moves_nonempty. }
  assert (Hhd : move_of l (hd (best_move_overall v) (root_moves v))).
  { destruct (root_moves v) as [|x xs]; [contradiction|]. apply Hall. now left. }
  destruct (search_root_moves_result board root_hash d moves INT_MIN
              (hd (best_move_overall v) (root_moves v)) st2 Hd) as (r & -> & Hr).
  destruct r as [st3|s bm st3].
  - eexists _, _. split; [reflexivity|]. repeat split; auto.
  - destruct (emscripten_get_now st3) as [now' st4].
    destruct (time_is_left now' st4).
    + assert (Hinv' : driver_invariant l (mkDriverVars moves bm true s d)).
      { repeat split; auto. cbn [best_move_overall].
        destruct Hr as [->|Hr]; auto. }
      cbn [best_score_overall].
      destruct ((s >? WIN_SCORE - MAX_PLY_FOR_KILLERS * 2)
                || (s <? LOSE_SCORE + MAX_PLY_FOR_KILLERS * 2)); [eauto|].
      apply IH; [exact Hds|exact Hinv'].
    + eexists _, _. split; [reflexivity|]. repeat split; auto.
Qed.

Lemma depths_fit :
  forall max_depth,
    max_depth <= PATH_HASHES_SIZE ->
    Forall (fun d => d <= PATH_HASHES_SIZE) (map (fun i => i + 1) (range max_depth)).
Proof.
  intros max_depth H. apply Forall_forall. intros d Hd.
  apply in_map_iff in Hd. destruct Hd as (i & <- & Hi). apply in_range in Hi. lia.
Qed.

Lemma buf_set_read :
  forall b i v j, buf_set b i v j = if j =? i then v else b j.
Proof. reflexivity. Qed.

Lemma set_order_score_fields :
  forall m m0,
    set_order_score m 0 = set_order_score m0 0 ->
    from_row m = from_row m0 /\ from_col m = from_col m0
    /\ to_row m = to_row m0 /\ to_col m = to_col m0 /\ piece_type m = piece_type m0.
Proof.
  intros m m0 H. unfold set_order_score in H. inversion H. auto.
Qed.

(** C2: [findBestMoveWasm] returns when [max_depth] is at most 35, the
    number of cells of [path_hashes_main], or when Player1 has no root move.
    When the generator gives Player1 no root move it writes found flag 0
    and status 1; when there is at least one root move it writes found
    flag 1 and the squares and piece type of one of the generated root
    moves, whatever the clock does and whatever the time budget is. *)
Theorem find_best_move_reports_root_move :
  forall flat_board_data max_depth time_limit_ms result_buffer uninitialised st,
    max_depth <= PATH_HASHES_SIZE
    \/ generate_all_valid_moves (deserialize_board flat_board_data uninitialised)
         PLAYER1 false = [] ->
  exists buf st',
    findBestMoveWasm flat_board_data max_depth time_limit_ms result_buffer uninitialised st
    = Some (buf, st')
    /\ (generate_all_valid_moves (deserialize_board flat_board_data uninitialised)
          PLAYER1 false = [] ->
        buf 0 = 0 /\ buf 9 = 1)
    /\ (generate_all_valid_moves (deserialize_board flat_board_data uninitialised)
          PLAYER1 false <> [] ->
        buf 0 = 1
        /\ exists m,
             In m (generate_all_valid_moves
                     (deserialize_board flat_board_data uninitialised) PLAYER1 false)
             /\ buf 1 = from_row m /\ buf 2 = from_col m
             /\ buf 3 = to_row m /\ buf 4 = to_col m /\ buf 5 = piece_type m).
Proof.
  intros flat max_depth time_limit buf0 uninit st Hfit. unfold findBestMoveWasm.
  destruct (emscripten_get_now (set_current_time_limit_ms st time_limit)) as [now st1].
  set (board := deserialize_board flat uninit) in *.
  set (st2 := initializeAiEngine _).
  destruct (generate_all_valid_moves board PLAYER1 false) as [|first others] eqn:Hgen.
  - eexists _, _. split; [reflexivity|]. split; [|intros H; contradiction].
    intros _. rewrite !buf_set_read. cbn. auto.
  - destruct Hfit as [Hfit|Hfit]; [|discriminate].
    assert (Hinv : driver_invariant (first :: others)
                     (mkDriverVars (first :: others) first true INT_MIN 0)).
    { repeat split; cbn [root_moves best_move_overall best_move_overall_found].
      - intros m Hm. now apply move_of_in.
      - apply move_of_in. now left.
      - discriminate. }
    destruct (iterative_deepening_result (first :: others) board
                (map (fun i => i + 1) (range max_depth)) _ st2 (depths_fit _ Hfit) Hinv)
      as (v & st3 & -> & Hall & Hbest & Hfound & Hne).
    rewrite Hfound.
    eexists _, _. split; [reflexivity|]. split; [intros H; discriminate|].
    intros _. rewrite !buf_set_read. cbn [Z.eqb Pos.eqb].
    split; [reflexivity|].
    destruct Hbest as (m0 & Hin & He). exists m0. split; [exact Hin|].
    now apply set_order_score_fields.
Qed.

Lemma find_best_move_reports_root_move_witness :
  exists buf st',
    findBestMoveWasm (flat_of_board lion_jump_board) 2 1000 (fun _ => 0) empty_board
      (initial_engine frozen_clock) = Some (buf, st')
    /\ buf 0 = 1.
Proof.
  destruct (find_best_move_reports_root_move (flat_of_board lion_jump_board) 2 1000
              (fun _ => 0) empty_board (initial_engine frozen_clock))
    as (buf & st' & E & _ & H).
  - left. vm_compute. discriminate.
  - exists buf, st'. split; [exact E|].
    apply H. vm_compute. discriminate.
Defined.

(** The Lion of Player1 at (2,1) jumps the river and takes the Dog at (6,1):
    the ten result cells after a search of depth 1. *)
Example lion_jump_search :
  match findBestMoveWasm (flat_of_board lion_jump_board) 1 1000 (fun _ => 0) empty_board
          (initial_engine frozen_clock) with
  | Some (buf, _) => map buf (range 10)
  | None => []
  end = [1; 2; 1; 6; 1; 6; 1; 7; 20000; 0].
Proof. vm_compute. reflexivity. Qed.

(** * Further properties of the engine *)

(** *** Table indices *)

Lemma tt_index_range :
  forall h, - 2 ^ 63 <= h < 2 ^ 63 -> 0 <= tt_index_of h < TRANSPOSITION_TABLE_SIZE.
Proof.
  intros h Hh. unfold tt_index_of, TRANSPOSITION_TABLE_SIZE.
  destruct (Z.geb_spec h 0) as [Hge|Hlt].
  - apply Z.rem_bound_pos; lia.
  - destruct (Z.eq_dec h (- 2 ^ 63)) as [->|Hne].
    + vm_compute. split; [discriminate|reflexivity].
    + unfold int64. rewrite Z.mod_small by lia.
      replace (- h + 2 ^ 63 - 2 ^ 63) with (- h) by lia.
      apply Z.rem_bound_pos; lia.
Qed.

(** X1: for every 64-bit hash, the slot index [alpha_beta] computes lies
    inside the transposition table, the most negative hash included. *)
Theorem tt_index_in_table :
  forall h, - 2 ^ 63 <= h < 2 ^ 63 -> 0 <= tt_index_of h < TRANSPOSITION_TABLE_SIZE.
Proof.
  intros h Hh. unfold tt_index_of, TRANSPOSITION_TABLE_SIZE.
  destruct (Z.geb_spec h 0) as [Hge|Hlt].
  - apply Z.rem_bound_pos; lia.
  - destruct (Z.eq_dec h (- 2 ^ 63)) as [->|Hne].
    + vm_compute. split; [discriminate|reflexivity].
    + unfold int64. rewrite Z.mod_small by lia.
      replace (- h + 2 ^ 63 - 2 ^ 63) with (- h) by lia.
      apply Z.rem_bound_pos; lia.
Qed.

Lemma tt_index_in_table_witness :
  0 <= tt_index_of (- 2 ^ 63) < TRANSPOSITION_TABLE_SIZE.
Proof. apply tt_index_in_table. lia. Defined.

(** X2: for a piece type in 0..7 and a square of the board,
    [get_history_index] lies inside the history table, and two different
    (type, square) triples never share an index. *)
Theorem history_index_in_table :
  forall pt r c pt' r' c',
    0 <= pt < NUM_PIECE_TYPES -> is_valid_move_coords r c = true ->
    0 <= pt' < NUM_PIECE_TYPES -> is_valid_move_coords r' c' = true ->
    0 <= get_history_index pt r c < HISTORY_TABLE_SIZE
    /\ (get_history_index pt r c = get_history_index pt' r' c' ->
        pt = pt' /\ r = r' /\ c = c').
Proof.
  intros pt r c pt' r' c' Hpt Hv Hpt' Hv'.
  unfold is_valid_move_coords in *. zbool.
  unfold get_history_index, HISTORY_TABLE_SIZE, NUM_PIECE_TYPES, BOARD_ROWS, BOARD_COLS in *.
  split; [lia|]. intros He. lia.
Qed.

Lemma history_index_in_table_witness :
  0 <= get_history_index PIECE_TYPE_ELEPHANT 8 6 < HISTORY_TABLE_SIZE.
Proof.
  apply (history_index_in_table PIECE_TYPE_ELEPHANT 8 6 PIECE_TYPE_RAT 0 0);
    first [reflexivity | vm_compute; split; congruence].
Defined.

(** *** Killer moves *)

Lemma same_squares_refl : forall m, same_squares m m = true.
Proof. intros m. unfold same_squares. now rewrite !Z.eqb_refl. Qed.

(** X3: [record_killer_move] at a ply in 0..29 leaves in slot 0 a valid move
    on the squares of the recorded move; when slot 0 held a valid move on
    other squares, that move goes to slot 1; the killers of every other ply
    are untouched; recording the same move again changes nothing; and a ply
    outside 0..29 is ignored. *)
Theorem record_killer_move_behaviour :
  forall ply m st,
    (0 <= ply < MAX_PLY_FOR_KILLERS ->
     killer_moves_valid (record_killer_move ply m st) ply 0 = true
     /\ same_squares (killer_moves (record_killer_move ply m st) ply 0) m = true
     /\ (killer_moves_valid st ply 0 = true ->
         same_squares (killer_moves st ply 0) m = false ->
         killer_moves (record_killer_move ply m st) ply 0 = m
         /\ killer_moves (record_killer_move ply m st) ply 1 = killer_moves st ply 0
         /\ killer_moves_valid (record_killer_move ply m st) ply 1 = true)
     /\ (forall p s, p <> ply ->
           killer_moves (record_killer_move ply m st) p s = killer_moves st p s
           /\ killer_moves_valid (record_killer_move ply m st) p s
              = killer_moves_valid st p s)
     /\ record_killer_move ply m (record_killer_move ply m st)
        = record_killer_move ply m st)
    /\ (ply < 0 \/ MAX_PLY_FOR_KILLERS <= ply -> record_killer_move ply m st = st).
Proof.
  intros ply m st. split.
  - intros Hply.
    assert (Hr : (ply <? 0) || (ply >=? MAX_PLY_FOR_KILLERS) = false).
    { apply orb_false_iff. split; [apply Z.ltb_ge; lia|].
      rewrite Z.geb_leb. apply Z.leb_gt. lia. }
    assert (Hstep : forall st0,
               killer_moves_valid st0 ply 0 = true ->
               same_squares (killer_moves st0 ply 0) m = true ->
               record_killer_move ply m st0 = st0).
    { intros st0 Hv Hs. unfold record_killer_move. rewrite Hr, Hv, Hs. reflexivity. }
    assert (A : killer_moves_valid (record_killer_move ply m st) ply 0 = true
                /\ same_squares (killer_moves (record_killer_move ply m st) ply 0) m = true).
    { unfold record_killer_move. rewrite Hr.
      destruct (killer_moves_valid st ply 0) eqn:Hv; cbn [negb orb];
        [destruct (same_squares (killer_moves st ply 0) m) eqn:Hs; cbn [negb];
         [auto|]|];
        cbn [killer_moves killer_moves_valid set_killers]; rewrite !Z.eqb_refl;
        auto using same_squares_refl. }
    destruct A as [A1 A2].
    split; [exact A1|]. split; [exact A2|]. split; [|split].
    + intros Hv Hs. unfold record_killer_move. rewrite Hr, Hv, Hs. cbn [negb orb].
      cbn [killer_moves killer_moves_valid set_killers]. rewrite !Z.eqb_refl.
      cbn [Z.eqb]. auto.
    + intros p s Hp. unfold record_killer_move. rewrite Hr.
      destruct (negb (killer_moves_valid st ply 0)
                || negb (same_squares (killer_moves st ply 0) m)); [|auto].
      cbn [killer_moves killer_moves_valid set_killers].
      now rewrite (eqb_neq_false _ _ Hp).
    + apply Hstep; assumption.
  - intros Hply. unfold record_killer_move.
    replace ((ply <? 0) || (ply >=? MAX_PLY_FOR_KILLERS)) with true; [reflexivity|].
    symmetry. apply orb_true_iff. rewrite Z.ltb_lt, Z.geb_leb, Z.leb_le. lia.
Qed.

Lemma record_killer_move_behaviour_witness :
  killer_moves_valid
    (record_killer_move 3 (mkMove 2 1 2 2 PIECE_TYPE_LION NO_PIECE 0) ready_engine) 3 0
  = true
  /\ record_killer_move 30 (mkMove 2 1 2 2 PIECE_TYPE_LION NO_PIECE 0) ready_engine
     = ready_engine.
Proof.
  destruct (record_killer_move_behaviour 3 (mkMove 2 1 2 2 PIECE_TYPE_LION NO_PIECE 0)
              ready_engine) as [H _].
  destruct (record_killer_move_behaviour 30 (mkMove 2 1 2 2 PIECE_TYPE_LION NO_PIECE 0)
              ready_engine) as [_ H'].
  split.
  - apply H. vm_compute. split; congruence.
  - apply H'. right. vm_compute. congruence.
Defined.

(** *** Traps and captures *)

Lemma trap_squares_disjoint :
  forall r c, is_player0_trap_square r c = true -> is_player1_trap_square r c = false.
Proof.
  intros r c H. unfold is_player0_trap_square, is_player1_trap_square in *.
  destruct (Z.eqb_spec r 8) as [->|H8]; [reflexivity|].
  destruct (Z.eqb_spec r 7) as [->|H7]; [reflexivity|]. discriminate.
Qed.

Lemma effective_rank_unfold :
  forall board p r c,
    type p <> NO_PIECE ->
    rules_get_effective_rank (Some p) r c board
    = if (terrain (squares board r c) =? TERRAIN_TRAP)
         && (((player p =? PLAYER0) && is_player1_trap_square r c)
             || ((player p =? PLAYER1) && is_player0_trap_square r c))
      then 0 else rank p.
Proof.
  intros board p r c H. unfold rules_get_effective_rank.
  now rewrite (eqb_neq_false _ _ H).
Qed.

(** X4: a piece standing on a trap square of the other player is captured
    by any enemy piece of non-negative rank that does not stand in water,
    whatever the two ranks are (an Elephant still never takes a Rat); a
    piece standing on a trap square of its own side keeps its rank, so a
    weaker enemy on plain land cannot capture it. *)
Theorem trap_neutralises_enemy_pieces_only :
  forall board att def att_r att_c def_r def_c,
    type att <> NO_PIECE -> type def <> NO_PIECE -> player att <> player def ->
    terrain (squares board att_r att_c) <> TERRAIN_WATER ->
    terrain (squares board def_r def_c) = TERRAIN_TRAP ->
    ~ (type att = PIECE_TYPE_ELEPHANT /\ type def = PIECE_TYPE_RAT) ->
    ((player def = PLAYER0 /\ is_player1_trap_square def_r def_c = true)
     \/ (player def = PLAYER1 /\ is_player0_trap_square def_r def_c = true) ->
     0 <= rank att ->
     rules_can_capture (Some att) (Some def) att_r att_c def_r def_c board = true)
    /\
    ((player def = PLAYER0 /\ is_player0_trap_square def_r def_c = true)
     \/ (player def = PLAYER1 /\ is_player1_trap_square def_r def_c = true) ->
     terrain (squares board att_r att_c) <> TERRAIN_TRAP ->
     ~ (type att = PIECE_TYPE_RAT /\ type def = PIECE_TYPE_ELEPHANT) ->
     rank att < rank def ->
     rules_can_capture (Some att) (Some def) att_r att_c def_r def_c board = false).
Proof.
  intros board att def att_r att_c def_r def_c Ha Hd Hp Hw Ht Hne.
  assert (Hpre : forall x,
             ~ (type att = PIECE_TYPE_RAT /\ type def = PIECE_TYPE_ELEPHANT) ->
             (rules_get_effective_rank (Some att) att_r att_c board
              >=? rules_get_effective_rank (Some def) def_r def_c board) = x ->
             rules_can_capture (Some att) (Some def) att_r att_c def_r def_c board = x).
  { intros x Hre Hx. unfold rules_can_capture.
    rewrite (eqb_neq_false _ _ Ha), (eqb_neq_false _ _ Hd), (eqb_neq_false _ _ Hp),
      (eqb_neq_false _ _ Hw). cbn [orb andb].
    destruct (Z.eqb_spec (type att) PIECE_TYPE_RAT) as [E1|E1];
      destruct (Z.eqb_spec (type def) PIECE_TYPE_ELEPHANT) as [E2|E2]; cbn [andb];
      try tauto;
      destruct (Z.eqb_spec (type att) PIECE_TYPE_ELEPHANT) as [E3|E3];
      destruct (Z.eqb_spec (type def) PIECE_TYPE_RAT) as [E4|E4]; cbn [andb];
      try tauto; exact Hx. }
  split.
  - intros Htrap Hrank.
    destruct (Z.eqb_spec (type att) PIECE_TYPE_RAT) as [E1|E1];
      [destruct (Z.eqb_spec (type def) PIECE_TYPE_ELEPHANT) as [E2|E2]|].
    + unfold rules_can_capture.
      rewrite (eqb_neq_false _ _ Ha), (eqb_neq_false _ _ Hd), (eqb_neq_false _ _ Hp),
        (eqb_neq_false _ _ Hw), E1, E2. reflexivity.
    + apply Hpre; [tauto|].
      rewrite !effective_rank_unfold by assumption. rewrite Ht, Z.eqb_refl. cbn [andb].
      destruct Htrap as [[-> ->]|[-> ->]];
        change (PLAYER0 =? PLAYER1) with false; change (PLAYER1 =? PLAYER0) with false;
        rewrite ?Z.eqb_refl; cbn [andb orb];
        rewrite Z.geb_leb; apply Z.leb_le; destruct (_ && _); lia.
    + apply Hpre; [tauto|].
      rewrite !effective_rank_unfold by assumption. rewrite Ht, Z.eqb_refl. cbn [andb].
      destruct Htrap as [[-> ->]|[-> ->]];
        change (PLAYER0 =? PLAYER1) with false; change (PLAYER1 =? PLAYER0) with false;
        rewrite ?Z.eqb_refl; cbn [andb orb];
        rewrite Z.geb_leb; apply Z.leb_le; destruct (_ && _); lia.
  - intros Hown Hat Hre Hrank. apply Hpre; [exact Hre|].
    rewrite !effective_rank_unfold by assumption.
    rewrite (eqb_neq_false _ _ Hat), Ht, Z.eqb_refl. cbn [andb].
    destruct Hown as [[-> H0]|[-> H1]].
    + rewrite (trap_squares_disjoint _ _ H0).
      change (PLAYER0 =? PLAYER1) with false. rewrite ?andb_false_r. cbn [andb orb].
      rewrite Z.geb_leb. apply Z.leb_gt. lia.
    + assert (H0 : is_player0_trap_square def_r def_c = false).
      { destruct (is_player0_trap_square def_r def_c) eqn:E; [|reflexivity].
        apply trap_squares_disjoint in E. congruence. }
      rewrite H0. change (PLAYER1 =? PLAYER0) with false.
      rewrite ?andb_false_r. cbn [andb orb]. rewrite Z.geb_leb. apply Z.leb_gt. lia.
Qed.

Lemma trap_neutralises_enemy_pieces_only_witness :
  rules_can_capture (Some (piece (squares trapped_elephant_board 0 1)))
    (Some (piece (squares trapped_elephant_board 0 2))) 0 1 0 2 trapped_elephant_board
  = true.
Proof.
  refine (proj1 (trap_neutralises_enemy_pieces_only trapped_elephant_board
                   (piece (squares trapped_elephant_board 0 1))
                   (piece (squares trapped_elephant_board 0 2)) 0 1 0 2 _ _ _ _ _ _) _ _).
  - vm_compute; discriminate.
  - vm_compute; discriminate.
  - vm_compute; discriminate.
  - vm_compute; discriminate.
  - reflexivity.
  - intros [H _]; vm_compute in H; discriminate.
  - left; split; reflexivity.
  - vm_compute; discriminate.
Defined.

(** *** Initialisation and the transposition table *)

Lemma initializeAiEngine_keys :
  forall st,
    zobrist_table (initializeAiEngine st) = zobrist_table (initialize_zobrist st)
    /\ zobrist_player1_to_move (initializeAiEngine st)
       = zobrist_player1_to_move (initialize_zobrist st)
    /\ zobrist_initialized (initializeAiEngine st) = true.
Proof.
  intros st. split; [reflexivity|split; [reflexivity|]].
  change (zobrist_initialized (initializeAiEngine st))
    with (zobrist_initialized (initialize_zobrist st)).
  apply initialize_zobrist_initialized.
Qed.

(** X5: after [initializeAiEngine] the Zobrist keys are set, a table probe
    for any 64-bit hash at any depth >= 0 misses and leaves the window as it
    was, the killer slots of the 30 plies are invalid and the history table
    is zero. *)
Theorem initialize_engine_clears_tables :
  forall st,
    zobrist_initialized (initializeAiEngine st) = true
    /\ (forall h depth_ alpha beta ply,
          - 2 ^ 63 <= h < 2 ^ 63 -> 0 <= depth_ ->
          tt_probe (initializeAiEngine st) h depth_ alpha beta ply = inr (alpha, beta))
    /\ (forall p s, 0 <= p < MAX_PLY_FOR_KILLERS -> s = 0 \/ s = 1 ->
          killer_moves_valid (initializeAiEngine st) p s = false)
    /\ (forall i, 0 <= i < HISTORY_TABLE_SIZE ->
          history_heuristic (initializeAiEngine st) i = 0).
Proof.
  intros st. split; [apply initializeAiEngine_keys|]. split; [|split].
  - intros h depth_ alpha beta ply Hh Hd.
    pose proof (tt_index_range h Hh) as Hi.
    unfold tt_probe.
    change (transposition_table (initializeAiEngine st) (tt_index_of h))
      with (let e := transposition_table (initialize_zobrist st) (tt_index_of h) in
            if (0 <=? tt_index_of h) && (tt_index_of h <? TRANSPOSITION_TABLE_SIZE)
            then mkTTEntry 0 (score e) (-1) (flag e) (best_move e) false
            else e).
    cbv zeta.
    replace (0 <=? tt_index_of h) with true by (symmetry; apply Z.leb_le; lia).
    replace (tt_index_of h <? TRANSPOSITION_TABLE_SIZE) with true
      by (symmetry; apply Z.ltb_lt; lia).
    cbn [andb depth hash_key].
    replace (-1 >=? depth_) with false by (symmetry; rewrite Z.geb_leb; apply Z.leb_gt; lia).
    now rewrite andb_false_r.
  - intros p s Hp Hs.
    change (killer_moves_valid (initializeAiEngine st) p s)
      with (if (0 <=? p) && (p <? MAX_PLY_FOR_KILLERS) && ((s =? 0) || (s =? 1))
            then false
            else killer_moves_valid (initialize_zobrist st) p s).
    replace (0 <=? p) with true by (symmetry; apply Z.leb_le; lia).
    replace (p <? MAX_PLY_FOR_KILLERS) with true by (symmetry; apply Z.ltb_lt; lia).
    destruct Hs as [-> | ->]; reflexivity.
  - intros i Hi.
    change (history_heuristic (initializeAiEngine st) i)
      with (if (0 <=? i) && (i <? HISTORY_TABLE_SIZE) then 0
            else history_heuristic (initialize_zobrist st) i).
    replace (0 <=? i) with true by (symmetry; apply Z.leb_le; lia).
    replace (i <? HISTORY_TABLE_SIZE) with true by (symmetry; apply Z.ltb_lt; lia).
    reflexivity.
Qed.

Lemma initialize_engine_clears_tables_witness :
  tt_probe (initializeAiEngine primed_engine) rats_hash 0 (-5) 5 1 = inr (-5, 5)
  /\ killer_moves_valid (initializeAiEngine primed_engine) 29 1 = false
  /\ history_heuristic (initializeAiEngine primed_engine) 503 = 0.
Proof.
  destruct (initialize_engine_clears_tables primed_engine) as (_ & Hp & Hk & Hh).
  split; [|split].
  - apply Hp; [vm_compute; split; [discriminate|reflexivity] | lia].
  - apply Hk; [vm_compute; split; [discriminate|reflexivity] | right; reflexivity].
  - apply Hh. vm_compute; split; [discriminate|reflexivity].
Defined.

(** X6: the keys [compute_zobrist_key_full] sets up lazily are the keys
    [initializeAiEngine] sets up: the full key of a position is the same
    whether or not the engine was initialised first, and initialising a
    second time changes no key. *)
Theorem lazy_and_eager_keys_agree :
  forall st board pl,
    fst (compute_zobrist_key_full board pl (initializeAiEngine st))
    = fst (compute_zobrist_key_full board pl st)
    /\ zobrist_table (initializeAiEngine (initializeAiEngine st))
       = zobrist_table (initializeAiEngine st)
    /\ zobrist_player1_to_move (initializeAiEngine (initializeAiEngine st))
       = zobrist_player1_to_move (initializeAiEngine st).
Proof.
  intros st board pl.
  destruct (initializeAiEngine_keys st) as (Ht & Hp & Hi).
  assert (Hfix : forall st0, zobrist_initialized st0 = true -> initialize_zobrist st0 = st0).
  { intros st0 H0. unfold initialize_zobrist. now rewrite H0. }
  split; [|split].
  - unfold compute_zobrist_key_full. rewrite Hi. cbn [negb fst].
    unfold zobrist_square. rewrite Ht, Hp.
    destruct (zobrist_initialized st) eqn:E; cbn [negb].
    + now rewrite (Hfix st E).
    + reflexivity.
  - destruct (initializeAiEngine_keys (initializeAiEngine st)) as (Ht' & _ & _).
    now rewrite Ht', (Hfix _ Hi).
  - destruct (initializeAiEngine_keys (initializeAiEngine st)) as (_ & Hp' & _).
    now rewrite Hp', (Hfix _ Hi).
Qed.

Lemma tt_store_entry :
  forall st h s d oa b bm,
    s <> TIMEOUT_SCORE ->
    transposition_table (tt_store st h s d oa b bm) (tt_index_of h)
    = mkTTEntry h s d (tt_flag_of s oa b)
        (match bm with
         | Some m => m
         | None => best_move (transposition_table st (tt_index_of h))
         end)
        (is_some bm).
Proof.
  intros st h s d oa b bm Hs. unfold tt_store.
  rewrite (eqb_neq_false _ _ Hs). cbn [negb].
  unfold set_transposition_table. cbn [transposition_table].
  now rewrite Z.eqb_refl.
Qed.

(** X7: a position stored by [tt_store] is found again by [tt_probe] with
    the same hash at any depth up to the stored one and any ply > 0: an
    exact entry gives back the stored score, a lower bound raises alpha to
    the larger of alpha and the score, an upper bound lowers beta to the
    smaller of beta and the score, and the score is returned as soon as the
    window closes. *)
Theorem tt_store_then_probe :
  forall st h s d oa b bm depth_ alpha beta ply,
    s <> TIMEOUT_SCORE -> depth_ <= d -> 0 < ply ->
    tt_probe (tt_store st h s d oa b bm) h depth_ alpha beta ply
    = match tt_flag_of s oa b with
      | HASH_EXACT => inl s
      | HASH_LOWERBOUND =>
        if Z.max alpha s >=? beta then inl s else inr (Z.max alpha s, beta)
      | HASH_UPPERBOUND =>
        if alpha >=? Z.min beta s then inl s else inr (alpha, Z.min beta s)
      end.
Proof.
  intros st h s d oa b bm depth_ alpha beta ply Hs Hd Hply.
  unfold tt_probe. rewrite (tt_store_entry st h s d oa b bm Hs).
  cbn [hash_key depth flag score]. rewrite Z.eqb_refl.
  replace (d >=? depth_) with true by (symmetry; rewrite Z.geb_leb; apply Z.leb_le; lia).
  replace (ply >? 0) with true by (symmetry; rewrite Z.gtb_ltb; apply Z.ltb_lt; lia).
  cbn [andb].
  destruct (tt_flag_of s oa b); [reflexivity| |].
  - replace (if alpha >? s then alpha else s) with (Z.max alpha s); [reflexivity|].
    rewrite Z.gtb_ltb. destruct (Z.ltb_spec s alpha); lia.
  - replace (if beta <? s then beta else s) with (Z.min beta s); [reflexivity|].
    destruct (Z.ltb_spec beta s); lia.
Qed.

Lemma tt_store_then_probe_witness :
  tt_probe (tt_store ready_engine 77 40 3 10 50 None) 77 2 0 100 1 = inl 40.
Proof.
  apply (tt_store_then_probe ready_engine 77 40 3 10 50 None 2 0 100 1).
  - vm_compute; discriminate.
  - lia.
  - lia.
Defined.

(** X8: the table is always-replace and one entry wide.  After a store,
    a different hash that falls into the same slot misses on probe, whatever
    was stored for it before; slots other than the written one are not
    touched; and a node whose score is the timeout value 888888 leaves the
    engine state as it was. *)
Theorem tt_store_evicts_and_frames :
  forall st h s d oa b bm,
    (s <> TIMEOUT_SCORE ->
     forall h' depth_ alpha beta ply,
       h' <> h -> tt_index_of h' = tt_index_of h ->
       tt_probe (tt_store st h s d oa b bm) h' depth_ alpha beta ply = inr (alpha, beta))
    /\ (forall i, i <> tt_index_of h ->
          transposition_table (tt_store st h s d oa b bm) i = transposition_table st i)
    /\ (forall h' depth_ alpha beta ply,
          tt_index_of h' <> tt_index_of h ->
          tt_probe (tt_store st h s d oa b bm) h' depth_ alpha beta ply
          = tt_probe st h' depth_ alpha beta ply)
    /\ (s = TIMEOUT_SCORE -> tt_store st h s d oa b bm = st).
Proof.
  intros st h s d oa b bm.
  assert (Hframe : forall i, i <> tt_index_of h ->
            transposition_table (tt_store st h s d oa b bm) i = transposition_table st i).
  { intros i Hi. unfold tt_store. destruct (negb (s =? TIMEOUT_SCORE)); [|reflexivity].
    unfold set_transposition_table. cbn [transposition_table].
    now rewrite (eqb_neq_false _ _ Hi). }
  split; [|split; [exact Hframe|split]].
  - intros Hs h' depth_ alpha beta ply Hne Hidx.
    unfold tt_probe. rewrite Hidx, (tt_store_entry st h s d oa b bm Hs).
    cbn [hash_key]. rewrite (eqb_neq_false h h') by congruence. reflexivity.
  - intros h' depth_ alpha beta ply Hidx. unfold tt_probe. now rewrite (Hframe _ Hidx).
  - intros ->. reflexivity.
Qed.

Lemma tt_store_evicts_and_frames_witness :
  tt_probe (tt_store ready_engine 77 40 3 10 50 None) (77 + 2 ^ 20) 0 0 100 1
  = inr (0, 100)
  /\ transposition_table (tt_store ready_engine 77 40 3 10 50 None) 78
     = transposition_table ready_engine 78
  /\ tt_store ready_engine 77 TIMEOUT_SCORE 3 10 50 None = ready_engine.
Proof.
  destruct (tt_store_evicts_and_frames ready_engine 77 40 3 10 50 None) as (He & Hf & _ & _).
  destruct (tt_store_evicts_and_frames ready_engine 77 TIMEOUT_SCORE 3 10 50 None)
    as (_ & _ & _ & Ht).
  split; [|split].
  - apply He; [vm_compute; discriminate | vm_compute; discriminate | reflexivity].
  - apply Hf. vm_compute; discriminate.
  - apply Ht. reflexivity.
Defined.

(** X9: a table probe never widens the search window and never answers at
    the root.  When it hands back a window, alpha has not decreased and beta
    has not increased, and a window it changed is still open; when it
    answers with a score, the slot holds the probed hash at sufficient
    depth and the score is the stored one; with ply <= 0 it always hands
    back the window it was given. *)
Theorem tt_probe_narrows_window :
  forall st h depth_ alpha beta ply,
    (forall a' b', tt_probe st h depth_ alpha beta ply = inr (a', b') ->
       alpha <= a' /\ b' <= beta /\ ((a' = alpha /\ b' = beta) \/ a' < b'))
    /\ (forall v, tt_probe st h depth_ alpha beta ply = inl v ->
          hash_key (transposition_table st (tt_index_of h)) = h
          /\ depth_ <= depth (transposition_table st (tt_index_of h))
          /\ v = score (transposition_table st (tt_index_of h))
          /\ 0 < ply)
    /\ (ply <= 0 -> tt_probe st h depth_ alpha beta ply = inr (alpha, beta)).
Proof.
  intros st h depth_ alpha beta ply. unfold tt_probe.
  set (e := transposition_table st (tt_index_of h)).
  destruct (Z.eqb_spec (hash_key e) h) as [Hk|Hk]; cbn [andb].
  2:{ split; [|split]; [intros a' b' H; inversion H; lia | discriminate | reflexivity]. }
  rewrite Z.geb_leb. destruct (Z.leb_spec depth_ (depth e)) as [Hd|Hd]; cbn [andb].
  2:{ split; [|split]; [intros a' b' H; inversion H; lia | discriminate | reflexivity]. }
  rewrite Z.gtb_ltb. destruct (Z.ltb_spec 0 ply) as [Hp|Hp].
  2:{ split; [|split]; [intros a' b' H; inversion H; lia | discriminate | reflexivity]. }
  split; [|split; [|lia]].
  - intros a' b'. destruct (flag e).
    + discriminate.
    + rewrite Z.gtb_ltb, Z.geb_leb.
      destruct (Z.ltb_spec (score e) alpha);
        match goal with |- context [?x <=? ?y] => destruct (Z.leb_spec x y) end;
        intros Heq; inversion Heq; lia.
    + rewrite Z.geb_leb.
      destruct (Z.ltb_spec beta (score e));
        match goal with |- context [?x <=? ?y] => destruct (Z.leb_spec x y) end;
        intros Heq; inversion Heq; lia.
  - intros v. destruct (flag e).
    + intros H; inversion H; auto.
    + destruct (_ >=? _); intros H; inversion H; auto.
    + destruct (_ >=? _); intros H; inversion H; auto.
Qed.

Lemma tt_probe_narrows_window_witness :
  tt_probe ready_engine 77 2 0 100 0 = inr (0, 100).
Proof.
  apply (proj2 (proj2 (tt_probe_narrows_window ready_engine 77 2 0 100 0))). lia.
Defined.

(** *** The move generator *)

Lemma orthogonal_step_length :
  forall board r c pce co i, (length (orthogonal_step board r c pce co i) <= 1)%nat.
Proof.
  intros. unfold orthogonal_step.
  repeat match goal with
         | |- context [if ?b then _ else _] => destruct b
         | |- context [match ?o with Some _ => _ | None => _ end] => destruct o
         end; cbn [length]; lia.
Qed.

Lemma jump_step_length :
  forall board r c pce co j, (length (jump_step board r c pce co j) <= 1)%nat.
Proof.
  intros. unfold jump_step.
  repeat match goal with
         | |- context [if ?b then _ else _] => destruct b
         | |- context [match ?o with Some _ => _ | None => _ end] => destruct o
         end; cbn [length]; lia.
Qed.

Lemma flat_map_length_bound :
  forall (A B : Type) (f : A -> list B) (l : list A),
    (forall x, (length (f x) <= 1)%nat) ->
    (length (flat_map f l) <= length l)%nat.
Proof.
  intros A B f l Hf. induction l as [|x l IH]; cbn [flat_map length]; [lia|].
  rewrite length_app. specialize (Hf x). lia.
Qed.

Lemma jump_paths_length : forall pt r c, (length (jump_paths pt r c) <= 3)%nat.
Proof.
  intros. unfold jump_paths.
  repeat match goal with
         | |- context [if ?b then _ else _] => destruct b
         end; cbn [length app]; lia.
Qed.

Lemma valid_moves_length :
  forall board r c co,
    (length (rules_get_valid_moves_for_piece board r c co) <= 7)%nat.
Proof.
  intros. unfold rules_get_valid_moves_for_piece.
  destruct (type (piece (squares board r c)) =? NO_PIECE); [cbn; lia|].
  rewrite length_app.
  pose proof (flat_map_length_bound _ _
                (orthogonal_step board r c (piece (squares board r c)) co) (seq 0 4)
                (orthogonal_step_length board r c (piece (squares board r c)) co)) as H1.
  rewrite length_seq in H1.
  destruct (_ || _); [|cbn [length]; lia].
  pose proof (flat_map_length_bound _ _
                (jump_step board r c (piece (squares board r c)) co)
                (jump_paths (type (piece (squares board r c))) r c)
                (jump_step_length board r c (piece (squares board r c)) co)) as H2.
  pose proof (jump_paths_length (type (piece (squares board r c))) r c). lia.
Qed.

Lemma append_capped_fits :
  forall ms acc,
    (length acc + length ms <= 504)%nat -> append_capped acc ms = acc ++ ms.
Proof.
  unfold append_capped.
  induction ms as [|x ms IH]; intros acc H; cbn [fold_left length] in *.
  - now rewrite app_nil_r.
  - replace (Z.of_nat (length acc) <? BOARD_ROWS * BOARD_COLS * 8) with true
      by (symmetry; apply Z.ltb_lt; unfold BOARD_ROWS, BOARD_COLS; lia).
    rewrite IH; [now rewrite <- app_assoc|]. rewrite length_app. cbn [length]. lia.
Qed.

Lemma piece_moves_of_length :
  forall board pl co rc, (length (piece_moves_of board pl co rc) <= 7)%nat.
Proof.
  intros. unfold piece_moves_of. destruct (_ && _); [apply valid_moves_length|cbn; lia].
Qed.

Lemma generate_all_flat :
  forall board pl co,
    generate_all_valid_moves board pl co
    = flat_map (piece_moves_of board pl co) all_squares.
Proof.
  intros board pl co. unfold generate_all_valid_moves.
  rewrite (row_col_loops _
    (fun r c acc =>
       if negb (type (piece (squares board r c)) =? NO_PIECE)
          && (player (piece (squares board r c)) =? pl)
       then append_capped acc (rules_get_valid_moves_for_piece board r c co)
       else acc)).
  assert (G : forall l acc,
             (length acc + 7 * length l <= 504)%nat ->
             fold_left
               (fun acc rc =>
                  if negb (type (piece (squares board (fst rc) (snd rc))) =? NO_PIECE)
                     && (player (piece (squares board (fst rc) (snd rc))) =? pl)
                  then append_capped acc
                         (rules_get_valid_moves_for_piece board (fst rc) (snd rc) co)
                  else acc) l acc
             = acc ++ flat_map (piece_moves_of board pl co) l).
  { induction l as [|rc l IH]; intros acc H; cbn [fold_left flat_map length] in *.
    - now rewrite app_nil_r.
    - pose proof (piece_moves_of_length board pl co rc) as Hlen.
      unfold piece_moves_of in *.
      destruct (negb (type (piece (squares board (fst rc) (snd rc))) =? NO_PIECE)
                && (player (piece (squares board (fst rc) (snd rc))) =? pl)).
      + rewrite append_capped_fits by lia.
        rewrite IH; [now rewrite <- app_assoc|]. rewrite length_app. lia.
      + rewrite IH by lia. reflexivity. }
  specialize (G all_squares []). cbv beta in G. apply G.
  replace (length all_squares) with 63%nat by (vm_compute; reflexivity).
  cbn [length]. lia.
Qed.

(** X10: the capacity guard of [generate_all_valid_moves] never drops a
    move.  The list it builds is the concatenation, square by square in
    row-major order, of the moves of the pieces of the player; no piece
    has more than 7 moves, well inside the buffer of 20, and the list has
    at most 441 entries, below the 504 at which the guard would drop moves. *)
Theorem generator_never_truncates :
  forall board pl co,
    generate_all_valid_moves board pl co
    = flat_map (piece_moves_of board pl co) all_squares
    /\ (forall r c, (length (rules_get_valid_moves_for_piece board r c co) <= 7)%nat)
    /\ (length (generate_all_valid_moves board pl co) <= 441)%nat.
Proof.
  intros board pl co. split; [apply generate_all_flat|].
  split; [intros; apply valid_moves_length|].
  rewrite generate_all_flat.
  assert (G : forall l, (length (flat_map (piece_moves_of board pl co) l)
                         <= 7 * length l)%nat).
  { induction l as [|rc l IH]; cbn [flat_map length]; [lia|].
    rewrite length_app. pose proof (piece_moves_of_length board pl co rc). lia. }
  specialize (G all_squares).
  replace (length all_squares) with 63%nat in G by (vm_compute; reflexivity). lia.
Qed.

Lemma filter_flat_map :
  forall (A B : Type) (p : B -> bool) (f : A -> list B) (l : list A),
    filter p (flat_map f l) = flat_map (fun x => filter p (f x)) l.
Proof.
  intros A B p f l. induction l as [|x l IH]; cbn [flat_map filter]; [reflexivity|].
  now rewrite filter_app, IH.
Qed.

Lemma orthogonal_step_captures :
  forall board r c pce i,
    orthogonal_step board r c pce true i
    = filter is_capture (orthogonal_step board r c pce false i).
Proof.
  intros. unfold orthogonal_step.
  destruct (negb (is_valid_move_coords _ _)); [reflexivity|].
  rewrite captured_type_occupied. unfold piece_ptr, occupied.
  destruct (negb (type (piece (squares board (r + nth i dr 0) (c + nth i dc_coords 0)))
                  =? NO_PIECE)) eqn:Ho; cbn [is_some negb andb].
  - repeat match goal with
           | |- context [if ?b then _ else _] => destruct b
           end; try reflexivity.
    all: cbn [filter is_capture captured_piece_type]; unfold is_capture;
      cbn [captured_piece_type]; now rewrite Ho.
  - repeat match goal with
           | |- context [if ?b then _ else _] => destruct b
           end; try reflexivity.
    all: unfold is_capture; cbn [filter captured_piece_type]; reflexivity.
Qed.

Lemma jump_step_captures :
  forall board r c pce j,
    jump_step board r c pce true j = filter is_capture (jump_step board r c pce false j).
Proof.
  intros. unfold jump_step.
  destruct (path_blocked board (river_cells j)); [reflexivity|].
  rewrite captured_type_occupied. unfold piece_ptr, occupied.
  destruct (negb (type (piece (squares board (jump_target_r j) (jump_target_c j)))
                  =? NO_PIECE)) eqn:Ho; cbn [is_some negb andb].
  - repeat match goal with
           | |- context [if ?b then _ else _] => destruct b
           end; try reflexivity.
    all: unfold is_capture; cbn [filter captured_piece_type]; now rewrite Ho.
  - repeat match goal with
           | |- context [if ?b then _ else _] => destruct b
           end; try reflexivity.
    all: unfold is_capture; cbn [filter captured_piece_type]; reflexivity.
Qed.

(** X11: the captures-only mode of the generator, which the quiescence
    search uses, yields exactly the captures of the all-moves mode, in the
    same order. *)
Theorem captures_only_is_filter :
  forall board pl,
    generate_all_valid_moves board pl true
    = filter is_capture (generate_all_valid_moves board pl false).
Proof.
  intros board pl. rewrite !generate_all_flat, filter_flat_map.
  apply flat_map_ext. intros rc. unfold piece_moves_of.
  destruct (_ && _); [|reflexivity].
  unfold rules_get_valid_moves_for_piece.
  destruct (type (piece (squares board (fst rc) (snd rc))) =? NO_PIECE); [reflexivity|].
  rewrite filter_app, !filter_flat_map. f_equal.
  - apply flat_map_ext. intros i. apply orthogonal_step_captures.
  - destruct (_ || _); [|reflexivity].
    rewrite filter_flat_map. apply flat_map_ext. intros j. apply jump_step_captures.
Qed.

(** What one iteration of the orthogonal loop emits, and when. *)
Lemma orthogonal_step_spec :
  forall board r c pce co i m,
    In m (orthogonal_step board r c pce co i) <->
    (m = mkMove r c (r + nth i dr 0) (c + nth i dc_coords 0) (type pce)
           (captured_type_of
              (piece_ptr board (r + nth i dr 0) (c + nth i dc_coords 0))) 0
     /\ is_valid_move_coords (r + nth i dr 0) (c + nth i dc_coords 0) = true
     /\ step_allowed board pce r c (r + nth i dr 0) (c + nth i dc_coords 0) co).
Proof.
  intros board r c pce co i m. unfold orthogonal_step, step_allowed, piece_ptr, occupied.
  set (nr := r + nth i dr 0). set (nc := c + nth i dc_coords 0).
  destruct (is_valid_move_coords nr nc); cbn [negb];
    [|split; [intros [] | intros (_ & H & _); discriminate]].
  destruct (negb (type (piece (squares board nr nc)) =? NO_PIECE)) eqn:Hocc;
    cbn [is_some negb andb captured_type_of].
  - rewrite andb_false_r.
    destruct (Z.eqb_spec (terrain (squares board nr nc)) (own_den_terrain_of (player pce)))
      as [Hden|Hden];
      [split; [intros [] | intros (_ & _ & H & _); contradiction]|].
    destruct (Z.eqb_spec (terrain (squares board nr nc)) TERRAIN_WATER) as [Hwat|Hwat];
      destruct (Z.eqb_spec (type pce) PIECE_TYPE_RAT) as [Hrat|Hrat]; cbn [negb andb];
      try (split; [intros [] | intros (_ & _ & _ & H & _); tauto]).
    all: destruct (Z.eqb_spec (player (piece (squares board nr nc))) (player pce))
        as [Hpl|Hpl];
      [split; [intros [] | intros (_ & _ & _ & _ & [[H _]|(_ & H & _)])];
       [discriminate | contradiction]|].
    all: destruct (rules_can_capture (Some pce) (Some (piece (squares board nr nc)))
                     r c nr nc board) eqn:Hcap; cbn [negb];
      [split; [intros [<-|[]]; repeat split; auto; tauto | intros (-> & _); now left]
      |split; [intros [] | intros (_ & _ & _ & _ & [[H _]|(_ & _ & H)])]; discriminate].
  - destruct co; cbn [andb];
      [split; [intros [] | intros (_ & _ & _ & _ & [[_ H]|(H & _)])]; discriminate|].
    destruct (Z.eqb_spec (terrain (squares board nr nc)) (own_den_terrain_of (player pce)))
      as [Hden|Hden];
      [split; [intros [] | intros (_ & _ & H & _); contradiction]|].
    destruct (Z.eqb_spec (terrain (squares board nr nc)) TERRAIN_WATER) as [Hwat|Hwat];
      destruct (Z.eqb_spec (type pce) PIECE_TYPE_RAT) as [Hrat|Hrat]; cbn [negb andb];
      try (split; [intros [] | intros (_ & _ & _ & H & _); tauto]).
    all: split; [intros [<-|[]]; repeat split; auto; tauto | intros (-> & _); now left].
Qed.

(** Where the jump templates lead. *)
Lemma jump_paths_shape :
  forall pt r c j,
    In j (jump_paths pt r c) ->
    (jump_target_c j = c /\ (c = 1 \/ c = 2 \/ c = 4 \/ c = 5)
     /\ ((r = 2 /\ jump_target_r j = 6) \/ (r = 6 /\ jump_target_r j = 2)))
    \/
    (pt = PIECE_TYPE_LION /\ jump_target_r j = r /\ 3 <= r <= 5
     /\ ((c = 0 /\ jump_target_c j = 3) \/ (c = 3 /\ jump_target_c j = 0)
         \/ (c = 3 /\ jump_target_c j = 6) \/ (c = 6 /\ jump_target_c j = 3))).
Proof.
  intros pt r c j Hj. unfold jump_paths in Hj.
  apply in_app_or in Hj. destruct Hj as [Hj|Hj].
  - left. destruct (rules_is_river 3 c) eqn:Hriv; cbn [andb] in Hj; [|destruct Hj].
    destruct (negb (pt =? PIECE_TYPE_RAT)); [|destruct Hj].
    pose proof (river_col_cases _ Hriv) as Hc.
    destruct (Z.eqb_spec r 2) as [->|Hr2];
      [|destruct (Z.eqb_spec r 6) as [->|Hr6]; [|destruct Hj]];
      destruct Hj as [<-|[]]; cbn [jump_target_r jump_target_c]; tauto.
  - right. destruct (Z.eqb_spec pt PIECE_TYPE_LION) as [Hl|Hl]; [|destruct Hj].
    apply in_app_or in Hj. destruct Hj as [Hj|Hj].
    + destruct (rules_is_river r 1) eqn:R1; cbn [andb] in Hj; [|destruct Hj].
      destruct (rules_is_river r 2) eqn:R2; cbn [andb] in Hj; [|destruct Hj].
      destruct (negb (pt =? PIECE_TYPE_RAT)); [|destruct Hj].
      pose proof (river_row_bounds _ _ R1) as Hr.
      destruct (Z.eqb_spec c 0) as [->|Hc0];
        [|destruct (Z.eqb_spec c 3) as [->|Hc3]; [|destruct Hj]];
        destruct Hj as [<-|[]]; cbn [jump_target_r jump_target_c]; tauto.
    + destruct (rules_is_river r 4) eqn:R4; cbn [andb] in Hj; [|destruct Hj].
      destruct (rules_is_river r 5) eqn:R5; cbn [andb] in Hj; [|destruct Hj].
      destruct (negb (pt =? PIECE_TYPE_RAT)); [|destruct Hj].
      pose proof (river_row_bounds _ _ R4) as Hr.
      destruct (Z.eqb_spec c 3) as [->|Hc3];
        [|destruct (Z.eqb_spec c 6) as [->|Hc6]; [|destruct Hj]];
        destruct Hj as [<-|[]]; cbn [jump_target_r jump_target_c]; tauto.
Qed.

Lemma valid_moves_parts :
  forall board r c co m,
    In m (rules_get_valid_moves_for_piece board r c co) ->
    occupied board r c = true
    /\ ((exists i, (i < 4)%nat
                   /\ In m (orthogonal_step board r c (piece (squares board r c)) co i))
        \/ (exists j, In j (jump_paths (type (piece (squares board r c))) r c)
                      /\ In m (jump_step board r c (piece (squares board r c)) co j))).
Proof.
  intros board r c co m Hin. unfold rules_get_valid_moves_for_piece in Hin.
  unfold occupied.
  destruct (type (piece (squares board r c)) =? NO_PIECE); [destruct Hin|].
  split; [reflexivity|].
  apply in_app_or in Hin. destruct Hin as [Hin|Hin].
  - left. apply in_flat_map in Hin. destruct Hin as (i & Hi & Hm).
    apply in_seq in Hi. exists i. split; [lia|exact Hm].
  - right. destruct (_ || _); [|destruct Hin].
    apply in_flat_map in Hin. exact Hin.
Qed.

(** X12: the orthogonal part of [rules_get_valid_moves_for_piece].  For a
    piece on [(r, c)] and a neighbouring square [(nr, nc)], the generator
    offers the move to that square exactly when the square is on the board
    and passes the step rules (not the own den, water for the Rat only,
    empty in the all-moves mode or holding an enemy piece that can be
    captured); and every move it offers that is not a jump is such a step. *)
Theorem orthogonal_move_generation :
  forall board r c co,
    occupied board r c = true ->
    (forall nr nc, Z.abs (nr - r) + Z.abs (nc - c) = 1 ->
       (In (move_to board r c nr nc) (rules_get_valid_moves_for_piece board r c co)
        <->
        (is_valid_move_coords nr nc = true
         /\ step_allowed board (piece (squares board r c)) r c nr nc co)))
    /\ (forall m, In m (rules_get_valid_moves_for_piece board r c co) -> ~ is_jump m ->
          m = move_to board r c (to_row m) (to_col m)
          /\ Z.abs (to_row m - r) + Z.abs (to_col m - c) = 1).
Proof.
  intros board r c co Hocc.
  assert (Hsteps : forall i, (i < 4)%nat ->
            Z.abs (r + nth i dr 0 - r) + Z.abs (c + nth i dc_coords 0 - c) = 1).
  { intros i Hi. do 4 (destruct i as [|i]; [cbn; lia|]). lia. }
  split.
  - intros nr nc Hd. split.
    + intros Hin. apply valid_moves_parts in Hin. destruct Hin as (_ & [Hin|Hin]).
      * destruct Hin as (i & Hi & Hm). apply orthogonal_step_spec in Hm.
        destruct Hm as (Heq & Hv & Hs). unfold move_to in Heq.
        injection Heq as Hr Hc _. rewrite Hr, Hc. auto.
      * destruct Hin as (j & Hj & Hm). apply jump_step_spec in Hm.
        destruct Hm as (Heq & _). unfold move_to in Heq. injection Heq as Hr Hc _.
        apply jump_paths_shape in Hj. lia.
    + intros (Hv & Hs).
      assert (Hi : exists i, (i < 4)%nat /\ nr = r + nth i dr 0
                             /\ nc = c + nth i dc_coords 0).
      { destruct (Z.eq_dec nr (r - 1)); [exists 0%nat; cbn; lia|].
        destruct (Z.eq_dec nr (r + 1)); [exists 1%nat; cbn; lia|].
        destruct (Z.eq_dec nc (c - 1)); [exists 2%nat; cbn; lia|].
        exists 3%nat; cbn; lia. }
      destruct Hi as (i & Hi & -> & ->).
      unfold rules_get_valid_moves_for_piece. unfold occupied in Hocc.
      destruct (type (piece (squares board r c)) =? NO_PIECE); [discriminate|].
      apply in_or_app. left. apply in_flat_map. exists i.
      split; [apply in_seq; lia|]. apply orthogonal_step_spec. unfold move_to. auto.
  - intros m Hin Hnj. apply valid_moves_parts in Hin. destruct Hin as (_ & [Hin|Hin]).
    + destruct Hin as (i & Hi & Hm). apply orthogonal_step_spec in Hm.
      destruct Hm as (-> & _). cbn [to_row to_col]. split; [reflexivity|auto].
    + destruct Hin as (j & Hj & Hm). apply jump_step_spec in Hm. destruct Hm as (-> & _).
      exfalso. apply Hnj. unfold is_jump. cbn [to_row to_col from_row from_col].
      apply jump_paths_shape in Hj. lia.
Qed.

Lemma orthogonal_move_generation_witness :
  In (move_to two_sided_board 7 0 6 0)
     (rules_get_valid_moves_for_piece two_sided_board 7 0 false).
Proof.
  apply (proj1 (orthogonal_move_generation two_sided_board 7 0 false eq_refl)).
  - reflexivity.
  - split; [reflexivity|]. split; [vm_compute; discriminate|].
    split; [vm_compute; discriminate|]. left. split; reflexivity.
Defined.

(** X13: the shape of the jumps.  Every jump the generator offers either
    goes along one of the river columns 1, 2, 4, 5 between rows 2 and 6, or
    is made by a Lion along one of the river rows 3, 4, 5 between columns 0
    and 3 or 3 and 6; a Tiger therefore never jumps sideways. *)
Theorem jump_shapes :
  forall board r c co m,
    In m (rules_get_valid_moves_for_piece board r c co) -> is_jump m ->
    from_row m = r /\ from_col m = c
    /\ ((to_col m = c /\ (c = 1 \/ c = 2 \/ c = 4 \/ c = 5)
         /\ ((r = 2 /\ to_row m = 6) \/ (r = 6 /\ to_row m = 2)))
        \/ (type (piece (squares board r c)) = PIECE_TYPE_LION
            /\ to_row m = r /\ 3 <= r <= 5
            /\ ((c = 0 /\ to_col m = 3) \/ (c = 3 /\ to_col m = 0)
                \/ (c = 3 /\ to_col m = 6) \/ (c = 6 /\ to_col m = 3))))
    /\ (type (piece (squares board r c)) = PIECE_TYPE_TIGER -> to_col m = from_col m).
Proof.
  intros board r c co m Hin Hj.
  destruct (valid_moves_jump_origin _ _ _ _ _ Hin Hj) as (_ & j & Hj1 & Hj2).
  apply jump_step_spec in Hj2. destruct Hj2 as (-> & _).
  cbn [from_row from_col to_row to_col].
  apply jump_paths_shape in Hj1.
  split; [reflexivity|]. split; [reflexivity|]. split; [exact Hj1|].
  intros Ht. destruct Hj1 as [(H & _)|(Hl & _)]; [exact H|].
  rewrite Ht in Hl. discriminate.
Qed.

Lemma jump_shapes_witness :
  to_col (move_to lion_jump_board 2 1 6 1) = 1
  /\ to_row (move_to lion_jump_board 2 1 6 1) = 6.
Proof.
  assert (Hin : In (move_to lion_jump_board 2 1 6 1)
                  (rules_get_valid_moves_for_piece lion_jump_board 2 1 false)).
  { vm_compute. repeat (try (left; reflexivity); right). }
  assert (Hj : is_jump (move_to lion_jump_board 2 1 6 1)).
  { unfold is_jump. cbn. lia. }
  destruct (jump_shapes lion_jump_board 2 1 false _ Hin Hj) as (_ & _ & Hs & _).
  split; reflexivity.
Defined.

(** *** Game status *)

Lemma status_scan_invariant :
  forall board l s,
    0 <= p0c s -> 0 <= p1c s ->
    let s' := fold_left (fun s rc => status_scan_square board (fst rc) (snd rc) s) l s in
    0 <= p0c s' /\ 0 <= p1c s'
    /\ (p0c s' >? 0) = (p0c s >? 0) || existsb (owned_by_player0 board) l
    /\ (p1c s' >? 0) = (p1c s >? 0) || existsb (owned_by_player1 board) l
    /\ p0d s' = p0d s
                || existsb
                     (fun rc => owned_by_player0 board rc
                                && (terrain (squares board (fst rc) (snd rc))
                                    =? TERRAIN_PLAYER1_DEN)) l
    /\ p1d s' = p1d s
                || existsb
                     (fun rc => owned_by_player1 board rc
                                && (terrain (squares board (fst rc) (snd rc))
                                    =? TERRAIN_PLAYER0_DEN)) l.
Proof.
  intros board. induction l as [|rc l IH]; intros s H0 H1; cbn [fold_left existsb].
  - cbv zeta. rewrite !orb_false_r. repeat split; auto.
  - cbv zeta.
    set (s1 := status_scan_square board (fst rc) (snd rc) s).
    assert (Hs1 : 0 <= p0c s1 /\ 0 <= p1c s1
                  /\ (p0c s1 >? 0) = (p0c s >? 0) || owned_by_player0 board rc
                  /\ (p1c s1 >? 0) = (p1c s >? 0) || owned_by_player1 board rc
                  /\ p0d s1 = p0d s
                              || (owned_by_player0 board rc
                                  && (terrain (squares board (fst rc) (snd rc))
                                      =? TERRAIN_PLAYER1_DEN))
                  /\ p1d s1 = p1d s
                              || (owned_by_player1 board rc
                                  && (terrain (squares board (fst rc) (snd rc))
                                      =? TERRAIN_PLAYER0_DEN))).
    { subst s1. unfold status_scan_square, piece_ptr, owned_by_player0, owned_by_player1,
        occupied.
      destruct (negb (type (piece (squares board (fst rc) (snd rc))) =? NO_PIECE));
        cbn [andb]; [|rewrite !orb_false_r; auto].
      destruct (player (piece (squares board (fst rc) (snd rc))) =? PLAYER0);
        cbn [negb andb p0c p1c p0d p1d]; rewrite ?orb_false_r, ?orb_true_r.
      all: repeat split; try lia; try reflexivity;
        try (apply Z.gtb_lt; lia);
        try (destruct (terrain _ =? _); rewrite ?orb_true_r, ?orb_false_r; reflexivity). }
    destruct Hs1 as (A0 & A1 & A2 & A3 & A4 & A5).
    destruct (IH s1 A0 A1) as (B0 & B1 & B2 & B3 & B4 & B5).
    cbv zeta in B2, B3, B4, B5.
    rewrite B2, B3, B4, B5, A2, A3, A4, A5, !orb_assoc. repeat split; auto.
Qed.

Lemma status_scan_facts :
  forall board,
    (p0c (status_scan board) >? 0) = player0_has_piece board
    /\ (p1c (status_scan board) >? 0) = player1_has_piece board
    /\ (p0c (status_scan board) =? 0) = negb (player0_has_piece board)
    /\ (p1c (status_scan board) =? 0) = negb (player1_has_piece board)
    /\ p0d (status_scan board) = player0_in_den board
    /\ p1d (status_scan board) = player1_in_den board.
Proof.
  intros board.
  assert (Hscan : status_scan board
                  = fold_left (fun s rc => status_scan_square board (fst rc) (snd rc) s)
                      all_squares (mkStatusScan 0 0 false false)) by reflexivity.
  pose proof (status_scan_invariant board all_squares (mkStatusScan 0 0 false false))
    as H.
  cbv zeta in H. rewrite <- Hscan in H. cbn [p0c p1c p0d p1d] in H.
  destruct H as (B0 & B1 & B2 & B3 & B4 & B5); [lia|lia|].
  change (0 >? 0) with false in B2, B3. cbn [orb] in B2, B3, B4, B5.
  unfold player0_has_piece, player1_has_piece, player0_in_den, player1_in_den.
  rewrite <- B2, <- B3, <- B4, <- B5.
  split; [reflexivity|]. split; [reflexivity|].
  split; [|split; [|split; reflexivity]].
  - rewrite Z.gtb_ltb. destruct (Z.eqb_spec (p0c (status_scan board)) 0);
      destruct (Z.ltb_spec 0 (p0c (status_scan board))); cbn [negb];
      try reflexivity; lia.
  - rewrite Z.gtb_ltb. destruct (Z.eqb_spec (p1c (status_scan board)) 0);
      destruct (Z.ltb_spec 0 (p1c (status_scan board))); cbn [negb];
      try reflexivity; lia.
Qed.

(** X14: what [rules_get_game_status] decides.  The game is ongoing
    exactly when both sides have a piece and neither stands on the den of
    the other; a Player0 piece on Player1's den wins for Player0 even when
    Player1 stands on Player0's den as well; a side without pieces loses,
    the empty board is a draw, and the initial status is never returned.
    Pieces whose owner is not Player0 count for Player1. *)
Theorem game_status_decision :
  forall board,
    rules_get_game_status board
    = (if player0_in_den board then GAME_STATUS_PLAYER0_WINS
       else if player1_in_den board then GAME_STATUS_PLAYER1_WINS
       else if player0_has_piece board
            then if player1_has_piece board then GAME_STATUS_ONGOING
                 else GAME_STATUS_PLAYER0_WINS
            else if player1_has_piece board then GAME_STATUS_PLAYER1_WINS
                 else GAME_STATUS_DRAW)
    /\ (rules_get_game_status board = GAME_STATUS_ONGOING <->
        player0_has_piece board = true /\ player1_has_piece board = true
        /\ player0_in_den board = false /\ player1_in_den board = false)
    /\ rules_get_game_status board <> GAME_STATUS_INIT.
Proof.
  intros board.
  destruct (status_scan_facts board) as (F0 & F1 & F2 & F3 & F4 & F5).
  assert (Heq : rules_get_game_status board
    = (if player0_in_den board then GAME_STATUS_PLAYER0_WINS
       else if player1_in_den board then GAME_STATUS_PLAYER1_WINS
       else if player0_has_piece board
            then if player1_has_piece board then GAME_STATUS_ONGOING
                 else GAME_STATUS_PLAYER0_WINS
            else if player1_has_piece board then GAME_STATUS_PLAYER1_WINS
                 else GAME_STATUS_DRAW)).
  { unfold rules_get_game_status. cbv zeta. rewrite F0, F1, F2, F3, F4, F5.
    destruct (player0_in_den board), (player1_in_den board),
      (player0_has_piece board), (player1_has_piece board); reflexivity. }
  split; [exact Heq|]. rewrite Heq.
  destruct (player0_in_den board), (player1_in_den board),
    (player0_has_piece board), (player1_has_piece board);
    (split; [split; [intros H; try discriminate H; auto
                    |intros (H1 & H2 & H3 & H4); try discriminate; reflexivity]
            |discriminate]).
Qed.

Lemma game_status_decision_witness :
  rules_get_game_status two_sided_board = GAME_STATUS_ONGOING.
Proof.
  apply (proj2 (proj1 (proj2 (game_status_decision two_sided_board)))).
  repeat split; vm_compute; reflexivity.
Defined.

(** *** Move ordering sorts the moves *)

Lemma bubble_pass_app :
  forall k pre suf,
    length pre = S k -> bubble_pass k (pre ++ suf) = bubble_pass k pre ++ suf.
Proof.
  induction k as [|k IH]; intros pre suf Hlen.
  - destruct pre as [|a [|b rest]]; try discriminate. cbn. now destruct suf.
  - destruct pre as [|a [|b rest]]; try discriminate.
    cbn [app bubble_pass].
    destruct (order_score a <? order_score b).
    + change (a :: rest ++ suf) with ((a :: rest) ++ suf).
      rewrite IH by (cbn [length] in *; lia). reflexivity.
    + change (b :: rest ++ suf) with ((b :: rest) ++ suf).
      rewrite IH by (cbn [length] in *; lia). reflexivity.
Qed.

Lemma bubble_pass_least_last :
  forall k pre,
    length pre = S k ->
    exists pre' m,
      bubble_pass k pre = pre' ++ [m]
      /\ Forall (fun x => order_score m <= order_score x) pre.
Proof.
  induction k as [|k IH]; intros pre Hlen.
  - destruct pre as [|a [|b rest]]; try discriminate.
    exists [], a. split; [reflexivity|]. constructor; [lia|constructor].
  - destruct pre as [|a [|b rest]]; try discriminate.
    cbn [bubble_pass].
    destruct (Z.ltb_spec (order_score a) (order_score b)) as [Hlt|Hge].
    + destruct (IH (a :: rest)) as (pre' & m & He & Hall); [cbn [length] in *; lia|].
      exists (b :: pre'), m. rewrite He. split; [reflexivity|].
      inversion Hall as [|x l Ha Hrest]; subst.
      constructor; [exact Ha|]. constructor; [lia|exact Hrest].
    + destruct (IH (b :: rest)) as (pre' & m & He & Hall); [cbn [length] in *; lia|].
      exists (a :: pre'), m. rewrite He. split; [reflexivity|].
      inversion Hall as [|x l Hb Hrest]; subst.
      constructor; [lia|]. constructor; [exact Hb|exact Hrest].
Qed.

Lemma bubble_passes_sorted :
  forall n len start l,
    (start + len <= n - 1)%nat ->
    length l = n ->
    (exists pre suf,
        l = pre ++ suf /\ length suf = start /\ StronglySorted score_ge suf
        /\ (forall x y, In x pre -> In y suf -> order_score y <= order_score x)) ->
    exists pre suf,
      fold_left (fun ms i => bubble_pass (n - i - 1) ms) (seq start len) l = pre ++ suf
      /\ length (pre ++ suf) = n
      /\ length suf = (start + len)%nat /\ StronglySorted score_ge suf
      /\ (forall x y, In x pre -> In y suf -> order_score y <= order_score x).
Proof.
  intros n. induction len as [|len IH]; intros start l Hb Hn (pre & suf & -> & Hs & Hsorted & Hge).
  - cbn [seq fold_left]. exists pre, suf. rewrite Nat.add_0_r. auto.
  - cbn [seq fold_left].
    rewrite length_app in Hn.
    assert (Hpre : length pre = S (n - start - 1)) by lia.
    rewrite (bubble_pass_app _ _ _ Hpre).
    destruct (bubble_pass_least_last _ _ Hpre) as (pre' & m & He & Hall).
    assert (Hperm : Permutation (pre' ++ [m]) pre).
    { rewrite <- He. apply bubble_pass_perm. }
    assert (Hm : In m pre).
    { apply (Permutation_in _ Hperm). apply in_or_app. right. now left. }
    assert (Hpre' : forall x, In x pre' -> In x pre).
    { intros x Hx. apply (Permutation_in _ Hperm). apply in_or_app. now left. }
    rewrite Forall_forall in Hall.
    destruct (IH (S start) ((pre' ++ [m]) ++ suf)) as (p2 & s2 & E2 & L2 & S2 & Sorted2 & G2).
    + lia.
    + rewrite length_app, (Permutation_length Hperm). lia.
    + exists pre', (m :: suf). split; [now rewrite <- app_assoc|].
      split; [cbn [length]; lia|]. split.
      * constructor; [exact Hsorted|]. apply Forall_forall. intros y Hy.
        unfold score_ge. apply Hge; assumption.
      * intros x y Hx [<-|Hy]; [apply Hall; auto|apply Hge; auto].
    + rewrite He. exists p2, s2. rewrite E2.
      repeat split; auto. lia.
Qed.

Lemma bubble_sort_sorted : forall moves, StronglySorted score_ge (bubble_sort moves).
Proof.
  intros moves. unfold bubble_sort.
  destruct (bubble_passes_sorted (length moves) (length moves - 1) 0 moves)
    as (pre & suf & E & L & S & Hsorted & Hge).
  - lia.
  - reflexivity.
  - exists moves, []. rewrite app_nil_r. repeat split; auto.
    + constructor.
    + intros x y _ [].
  - rewrite E. rewrite length_app in L.
    destruct pre as [|x pre]; [exact Hsorted|].
    destruct pre as [|x' pre]; [|cbn [length] in L; lia].
    cbn [app]. constructor; [exact Hsorted|].
    apply Forall_forall. intros y Hy. apply Hge; [now left|exact Hy].
Qed.

(** X15: [order_moves] returns the moves it was given, each carrying the
    score of the scoring loop, sorted by non-increasing [order_score]: every
    move of the result scores at least as high as every move after it. *)
Theorem order_moves_sorts :
  forall st moves tt_move tt_move_valid ply,
    StronglySorted score_ge (order_moves st moves tt_move tt_move_valid ply)
    /\ Permutation (order_moves st moves tt_move tt_move_valid ply)
         (map (fun m => set_order_score m (move_order_score st m tt_move tt_move_valid ply))
            moves)
    /\ length (order_moves st moves tt_move tt_move_valid ply) = length moves.
Proof.
  intros st moves tt_move v ply. unfold order_moves.
  split; [apply bubble_sort_sorted|]. split; [apply bubble_sort_perm|].
  rewrite (Permutation_length (bubble_sort_perm _)). apply length_map.
Qed.

Ltac piece_values :=
  repeat match goal with
         | |- context [value (PIECE_INFO ?t)] =>
           let v := eval vm_compute in (value (PIECE_INFO t)) in
           change (value (PIECE_INFO t)) with v
         end.

Lemma piece_type_cases :
  forall t, 0 <= t < NUM_PIECE_TYPES ->
    t = 0 \/ t = 1 \/ t = 2 \/ t = 3 \/ t = 4 \/ t = 5 \/ t = 6 \/ t = 7.
Proof. unfold NUM_PIECE_TYPES. lia. Qed.

Lemma piece_value_bounds :
  forall t, 0 <= t < NUM_PIECE_TYPES -> 200 <= value (PIECE_INFO t) <= 800.
Proof.
  intros t Ht. apply piece_type_cases in Ht.
  destruct Ht as [-> | [-> | [-> | [-> | [-> | [-> | [-> | ->]]]]]]]; piece_values; lia.
Qed.

Lemma piece_value_gap :
  forall t1 t2,
    0 <= t1 < NUM_PIECE_TYPES -> 0 <= t2 < NUM_PIECE_TYPES ->
    value (PIECE_INFO t2) < value (PIECE_INFO t1) ->
    value (PIECE_INFO t2) + 50 <= value (PIECE_INFO t1).
Proof.
  intros t1 t2 H1 H2. apply piece_type_cases in H1. apply piece_type_cases in H2.
  destruct H1 as [-> | [-> | [-> | [-> | [-> | [-> | [-> | ->]]]]]]];
    destruct H2 as [-> | [-> | [-> | [-> | [-> | [-> | [-> | ->]]]]]]]; piece_values; lia.
Qed.

(** X16: the tiers of the scoring loop of [order_moves].  The move of the
    table entry scores 200000.  A capture that is not the table move scores
    100000 + 100 * victim value - attacker value, which for existing piece
    types lies between 119200 and 179800, above the killer scores; among
    such captures a more valuable victim gives the higher score whatever the
    attackers are (most valuable victim first).  A quiet move that is not
    the table move scores 90000 as the first killer of its ply, 80000 as
    the second, and its history counter otherwise. *)
Theorem move_order_tiers :
  forall st tt_move tt_move_valid ply m1 m2,
    (is_table_move m1 tt_move tt_move_valid = true ->
     move_order_score st m1 tt_move tt_move_valid ply = 200000)
    /\ (is_table_move m1 tt_move tt_move_valid = false -> is_capture m1 = true ->
        move_order_score st m1 tt_move tt_move_valid ply
        = 100000 + value (PIECE_INFO (captured_piece_type m1)) * 100
          - value (PIECE_INFO (piece_type m1))
        /\ (0 <= piece_type m1 < NUM_PIECE_TYPES ->
            0 <= captured_piece_type m1 < NUM_PIECE_TYPES ->
            119200 <= move_order_score st m1 tt_move tt_move_valid ply <= 179800))
    /\ (is_table_move m1 tt_move tt_move_valid = false ->
        is_table_move m2 tt_move tt_move_valid = false ->
        0 <= piece_type m1 < NUM_PIECE_TYPES ->
        0 <= captured_piece_type m1 < NUM_PIECE_TYPES ->
        0 <= piece_type m2 < NUM_PIECE_TYPES ->
        0 <= captured_piece_type m2 < NUM_PIECE_TYPES ->
        value (PIECE_INFO (captured_piece_type m2))
        < value (PIECE_INFO (captured_piece_type m1)) ->
        move_order_score st m2 tt_move tt_move_valid ply
        < move_order_score st m1 tt_move tt_move_valid ply)
    /\ (is_table_move m2 tt_move tt_move_valid = false -> is_capture m2 = false ->
        move_order_score st m2 tt_move tt_move_valid ply
        = if is_killer st ply 0 m2 then 90000
          else if is_killer st ply 1 m2 then 80000
          else history_heuristic st
                 (get_history_index (piece_type m2) (to_row m2) (to_col m2))).
Proof.
  intros st tt_move v ply m1 m2.
  assert (Hcap : forall m,
            is_table_move m tt_move v = false -> is_capture m = true ->
            move_order_score st m tt_move v ply
            = 100000 + value (PIECE_INFO (captured_piece_type m)) * 100
              - value (PIECE_INFO (piece_type m))).
  { intros m Ht Hc. unfold move_order_score. cbv zeta.
    unfold is_table_move in Ht. rewrite Ht.
    unfold is_capture in Hc. rewrite Hc. reflexivity. }
  assert (Hrange : forall m,
            0 <= captured_piece_type m < NUM_PIECE_TYPES -> is_capture m = true).
  { intros m Hc. unfold is_capture.
    rewrite (eqb_neq_false (captured_piece_type m) NO_PIECE)
      by (unfold NUM_PIECE_TYPES, NO_PIECE in *; lia).
    reflexivity. }
  split; [|split; [|split]].
  - intros Ht. unfold move_order_score. cbv zeta.
    unfold is_table_move in Ht. rewrite Ht. reflexivity.
  - intros Ht Hc. split; [now apply Hcap|].
    intros Hp Hv. rewrite (Hcap m1 Ht Hc).
    pose proof (piece_value_bounds _ Hp). pose proof (piece_value_bounds _ Hv). lia.
  - intros Ht1 Ht2 Hp1 Hc1 Hp2 Hc2 Hv.
    rewrite (Hcap m1 Ht1 (Hrange m1 Hc1)), (Hcap m2 Ht2 (Hrange m2 Hc2)).
    pose proof (piece_value_gap _ _ Hc1 Hc2 Hv).
    pose proof (piece_value_bounds _ Hp1). pose proof (piece_value_bounds _ Hp2). lia.
  - intros Ht Hq. unfold move_order_score. cbv zeta.
    unfold is_table_move in Ht. rewrite Ht.
    unfold is_capture in Hq. rewrite Hq.
    unfold is_killer.
    destruct ((ply >=? 0) && (ply <? MAX_PLY_FOR_KILLERS)); cbn [andb]; reflexivity.
Qed.

Lemma move_order_tiers_witness :
  move_order_score ready_engine
    (mkMove 0 0 0 1 PIECE_TYPE_LION PIECE_TYPE_RAT 0) None false 0
  < move_order_score ready_engine (move_to lion_jump_board 2 1 6 1) None false 0.
Proof.
  refine (proj1 (proj2 (proj2 (move_order_tiers ready_engine None false 0
                                 (move_to lion_jump_board 2 1 6 1)
                                 (mkMove 0 0 0 1 PIECE_TYPE_LION PIECE_TYPE_RAT 0))))
            _ _ _ _ _ _ _);
    vm_compute; first [reflexivity | discriminate | split; [discriminate|reflexivity]].
Defined.

(** *** The quiescence search is fail-hard *)

Lemma quiescence_loop_window :
  forall (rec : QSearchFn) board hash is_max ply q_depth moves alpha beta st v st',
    alpha <= beta ->
    quiescence_loop rec board hash is_max ply q_depth moves alpha beta st = Some (v, st') ->
    v = TIMEOUT_SCORE \/ alpha <= v <= beta.
Proof.
  intros rec board hash is_max ply q_depth moves.
  induction moves as [|m rest IH]; intros alpha beta st v st' Hab H;
    cbn [quiescence_loop] in H.
  - some_inv H. right. destruct is_max; lia.
  - destruct (simulate_move_and_update_hash st board m (piece_type m)
                (if is_max then PLAYER1 else PLAYER0) hash) as [nb nh].
    destruct (rec nb nh alpha beta (negb is_max) ply (int32 (q_depth + 1)) st)
      as [[s st1]|]; [|discriminate].
    destruct (s =? TIMEOUT_SCORE); [some_inv H; now left|].
    destruct is_max.
    + destruct (Z.gtb_spec s alpha) as [Hs|Hs].
      * destruct (Z.geb_spec s beta) as [Hc|Hc]; [some_inv H; right; lia|].
        apply IH in H; [|lia]. destruct H as [H|H]; [now left|right; lia].
      * destruct (Z.geb_spec alpha beta) as [Hc|Hc]; [some_inv H; right; lia|].
        apply IH in H; [|lia]. exact H.
    + destruct (Z.ltb_spec s beta) as [Hs|Hs].
      * destruct (Z.geb_spec alpha s) as [Hc|Hc]; [some_inv H; right; lia|].
        apply IH in H; [|lia]. destruct H as [H|H]; [now left|right; lia].
      * destruct (Z.geb_spec alpha beta) as [Hc|Hc]; [some_inv H; right; lia|].
        apply IH in H; [|lia]. exact H.
Qed.

(** X17: the quiescence search is fail-hard.  Called below the depth limit
    with alpha <= beta, it returns, and its score is either the timeout
    value 888888 or lies between alpha and beta, both included; called at
    the depth limit it returns the timeout value or the static evaluation
    of the board, which need not lie in the window. *)
Theorem quiescence_fail_hard :
  forall fuel q_depth board hash alpha beta is_max ply st,
    0 <= q_depth ->
    (Z.to_nat (MAX_Q_DEPTH - q_depth) < fuel)%nat ->
    exists v st',
      quiescence_search fuel board hash alpha beta is_max ply q_depth st = Some (v, st')
      /\ (q_depth < MAX_Q_DEPTH -> alpha <= beta ->
          v = TIMEOUT_SCORE \/ alpha <= v <= beta)
      /\ (MAX_Q_DEPTH <= q_depth ->
          v = TIMEOUT_SCORE \/ v = evaluate_board_internal board).
Proof.
  intros fuel q_depth board hash alpha beta is_max ply st Hq Hf.
  destruct (quiescence_search_total fuel q_depth Hq Hf board hash alpha beta is_max ply st)
    as [[v st'] H].
  exists v, st'. split; [exact H|].
  destruct fuel as [|fuel]; [lia|].
  cbn [quiescence_search] in H. unfold quiescence_node in H.
  destruct (enter_node st) as [expired st1].
  destruct expired; [some_inv H; split; intros; now left|].
  destruct (Z.geb_spec q_depth MAX_Q_DEPTH) as [Hge|Hlt].
  { some_inv H. split; [intros; lia|intros; now right]. }
  split; [|intros; lia]. intros _ Hab.
  set (sp := evaluate_board_internal board) in *.
  destruct is_max; cbn [andb negb] in H.
  - destruct (Z.geb_spec sp beta) as [Hc|Hc]; [some_inv H; right; lia|].
    destruct (Z.gtb_spec sp alpha) as [Hs|Hs];
      apply quiescence_loop_window in H; try lia;
      (destruct H as [H|H]; [now left|right; lia]).
  - destruct (Z.leb_spec sp alpha) as [Hc|Hc]; [some_inv H; right; lia|].
    destruct (Z.ltb_spec sp beta) as [Hs|Hs];
      apply quiescence_loop_window in H; try lia;
      (destruct H as [H|H]; [now left|right; lia]).
Qed.

Lemma quiescence_fail_hard_witness :
  exists v st',
    quiescence_search Q_FUEL lion_jump_board 0 (-50) 50 true 1 0 ready_engine
    = Some (v, st')
    /\ (v = TIMEOUT_SCORE \/ -50 <= v <= 50).
Proof.
  destruct (quiescence_fail_hard Q_FUEL 0 lion_jump_board 0 (-50) 50 true 1 ready_engine)
    as (v & st' & H & Hw & _).
  - lia.
  - vm_compute. lia.
  - exists v, st'. split; [exact H|]. apply Hw; [reflexivity|lia].
Defined.

(** *** What the search leaves alone

    A relation between engine states that is a preorder and holds across
    each write the search functions make holds across a whole search. *)

Section SearchKeeps.
Variable R : Engine -> Engine -> Prop.
Hypothesis R_refl : forall st, R st st.
Hypothesis R_trans : forall a b c, R a b -> R b c -> R a c.
Hypothesis R_enter : forall st, R st (snd (enter_node st)).
Hypothesis R_push : forall st n h, R st (store_path_hash st n h).
Hypothesis R_killer : forall ply m st, R st (record_killer_move ply m st).
Hypothesis R_history : forall st f, R st (set_history_heuristic st f).
Hypothesis R_store : forall st h s d oa b bm, R st (tt_store st h s d oa b bm).

Lemma quiescence_loop_keeps :
  forall rec, qrec_keeps R rec ->
    forall board hash is_max ply q_depth moves alpha beta st v st',
      quiescence_loop rec board hash is_max ply q_depth moves alpha beta st = Some (v, st') ->
      R st st'.
Proof.
  intros rec Hrec board hash is_max ply q_depth moves.
  induction moves as [|m rest IH]; intros alpha beta st v st' H; cbn [quiescence_loop] in H.
  - some_inv H. apply R_refl.
  - destruct (simulate_move_and_update_hash st board m (piece_type m)
                (if is_max then PLAYER1 else PLAYER0) hash) as [nb nh].
    destruct (rec nb nh alpha beta (negb is_max) ply (int32 (q_depth + 1)) st)
      as [[s st1]|] eqn:E; [|discriminate].
    apply Hrec in E.
    destruct (s =? TIMEOUT_SCORE); [some_inv H; exact E|].
    destruct is_max.
    + destruct ((if s >? alpha then s else alpha) >=? beta); [some_inv H; exact E|].
      apply IH in H. eapply R_trans; eauto.
    + destruct (alpha >=? (if s <? beta then s else beta)); [some_inv H; exact E|].
      apply IH in H. eapply R_trans; eauto.
Qed.

Lemma quiescence_search_keeps : forall fuel, qrec_keeps R (quiescence_search fuel).
Proof.
  induction fuel as [|fuel IH]; intros board hash alpha beta is_max ply q_depth st v st' H;
    cbn [quiescence_search] in H; [discriminate|].
  unfold quiescence_node in H.
  pose proof (R_enter st) as He.
  destruct (enter_node st) as [expired st1]. cbn [snd] in He.
  repeat match type of H with
         | (if ?b then _ else _) = _ => destruct b
         | Some _ = Some _ => some_inv H; exact He
         end.
  apply (quiescence_loop_keeps _ IH) in H. eapply R_trans; eauto.
Qed.

Lemma search_moves_keeps :
  forall rec, rec_keeps R rec ->
    forall board hash depth_ is_max ply cnt moves best bm alpha beta n st r,
      search_moves rec board hash depth_ is_max ply cnt moves best bm alpha beta n st
      = Some r ->
      R st (match r with LOOP_TIMEOUT st' => st' | LOOP_DONE _ _ _ _ st' => st' end).
Proof.
  intros rec Hrec board hash depth_ is_max ply cnt moves.
  induction moves as [|m rest IH]; intros best bm alpha beta n st r H;
    cbn [search_moves] in H.
  - inversion H. apply R_refl.
  - destruct (simulate_move_and_update_hash st board m (piece_type m)
                (if is_max then PLAYER1 else PLAYER0) hash) as [nb nh].
    match type of H with
    | match rec ?b ?h ?d ?a ?be ?mx ?p ?c ?an ?s with _ => _ end = _ =>
      destruct (rec b h d a be mx p c an s) as [[s1 st1]|] eqn:E1; [|discriminate]
    end.
    apply Hrec in E1.
    match type of H with
    | match (if ?c then ?x else ?y) with _ => _ end = _ =>
      destruct c; [destruct x as [[s2 st2]|] eqn:E2; [apply Hrec in E2|discriminate]|]
    end.
    + assert (T2 : R st st2) by (eapply R_trans; eauto).
      clear E1 E2.
      destruct (s2 =? TIMEOUT_SCORE); [inversion H; subst; exact T2|].
      match type of H with
      | (if ?c then _ else _) = _ => destruct c
      end.
      * inversion H; subst. cbn match.
        destruct (captured_piece_type m =? NO_PIECE); [|exact T2].
        eapply R_trans; [exact T2|]. eapply R_trans; [apply R_killer|apply R_history].
      * apply IH in H. eapply R_trans; eauto.
    + destruct (s1 =? TIMEOUT_SCORE); [inversion H; subst; exact E1|].
      match type of H with
      | (if ?c then _ else _) = _ => destruct c
      end.
      * inversion H; subst. cbn match.
        destruct (captured_piece_type m =? NO_PIECE); [|exact E1].
        eapply R_trans; [exact E1|]. eapply R_trans; [apply R_killer|apply R_history].
      * apply IH in H. eapply R_trans; eauto.
Qed.

Lemma null_move_pruning_keeps :
  forall rec, rec_keeps R rec ->
    forall board hash depth_ beta is_max ply cnt an st x st',
      null_move_pruning rec board hash depth_ beta is_max ply cnt an st = Some (x, st') ->
      R st st'.
Proof.
  intros rec Hrec board hash depth_ beta is_max ply cnt an st x st' H.
  unfold null_move_pruning in H.
  destruct (an && (depth_ >=? NMP_REDUCTION + 1) && negb (ply =? 0));
    [|some_inv H; apply R_refl].
  match type of H with
  | match rec ?b ?h ?d ?a ?be ?mx ?p ?c ?an ?s with _ => _ end = _ =>
    destruct (rec b h d a be mx p c an s) as [[r st1]|] eqn:E1; [|discriminate]
  end.
  apply Hrec in E1.
  repeat match type of H with
         | (if ?b then _ else _) = _ => destruct b
         end; some_inv H; exact E1.
Qed.

Lemma search_and_store_keeps :
  forall rec, rec_keeps R rec ->
    forall board hash depth_ alpha beta is_max ply cnt st e v st',
      search_and_store rec board hash depth_ alpha beta is_max ply cnt st
      = Some (e, v, st') ->
      R st st'.
Proof.
  intros rec Hrec board hash depth_ alpha beta is_max ply cnt st e v st' H.
  unfold search_and_store in H.
  match type of H with
  | (if ?c then _ else _) = _ => destruct c; [some_inv H; apply R_refl|]
  end.
  match type of H with
  | match ?x with _ => _ end = _ => destruct x as [r|] eqn:L; [|discriminate]
  end.
  apply (search_moves_keeps rec Hrec) in L.
  destruct r as [st4|best' bm' a' b' st4]; some_inv H.
  - exact L.
  - eapply R_trans; [exact L|]. apply R_store.
Qed.

Lemma alpha_beta_node_keeps :
  forall rec, rec_keeps R rec ->
    forall board hash depth_ alpha beta is_max ply cnt an st e v st',
      alpha_beta_node rec board hash depth_ alpha beta is_max ply cnt an st
      = Some (e, v, st') ->
      R (snd (enter_node st)) st'.
Proof.
  intros rec Hrec board hash depth_ alpha beta is_max ply cnt an st e v st' H.
  unfold alpha_beta_node in H.
  destruct (enter_node st) as [expired st1]. cbn [snd].
  destruct expired; [some_inv H; apply R_refl|].
  destruct (repetition_draw st1 hash cnt ply); [some_inv H; apply R_refl|].
  destruct (push_path_hash st1 cnt hash) as [st2|] eqn:P; [|discriminate].
  apply push_path_hash_some in P. destruct P as [P _].
  pose proof (R_push st1 cnt hash) as T2. rewrite <- P in T2. clear P.
  destruct (tt_probe st2 hash depth_ alpha beta ply) as [s|[alpha' beta']];
    [some_inv H; exact T2|].
  destruct (terminal_score board ply); [some_inv H; exact T2|].
  destruct (depth_ <=? 0).
  - destruct (quiescence_search Q_FUEL board hash alpha' beta' is_max ply 0 st2)
      as [[s st3]|] eqn:Q; [|discriminate].
    apply quiescence_search_keeps in Q. some_inv H. eapply R_trans; eauto.
  - destruct (null_move_pruning rec board hash depth_ beta' is_max ply cnt an st2)
      as [[x st3]|] eqn:N; [|discriminate].
    apply (null_move_pruning_keeps rec Hrec) in N.
    assert (T3 : R st1 st3) by (eapply R_trans; eauto).
    destruct x as [[e' v']|[]]; [some_inv H; exact T3|].
    apply (search_and_store_keeps rec Hrec) in H.
    eapply R_trans; eauto.
Qed.

Lemma alpha_beta_keeps : forall fuel, rec_keeps R (alpha_beta fuel).
Proof.
  induction fuel as [|fuel IH]; intros b h d a be mx ply cnt an st v st' H;
    cbn [alpha_beta] in H; [discriminate|].
  destruct (alpha_beta_node (alpha_beta fuel) b h d a be mx ply cnt an st)
    as [[[e v0] st0]|] eqn:E; cbn [drop_exit] in H; [|discriminate].
  some_inv H. eapply R_trans; [apply R_enter|].
  eapply alpha_beta_node_keeps; eauto.
Qed.

End SearchKeeps.

Lemma search_frame_refl : forall st, search_frame st st.
Proof. intros st. unfold search_frame. repeat split; auto. Qed.

Lemma search_frame_trans :
  forall a b c, search_frame a b -> search_frame b c -> search_frame a c.
Proof.
  unfold search_frame.
  intros a b c (A1 & A2 & A3 & A4 & A5 & A6 & A7 & A8) (B1 & B2 & B3 & B4 & B5 & B6 & B7 & B8).
  repeat split; try congruence. lia.
Qed.

Lemma search_frame_killer : forall ply m st, search_frame st (record_killer_move ply m st).
Proof.
  intros ply m st. unfold record_killer_move.
  destruct ((ply <? 0) || (ply >=? MAX_PLY_FOR_KILLERS)); [apply search_frame_refl|].
  destruct (negb (killer_moves_valid st ply 0)
            || negb (same_squares (killer_moves st ply 0) m));
    [|apply search_frame_refl].
  unfold search_frame. cbn. repeat split; auto.
Qed.

Lemma search_frame_store :
  forall st h s d oa b bm, search_frame st (tt_store st h s d oa b bm).
Proof.
  intros. unfold tt_store. destruct (negb (s =? TIMEOUT_SCORE)); [|apply search_frame_refl].
  unfold search_frame. cbn. repeat split; auto.
Qed.

Lemma search_frame_enter : forall st, search_frame st (snd (enter_node st)).
Proof. intros st. unfold search_frame. cbn. repeat split; auto. Qed.

Lemma search_frame_push : forall st n h, search_frame st (store_path_hash st n h).
Proof. intros st n h. unfold search_frame. cbn. repeat split; auto. Qed.

Lemma search_frame_history : forall st f, search_frame st (set_history_heuristic st f).
Proof. intros st f. unfold search_frame. cbn. repeat split; auto. Qed.

(** X18: a search does not touch what it depends on.  Every call of
    [alpha_beta] that returns leaves the Zobrist keys and their generator
    state, the start time, the time limit and the host clock as they were,
    and has read the clock at least once. *)
Theorem alpha_beta_keeps_frame :
  forall fuel board hash depth_ alpha beta is_max ply cnt an st v st',
    alpha_beta fuel board hash depth_ alpha beta is_max ply cnt an st = Some (v, st') ->
    search_frame st st' /\ (clock_reads st < clock_reads st')%nat.
Proof.
  intros fuel board hash depth_ alpha beta is_max ply cnt an st v st' H.
  destruct fuel as [|fuel]; [discriminate|]. cbn [alpha_beta] in H.
  destruct (alpha_beta_node (alpha_beta fuel) board hash depth_ alpha beta is_max ply cnt
              an st) as [[[e v0] st0]|] eqn:E; cbn [drop_exit] in H; [|discriminate].
  some_inv H.
  pose proof (alpha_beta_keeps search_frame search_frame_refl search_frame_trans
                search_frame_enter search_frame_push search_frame_killer
                search_frame_history search_frame_store fuel) as Hk.
  apply (alpha_beta_node_keeps search_frame search_frame_refl search_frame_trans
           search_frame_enter search_frame_push search_frame_killer
           search_frame_history search_frame_store _ Hk) in E.
  pose proof (search_frame_enter st) as He.
  assert (Hlt : (clock_reads st < clock_reads (snd (enter_node st)))%nat) by (cbn; lia).
  split; [eapply search_frame_trans; eauto|].
  destruct E as (_ & _ & _ & _ & _ & _ & _ & Hc). lia.
Qed.

Lemma alpha_beta_keeps_frame_witness :
  exists v st',
    alpha_beta 2 lion_jump_board 0 1 (-100) 100 true 1 1 true ready_engine = Some (v, st')
    /\ host_clock st' = host_clock ready_engine
    /\ (clock_reads ready_engine < clock_reads st')%nat.
Proof.
  destruct (alpha_beta_total 2 1 1 ltac:(vm_compute; lia)
              ltac:(unfold path_fits, PATH_HASHES_SIZE, MAX_PLY_FOR_KILLERS; lia)
              lion_jump_board 0 (-100) 100 true 1 true ready_engine) as [[v st'] H].
  exists v, st'. split; [exact H|].
  destruct (alpha_beta_keeps_frame _ _ _ _ _ _ _ _ _ _ _ _ _ H)
    as ((_ & _ & _ & _ & _ & _ & Hh & _) & Hc).
  split; assumption.
Defined.

(** *** What the key set-up writes *)

Lemma fold_left_keeps :
  forall (A B T : Type) (g : A -> T) (f : A -> B -> A) (l : list B) (a : A),
    (forall a x, g (f a x) = g a) -> g (fold_left f l a) = g a.
Proof.
  intros A B T g f l. induction l as [|x l IH]; intros a H; cbn [fold_left]; [reflexivity|].
  rewrite IH by exact H. apply H.
Qed.

Section KeySetupFrame.
Context {T : Type}.
Variable g : Engine -> T.
Hypothesis g_table : forall st v, g (set_zobrist_table st v) = g st.
Hypothesis g_side : forall st v, g (set_zobrist_player1_to_move st v) = g st.
Hypothesis g_flag : forall st v, g (set_zobrist_initialized st v) = g st.
Hypothesis g_rand : forall st v, g (set_lcg_rand_state st v) = g st.

Lemma initialize_zobrist_keeps : forall st, g (initialize_zobrist st) = g st.
Proof.
  intros st. unfold initialize_zobrist.
  destruct (zobrist_initialized st); [reflexivity|].
  match goal with
  | |- context [random_int64 ?s] => remember s as st1 eqn:E1
  end.
  assert (H1 : g st1 = g st).
  { subst st1.
    apply fold_left_keeps. intros a pt.
    apply fold_left_keeps. intros a0 p.
    apply fold_left_keeps. intros a1 r.
    apply fold_left_keeps. intros a2 c.
    unfold random_int64, set_zobrist_cell. cbv zeta. now rewrite g_table, g_rand. }
  unfold random_int64. cbv zeta. now rewrite g_flag, g_side, g_rand.
Qed.

End KeySetupFrame.

(** X19: [initialize_zobrist] writes the keys, the flag and the state of
    the generator, and nothing else: the transposition table, the killer
    and history tables, the path array, the node counter, the time budget
    and the clock are as before; once the flag is set a further call
    changes nothing at all. *)
Theorem initialize_zobrist_frame :
  forall st,
    transposition_table (initialize_zobrist st) = transposition_table st
    /\ killer_moves (initialize_zobrist st) = killer_moves st
    /\ killer_moves_valid (initialize_zobrist st) = killer_moves_valid st
    /\ history_heuristic (initialize_zobrist st) = history_heuristic st
    /\ path_hashes (initialize_zobrist st) = path_hashes st
    /\ ai_run_counter (initialize_zobrist st) = ai_run_counter st
    /\ start_search_time_ms (initialize_zobrist st) = start_search_time_ms st
    /\ current_time_limit_ms (initialize_zobrist st) = current_time_limit_ms st
    /\ host_clock (initialize_zobrist st) = host_clock st
    /\ clock_reads (initialize_zobrist st) = clock_reads st
    /\ initialize_zobrist (initialize_zobrist st) = initialize_zobrist st.
Proof.
  intros st.
  repeat (split; [apply initialize_zobrist_keeps; reflexivity|]).
  unfold initialize_zobrist at 1. now rewrite initialize_zobrist_initialized.
Qed.

(** *** The driver without a finished iteration *)

Lemma depths_from_one :
  forall n, 0 < n -> exists ds, map (fun i => i + 1) (range n) = 1 :: ds.
Proof.
  intros n Hn. unfold range.
  destruct (Z.to_nat n) as [|k] eqn:E; [lia|].
  cbn [seq map]. eexists. reflexivity.
Qed.

(** The time tests subtract doubles: with the start reading 0.1, the
    reading 1000.1 and the limit 1000 the difference rounds to 1000 and the
    test fails, although 1000.1 - 0.1 exceeds 1000 on the stored values. *)
Example elapsed_time_is_rounded :
  elapsed_exceeds (ddiv (double_of_int 10001) (double_of_int 10))
    (ddiv (double_of_int 1) (double_of_int 10)) 1000 = false
  /\ elapsed_exceeds (double_of_int 1001) (double_of_int 0) 1000 = true.
Proof. vm_compute. split; reflexivity. Qed.

(** X20: when no iteration of the deepening loop is completed, because
    [max_depth] is not positive or because the time test of the loop
    succeeds at its first clock reading (the double difference between that
    reading and the reading taken at entry exceeds the limit),
    [findBestMoveWasm] reports the first generated root move with depth 0,
    node count 0, score 0 and status 0, and writes no cell outside
    [result_buffer[0..9]]. *)
Theorem driver_fallback :
  forall flat_board_data max_depth time_limit_ms result_buffer uninitialised st first others,
    generate_all_valid_moves (deserialize_board flat_board_data uninitialised) PLAYER1 false
    = first :: others ->
    max_depth <= 0
    \/ elapsed_exceeds (host_clock st (S (clock_reads st))) (host_clock st (clock_reads st))
         time_limit_ms = true ->
    exists buf st',
      findBestMoveWasm flat_board_data max_depth time_limit_ms result_buffer uninitialised st
      = Some (buf, st')
      /\ map buf [0; 1; 2; 3; 4; 5; 6; 7; 8; 9]
         = [1; from_row first; from_col first; to_row first; to_col first;
            piece_type first; 0; 0; 0; 0]
      /\ (forall j, j < 0 \/ 9 < j -> buf j = result_buffer j).
Proof.
  intros flat max_depth tl buf0 uninit st first others Hgen Hcase.
  unfold findBestMoveWasm. rewrite Hgen.
  unfold emscripten_get_now at 1. cbv zeta.
  set (st2 := initializeAiEngine _).
  assert (Hst2 : ai_run_counter st2 = 0
                 /\ start_search_time_ms st2 = host_clock st (clock_reads st)
                 /\ current_time_limit_ms st2 = tl
                 /\ host_clock st2 = host_clock st
                 /\ clock_reads st2 = S (clock_reads st)).
  { subst st2. unfold initializeAiEngine. cbv zeta.
    cbn [ai_run_counter start_search_time_ms current_time_limit_ms host_clock clock_reads
         set_history_heuristic set_killers set_transposition_table].
    repeat split; (rewrite initialize_zobrist_keeps; [reflexivity|reflexivity..]). }
  destruct Hst2 as (Hc & Hs & Hl & Hh & Hr).
  assert (Hres : exists st3,
             iterative_deepening (map (fun i => i + 1) (range max_depth))
               (deserialize_board flat uninit)
               (mkDriverVars (first :: others) first true INT_MIN 0) st2
             = Some (mkDriverVars (first :: others) first true INT_MIN 0, st3)
             /\ ai_run_counter st3 = 0).
  { destruct (Z_le_gt_dec max_depth 0) as [Hle|Hgt].
    - rewrite range_nonpos by exact Hle. cbn [map iterative_deepening]. eauto.
    - destruct Hcase as [Hle|Hlate]; [lia|].
      destruct (depths_from_one max_depth) as [ds ->]; [lia|].
      cbn [iterative_deepening]. unfold emscripten_get_now. cbv zeta.
      unfold time_is_up.
      cbn [start_search_time_ms current_time_limit_ms set_clock_reads].
      rewrite Hs, Hl, Hh, Hr, Hlate.
      eexists. split; [reflexivity|]. exact Hc. }
  destruct Hres as (st3 & -> & Hc3).
  cbn [best_move_overall_found best_move_overall depth_achieved best_score_overall].
  eexists _, _. split; [reflexivity|]. split.
  - cbn [map]. rewrite !buf_set_read. rewrite Hc3.
    change (INT_MIN =? INT_MIN) with true. reflexivity.
  - intros j Hj. rewrite !buf_set_read.
    repeat match goal with
           | |- context [j =? ?k] => rewrite (eqb_neq_false j k) by lia
           end.
    reflexivity.
Qed.

Lemma driver_fallback_witness :
  exists buf st',
    findBestMoveWasm (flat_of_board lion_jump_board) 0 1000 (fun _ => 7) empty_board
      (initial_engine frozen_clock) = Some (buf, st')
    /\ buf 6 = 0 /\ buf 10 = 7.
Proof.
  assert (Hgen : exists first others,
             generate_all_valid_moves
               (deserialize_board (flat_of_board lion_jump_board) empty_board) PLAYER1 false
             = first :: others).
  { vm_compute. eauto. }
  destruct Hgen as (first & others & Hgen).
  destruct (driver_fallback (flat_of_board lion_jump_board) 0 1000 (fun _ => 7) empty_board
              (initial_engine frozen_clock) first others Hgen)
    as (buf & st' & E & Hm & Hout).
  - left. lia.
  - exists buf, st'. split; [exact E|]. split.
    + cbn [map] in Hm. congruence.
    + apply Hout. lia.
Defined.

(** *** Reading the flat board *)

Lemma deserialize_cell_other :
  forall flat k r c b r' c',
    r' <> r \/ c' <> c ->
    squares (deserialize_cell flat k r c b) r' c' = squares b r' c'.
Proof.
  intros flat k r c b r' c' H. unfold deserialize_cell. cbv zeta.
  destruct (_ && _); unfold set_square; cbn [squares].
  all: destruct (Z.eqb_spec r' r); destruct (Z.eqb_spec c' c); cbn [andb];
    try reflexivity; lia.
Qed.

Lemma deserialize_cell_same :
  forall flat k r c b1 b2,
    piece (squares b1 r c) = piece (squares b2 r c) ->
    squares (deserialize_cell flat k r c b1) r c
    = squares (deserialize_cell flat k r c b2) r c.
Proof.
  intros flat k r c b1 b2 H. unfold deserialize_cell. cbv zeta.
  destruct (_ && _); unfold set_square; cbn [squares]; rewrite !Z.eqb_refl; cbn [andb];
    [reflexivity|now rewrite H].
Qed.

Lemma deserialize_row :
  forall flat r n,
    0 <= n ->
    forall kb,
      fst (fold_left
             (fun kb c => (fst kb + 3, deserialize_cell flat (fst kb) r c (snd kb)))
             (range n) kb) = fst kb + 3 * n
      /\ (forall r' c', r' <> r \/ c' < 0 \/ n <= c' ->
            squares (snd (fold_left
                            (fun kb c =>
                               (fst kb + 3, deserialize_cell flat (fst kb) r c (snd kb)))
                            (range n) kb)) r' c'
            = squares (snd kb) r' c')
      /\ (forall c', 0 <= c' < n ->
            squares (snd (fold_left
                            (fun kb c =>
                               (fst kb + 3, deserialize_cell flat (fst kb) r c (snd kb)))
                            (range n) kb)) r c'
            = squares (deserialize_cell flat (fst kb + 3 * c') r c' (snd kb)) r c').
Proof.
  intros flat r n Hn. pattern n. apply natlike_ind; [| |exact Hn].
  - intros kb. cbn [range Z.to_nat seq map fold_left].
    split; [lia|]. split; [reflexivity|intros; lia].
  - clear n Hn. intros n Hn IH kb.
    replace (Z.succ n) with (n + 1) by lia.
    rewrite range_succ by exact Hn. rewrite fold_left_app. cbn [fold_left fst snd].
    destruct (IH kb) as (Hk & Hframe & Hcells).
    set (res := fold_left _ (range n) kb) in *.
    split; [lia|]. split.
    + intros r' c' H. rewrite deserialize_cell_other by lia. apply Hframe. lia.
    + intros c' Hc'. destruct (Z.eq_dec c' n) as [->|Hne].
      * rewrite Hk. apply deserialize_cell_same. now rewrite Hframe by lia.
      * rewrite deserialize_cell_other by lia. apply Hcells. lia.
Qed.

Lemma deserialize_rows :
  forall flat cols m,
    0 <= cols -> 0 <= m ->
    forall kb,
      fst (fold_left
             (fun kb r =>
                fold_left
                  (fun kb c => (fst kb + 3, deserialize_cell flat (fst kb) r c (snd kb)))
                  (range cols) kb)
             (range m) kb) = fst kb + 3 * (cols * m)
      /\ (forall r' c', r' < 0 \/ m <= r' \/ c' < 0 \/ cols <= c' ->
            squares (snd (fold_left
                            (fun kb r =>
                               fold_left
                                 (fun kb c =>
                                    (fst kb + 3,
                                     deserialize_cell flat (fst kb) r c (snd kb)))
                                 (range cols) kb)
                            (range m) kb)) r' c'
            = squares (snd kb) r' c')
      /\ (forall r' c', 0 <= r' < m -> 0 <= c' < cols ->
            squares (snd (fold_left
                            (fun kb r =>
                               fold_left
                                 (fun kb c =>
                                    (fst kb + 3,
                                     deserialize_cell flat (fst kb) r c (snd kb)))
                                 (range cols) kb)
                            (range m) kb)) r' c'
            = squares (deserialize_cell flat (fst kb + 3 * (cols * r' + c')) r' c' (snd kb))
                r' c').
Proof.
  intros flat cols m Hcols Hm. pattern m. apply natlike_ind; [| |exact Hm].
  - intros kb. cbn [range Z.to_nat seq map fold_left].
    split; [lia|]. split; [reflexivity|intros; lia].
  - clear m Hm. intros m Hm IH kb.
    replace (Z.succ m) with (m + 1) by lia.
    rewrite range_succ by exact Hm. rewrite fold_left_app. cbn [fold_left].
    destruct (IH kb) as (Hk & Hframe & Hcells).
    set (res := fold_left _ (range m) kb) in *.
    destruct (deserialize_row flat m cols Hcols res) as (Rk & Rframe & Rcells).
    split; [lia|]. split.
    + intros r' c' H.
      destruct (Z.eq_dec r' m) as [->|Hne].
      * rewrite Rframe by lia. apply Hframe. lia.
      * rewrite Rframe by lia. apply Hframe. lia.
    + intros r' c' Hr' Hc'. destruct (Z.eq_dec r' m) as [->|Hne].
      * rewrite Rcells by lia. rewrite Hk.
        replace (fst kb + 3 * (cols * m) + 3 * c') with (fst kb + 3 * (cols * m + c'))
          by lia.
        apply deserialize_cell_same. now rewrite Hframe by lia.
      * rewrite Rframe by lia. apply Hcells; lia.
Qed.

Lemma deserialize_board_square :
  forall flat board r c,
    0 <= nth 0 flat 0 -> 0 <= nth 1 flat 0 ->
    (0 <= r < nth 0 flat 0 -> 0 <= c < nth 1 flat 0 ->
     squares (deserialize_board flat board) r c
     = squares (deserialize_cell flat (2 + 3 * (nth 1 flat 0 * r + c)) r c board) r c)
    /\ (r < 0 \/ nth 0 flat 0 <= r \/ c < 0 \/ nth 1 flat 0 <= c ->
        squares (deserialize_board flat board) r c = squares board r c).
Proof.
  intros flat board r c Hrows Hcols. unfold deserialize_board. cbv zeta.
  destruct (deserialize_rows flat (nth 1 flat 0) (nth 0 flat 0) Hcols Hrows (2, board))
    as (_ & Hframe & Hcells).
  split.
  - intros Hr Hc. rewrite (Hcells r c Hr Hc). reflexivity.
  - intros H. rewrite (Hframe r c H). reflexivity.
Qed.

(** X21: the layout [deserialize_board] reads.  With [rows] and [cols]
    the first two entries of the flat data (within the 9 x 7 board), the
    square [(r, c)] with [r < rows] and [c < cols] is filled from the three
    entries at offset [2 + 3 * (cols * r + c)]: terrain, piece type, owner.
    A type below 8 gives that piece with the rank and value of
    [PIECE_INFO]; any other type, 8 and negative entries included, gives an
    empty square.  The squares outside [rows] x [cols] are not written. *)
Theorem deserialize_board_layout :
  forall flat board r c,
    0 <= nth 0 flat 0 <= BOARD_ROWS ->
    0 <= nth 1 flat 0 <= BOARD_COLS ->
    (0 <= r < nth 0 flat 0 -> 0 <= c < nth 1 flat 0 ->
     terrain (squares (deserialize_board flat board) r c)
     = uint32 (nth (Z.to_nat (2 + 3 * (nth 1 flat 0 * r + c))) flat 0)
     /\ (uint32 (nth (Z.to_nat (2 + 3 * (nth 1 flat 0 * r + c) + 1)) flat 0)
         < NUM_PIECE_TYPES ->
         piece (squares (deserialize_board flat board) r c)
         = mkPiece (uint32 (nth (Z.to_nat (2 + 3 * (nth 1 flat 0 * r + c) + 1)) flat 0))
             (nth (Z.to_nat (2 + 3 * (nth 1 flat 0 * r + c) + 2)) flat 0)
             (rank (PIECE_INFO
                      (uint32 (nth (Z.to_nat (2 + 3 * (nth 1 flat 0 * r + c) + 1)) flat 0))))
             (value (PIECE_INFO
                       (uint32 (nth (Z.to_nat (2 + 3 * (nth 1 flat 0 * r + c) + 1)) flat 0)))))
     /\ (NUM_PIECE_TYPES
         <= uint32 (nth (Z.to_nat (2 + 3 * (nth 1 flat 0 * r + c) + 1)) flat 0) ->
         type (piece (squares (deserialize_board flat board) r c)) = NO_PIECE))
    /\ (r < 0 \/ nth 0 flat 0 <= r \/ c < 0 \/ nth 1 flat 0 <= c ->
        squares (deserialize_board flat board) r c = squares board r c).
Proof.
  intros flat board r c Hrows Hcols.
  destruct (deserialize_board_square flat board r c ltac:(lia) ltac:(lia))
    as (Hcells & Hframe).
  split; [|exact Hframe].
  - intros Hr Hc. rewrite (Hcells Hr Hc).
    set (k := 2 + 3 * (nth 1 flat 0 * r + c)).
    unfold deserialize_cell. cbv zeta.
    set (pt := uint32 (nth (Z.to_nat (k + 1)) flat 0)).
    destruct (Z.ltb_spec pt NUM_PIECE_TYPES) as [Hlt|Hge].
    + rewrite (eqb_neq_false pt NO_PIECE)
        by (unfold NUM_PIECE_TYPES, NO_PIECE in *; lia).
      cbn [negb andb]. unfold set_square. cbn [squares]. rewrite !Z.eqb_refl.
      cbn [andb terrain piece]. split; [reflexivity|]. split; [reflexivity|intros; lia].
    + rewrite andb_false_r. unfold set_square. cbn [squares]. rewrite !Z.eqb_refl.
      cbn [andb terrain piece type]. split; [reflexivity|]. split; [intros; lia|reflexivity].
Qed.

Lemma deserialize_board_layout_witness :
  terrain (squares (deserialize_board (flat_of_board lion_jump_board) empty_board) 3 1)
  = uint32 (nth 71 (flat_of_board lion_jump_board) 0).
Proof.
  refine (proj1 (proj1 (deserialize_board_layout (flat_of_board lion_jump_board)
                          empty_board 3 1 _ _) _ _));
    vm_compute; split; first [discriminate | reflexivity].
Defined.

Lemma board_coordinates :
  forall r c,
    is_valid_move_coords r c = true ->
    (r = 0 \/ r = 1 \/ r = 2 \/ r = 3 \/ r = 4 \/ r = 5 \/ r = 6 \/ r = 7 \/ r = 8)
    /\ (c = 0 \/ c = 1 \/ c = 2 \/ c = 3 \/ c = 4 \/ c = 5 \/ c = 6).
Proof.
  intros r c H. unfold is_valid_move_coords, BOARD_ROWS, BOARD_COLS in H.
  rewrite !andb_true_iff, !Z.geb_leb, !Z.leb_le, !Z.ltb_lt in H. lia.
Qed.

Lemma flat_of_board_entries :
  forall b r c,
    is_valid_move_coords r c = true ->
    nth (Z.to_nat (2 + 3 * (7 * r + c))) (flat_of_board b) 0 = terrain (squares b r c)
    /\ nth (Z.to_nat (2 + 3 * (7 * r + c) + 1)) (flat_of_board b) 0
       = type (piece (squares b r c))
    /\ nth (Z.to_nat (2 + 3 * (7 * r + c) + 2)) (flat_of_board b) 0
       = player (piece (squares b r c)).
Proof.
  intros b r c H. apply board_coordinates in H. destruct H as [Hr Hc].
  destruct Hr as [-> | [-> | [-> | [-> | [-> | [-> | [-> | [-> | ->]]]]]]]];
    destruct Hc as [-> | [-> | [-> | [-> | [-> | [-> | ->]]]]]];
    repeat split; reflexivity.
Qed.

(** X22: reading back a serialised board.  For a square of the board
    whose terrain is a 32-bit value and which is empty or holds a piece of
    a type below 8 with the rank and value of [PIECE_INFO],
    [deserialize_board] applied to the flat form of the board gives the
    same terrain and piece type, and the same piece when there is one,
    whatever the target board held before. *)
Theorem deserialize_reads_back :
  forall b uninitialised r c,
    is_valid_move_coords r c = true ->
    0 <= terrain (squares b r c) < 2 ^ 32 ->
    type (piece (squares b r c)) = NO_PIECE
    \/ (0 <= type (piece (squares b r c)) < NUM_PIECE_TYPES
        /\ rank (piece (squares b r c)) = rank (PIECE_INFO (type (piece (squares b r c))))
        /\ value (piece (squares b r c))
           = value (PIECE_INFO (type (piece (squares b r c))))) ->
    terrain (squares (deserialize_board (flat_of_board b) uninitialised) r c)
    = terrain (squares b r c)
    /\ type (piece (squares (deserialize_board (flat_of_board b) uninitialised) r c))
       = type (piece (squares b r c))
    /\ (occupied b r c = true ->
        piece (squares (deserialize_board (flat_of_board b) uninitialised) r c)
        = piece (squares b r c)).
Proof.
  intros b b0 r c Hv Hter Hpiece.
  destruct (deserialize_board_square (flat_of_board b) b0 r c) as (Hcell & _);
    [change (0 <= 9); lia|change (0 <= 7); lia|].
  change (nth 0 (flat_of_board b) 0) with 9 in Hcell.
  change (nth 1 (flat_of_board b) 0) with 7 in Hcell.
  pose proof (board_coordinates r c Hv) as Hrc.
  rewrite Hcell by lia. clear Hcell.
  destruct (flat_of_board_entries b r c Hv) as (E0 & E1 & E2).
  unfold deserialize_cell. cbv zeta. rewrite E0, E1, E2.
  unfold uint32. rewrite (Z.mod_small (terrain (squares b r c))) by lia.
  unfold occupied.
  destruct Hpiece as [Hnone|(Hty & Hrank & Hval)].
  - rewrite Hnone. change (negb (NO_PIECE mod 2 ^ 32 =? NO_PIECE)) with false.
    cbn [andb]. unfold set_square. cbn [squares]. rewrite !Z.eqb_refl.
    cbn [andb terrain piece type]. repeat split; auto. discriminate.
  - unfold NUM_PIECE_TYPES in Hty.
    rewrite (Z.mod_small (type (piece (squares b r c)))) by lia.
    rewrite (eqb_neq_false _ NO_PIECE) by (unfold NO_PIECE; lia).
    replace (type (piece (squares b r c)) <? NUM_PIECE_TYPES) with true
      by (symmetry; apply Z.ltb_lt; unfold NUM_PIECE_TYPES; lia).
    cbn [negb andb]. unfold set_square. cbn [squares]. rewrite !Z.eqb_refl.
    cbn [andb terrain piece type]. repeat split; auto.
    intros _. rewrite <- Hrank, <- Hval. now destruct (piece (squares b r c)).
Qed.

Lemma deserialize_reads_back_witness :
  piece (squares (deserialize_board (flat_of_board lion_jump_board) empty_board) 2 1)
  = piece (squares lion_jump_board 2 1).
Proof.
  refine (proj2 (proj2 (deserialize_reads_back lion_jump_board empty_board 2 1 _ _ _)) _).
  - reflexivity.
  - vm_compute. split; [discriminate|reflexivity].
  - right. vm_compute. repeat split; discriminate.
  - reflexivity.
Defined.

(** *** Hashes stay 64-bit values *)

Lemma is_int64_shift :
  forall x, is_int64 x <-> (Z.shiftr x 63 = 0 \/ Z.shiftr x 63 = -1).
Proof.
  intros x. unfold is_int64. rewrite Z.shiftr_div_pow2 by lia.
  pose proof (Z.div_mod x (2 ^ 63) ltac:(lia)) as E.
  pose proof (Z.mod_pos_bound x (2 ^ 63) ltac:(lia)) as B.
  generalize dependent (x / 2 ^ 63). generalize dependent (x mod 2 ^ 63).
  intros m B q E. lia.
Qed.

Lemma lxor_int64 : forall a b, is_int64 a -> is_int64 b -> is_int64 (Z.lxor a b).
Proof.
  intros a b Ha Hb. apply is_int64_shift in Ha. apply is_int64_shift in Hb.
  apply is_int64_shift. rewrite Z.shiftr_lxor.
  destruct Ha as [-> | ->], Hb as [-> | ->]; cbn; auto.
Qed.

Lemma int64_is_int64 : forall z, is_int64 (int64 z).
Proof.
  intros z. unfold is_int64, int64.
  pose proof (Z.mod_pos_bound (z + 2 ^ 63) (2 ^ 64) ltac:(lia)). lia.
Qed.

Lemma fold_left_invariant :
  forall (A B : Type) (P : A -> Prop) (f : A -> B -> A) (l : list B) (a : A),
    (forall a x, P a -> P (f a x)) -> P a -> P (fold_left f l a).
Proof.
  intros A B P f l. induction l as [|x l IH]; intros a H Ha; cbn [fold_left]; [exact Ha|].
  apply IH; [exact H|]. apply H. exact Ha.
Qed.

Lemma initialize_zobrist_int64 :
  forall st, keys_are_int64 st -> keys_are_int64 (initialize_zobrist st).
Proof.
  intros st Hst. unfold initialize_zobrist.
  destruct (zobrist_initialized st); [exact Hst|].
  match goal with
  | |- context [random_int64 ?s] => remember s as st1 eqn:E1
  end.
  assert (H1 : keys_are_int64 st1).
  { subst st1.
    apply fold_left_invariant; [|exact Hst]. intros a pt Ha.
    apply fold_left_invariant; [|exact Ha]. intros a0 p Ha0.
    apply fold_left_invariant; [|exact Ha0]. intros a1 r Ha1.
    apply fold_left_invariant; [|exact Ha1]. intros a2 c [Hside Htab].
    unfold random_int64, set_zobrist_cell. cbv zeta. split; [exact Hside|].
    intros pt' p' r' c'. cbn [zobrist_table set_zobrist_table set_lcg_rand_state].
    destruct (_ && _); [apply int64_is_int64|apply Htab]. }
  unfold random_int64. cbv zeta. destruct H1 as [Hside Htab].
  split; [apply int64_is_int64|exact Htab].
Qed.

(** X23: hashes stay values of the C type.  When every Zobrist key of the
    engine state is a 64-bit value, the key set-up keeps it so, the full key
    of any position and the key after any simulated move are 64-bit values
    again, and the slot index of the full key lies inside the transposition
    table. *)
Theorem hashes_are_int64 :
  forall st,
    keys_are_int64 st ->
    keys_are_int64 (initialize_zobrist st)
    /\ (forall board pl,
          is_int64 (fst (compute_zobrist_key_full board pl st))
          /\ keys_are_int64 (snd (compute_zobrist_key_full board pl st))
          /\ 0 <= tt_index_of (fst (compute_zobrist_key_full board pl st))
             < TRANSPOSITION_TABLE_SIZE)
    /\ (forall board move moved_type pl hash,
          is_int64 hash ->
          is_int64 (snd (simulate_move_and_update_hash st board move moved_type pl hash))).
Proof.
  intros st Hst. split; [now apply initialize_zobrist_int64|]. split.
  - intros board pl.
    assert (H : is_int64 (fst (compute_zobrist_key_full board pl st))
                /\ keys_are_int64 (snd (compute_zobrist_key_full board pl st))).
    { unfold compute_zobrist_key_full. cbv zeta. cbn [fst snd].
      assert (Hst' : keys_are_int64
                       (if negb (zobrist_initialized st) then initialize_zobrist st
                        else st)).
      { destruct (negb (zobrist_initialized st));
          [now apply initialize_zobrist_int64|exact Hst]. }
      revert Hst'.
      generalize (if negb (zobrist_initialized st) then initialize_zobrist st else st).
      intros st' Hst'.
      split; [|exact Hst']. destruct Hst' as [Hside Htab].
      assert (Hkey : is_int64
                (fold_left
                   (fun key r =>
                      fold_left (fun key c => zobrist_square st' board r c key)
                        (range BOARD_COLS) key)
                   (range BOARD_ROWS) 0)).
      { apply fold_left_invariant; [|unfold is_int64; lia]. intros k r Hk.
        apply fold_left_invariant; [|exact Hk]. intros k0 c Hk0.
        unfold zobrist_square.
        destruct (negb (type (piece (squares board r c)) =? NO_PIECE)); [|exact Hk0].
        apply lxor_int64; [exact Hk0|apply Htab]. }
      destruct (pl =? PLAYER1); [apply lxor_int64; assumption|exact Hkey]. }
    destruct H as [Hh Hk]. split; [exact Hh|]. split; [exact Hk|].
    apply tt_index_range. exact Hh.
  - intros board move moved_type pl hash Hh. destruct Hst as [Hside Htab].
    unfold simulate_move_and_update_hash. cbv zeta. cbn [snd].
    apply lxor_int64; [|exact Hside]. apply lxor_int64; [|apply Htab].
    destruct (negb (captured_piece_type move =? NO_PIECE));
      [apply lxor_int64; [|apply Htab]|];
      (apply lxor_int64; [exact Hh|apply Htab]).
Qed.

Lemma hashes_are_int64_witness :
  0 <= tt_index_of
         (fst (compute_zobrist_key_full rats_board PLAYER1 (initial_engine frozen_clock)))
    < TRANSPOSITION_TABLE_SIZE.
Proof.
  assert (Hk : keys_are_int64 (initial_engine frozen_clock)).
  { split; [|intros pt p r c]; cbn; unfold is_int64; lia. }
  destruct (hashes_are_int64 (initial_engine frozen_clock) Hk) as (_ & H & _).
  apply (H rats_board PLAYER1).
Defined.

(** *** Captures and water *)

(** X24: captures into and inside the water.  Between existing pieces
    of different owners: an attacker standing in the water captures a
    defender in the water exactly when it is a Rat, the defender is not an
    Elephant and the Rat's rank is at least the defender's effective rank;
    and the function has no rule that protects a piece in the water from
    an attacker on land: apart from the Rat and Elephant pair, that capture
    is decided by the effective ranks alone. *)
Theorem water_capture_rules :
  forall board att def att_r att_c def_r def_c,
    type att <> NO_PIECE -> type def <> NO_PIECE -> player att <> player def ->
    terrain (squares board def_r def_c) = TERRAIN_WATER ->
    (terrain (squares board att_r att_c) = TERRAIN_WATER ->
     rules_can_capture (Some att) (Some def) att_r att_c def_r def_c board
     = (type att =? PIECE_TYPE_RAT) && negb (type def =? PIECE_TYPE_ELEPHANT)
       && (rank att >=? rank def))
    /\ (terrain (squares board att_r att_c) <> TERRAIN_WATER ->
        ~ (type att = PIECE_TYPE_RAT /\ type def = PIECE_TYPE_ELEPHANT) ->
        ~ (type att = PIECE_TYPE_ELEPHANT /\ type def = PIECE_TYPE_RAT) ->
        rules_can_capture (Some att) (Some def) att_r att_c def_r def_c board
        = (rules_get_effective_rank (Some att) att_r att_c board >=? rank def)).
Proof.
  intros board att def att_r att_c def_r def_c Ha Hd Hp Hdw.
  assert (Hdef : rules_get_effective_rank (Some def) def_r def_c board = rank def).
  { rewrite effective_rank_unfold by exact Hd. rewrite Hdw.
    change (TERRAIN_WATER =? TERRAIN_TRAP) with false. reflexivity. }
  split.
  - intros Haw. unfold rules_can_capture.
    rewrite (eqb_neq_false _ _ Ha), (eqb_neq_false _ _ Hd), (eqb_neq_false _ _ Hp).
    cbn [orb]. rewrite Hdef, Haw, Hdw. rewrite !Z.eqb_refl. cbn [negb andb].
    rewrite effective_rank_unfold by exact Ha. rewrite Haw.
    change (TERRAIN_WATER =? TERRAIN_TRAP) with false. cbn [andb].
    destruct (Z.eqb_spec (type att) PIECE_TYPE_RAT) as [E1|E1]; cbn [negb andb];
      [|reflexivity].
    destruct (Z.eqb_spec (type def) PIECE_TYPE_ELEPHANT) as [E2|E2]; cbn [negb andb];
      [reflexivity|].
    rewrite E1. change (PIECE_TYPE_RAT =? PIECE_TYPE_ELEPHANT) with false.
    reflexivity.
  - intros Haw Hre Her. unfold rules_can_capture.
    rewrite (eqb_neq_false _ _ Ha), (eqb_neq_false _ _ Hd), (eqb_neq_false _ _ Hp),
      (eqb_neq_false _ _ Haw).
    cbn [orb andb]. rewrite Hdef.
    destruct (Z.eqb_spec (type att) PIECE_TYPE_RAT) as [E1|E1];
      destruct (Z.eqb_spec (type def) PIECE_TYPE_ELEPHANT) as [E2|E2]; cbn [andb];
      try tauto;
      destruct (Z.eqb_spec (type att) PIECE_TYPE_ELEPHANT) as [E3|E3];
      destruct (Z.eqb_spec (type def) PIECE_TYPE_RAT) as [E4|E4]; cbn [andb];
      try tauto; reflexivity.
Qed.

Lemma water_capture_rules_witness :
  rules_can_capture (Some (mkPiece PIECE_TYPE_CAT PLAYER0 2 200))
    (Some (piece (squares rat_in_water_board 3 1))) 2 1 3 1 rat_in_water_board
  = (rules_get_effective_rank (Some (mkPiece PIECE_TYPE_CAT PLAYER0 2 200)) 2 1
       rat_in_water_board
     >=? rank (piece (squares rat_in_water_board 3 1))).
Proof.
  refine (proj2 (water_capture_rules rat_in_water_board
                   (mkPiece PIECE_TYPE_CAT PLAYER0 2 200)
                   (piece (squares rat_in_water_board 3 1)) 2 1 3 1 _ _ _ _) _ _ _).
  - vm_compute; discriminate.
  - vm_compute; discriminate.
  - vm_compute; discriminate.
  - reflexivity.
  - vm_compute; discriminate.
  - intros [H _]; vm_compute in H; discriminate.
  - intros [H _]; vm_compute in H; discriminate.
Defined.

(** *** Node counting *)

Lemma counts_nodes_refl : forall st, counts_nodes st st.
Proof.
  intros st. split; [lia|]. split; [auto|]. exists 0. rewrite Nat.sub_diag. cbn. lia.
Qed.

Lemma counts_nodes_trans :
  forall a b c, counts_nodes a b -> counts_nodes b c -> counts_nodes a c.
Proof.
  intros a b c (L1 & R1 & k1 & E1) (L2 & R2 & k2 & E2).
  split; [lia|]. split; [auto|]. exists (k1 + k2). rewrite E2, E1.
  replace (clock_reads c - clock_reads a)%nat
    with ((clock_reads b - clock_reads a) + (clock_reads c - clock_reads b))%nat by lia.
  rewrite Nat2Z.inj_add. lia.
Qed.

Lemma counts_nodes_enter : forall st, counts_nodes st (snd (enter_node st)).
Proof.
  intros st. unfold counts_nodes, enter_node, emscripten_get_now, uint64.
  cbn [snd clock_reads ai_run_counter set_clock_reads set_ai_run_counter].
  pose proof (Z.mod_pos_bound (ai_run_counter st + 1) (2 ^ 64) ltac:(lia)) as B.
  pose proof (Z.div_mod (ai_run_counter st + 1) (2 ^ 64) ltac:(lia)) as E.
  split; [lia|]. split; [intros _; lia|].
  exists (- ((ai_run_counter st + 1) / 2 ^ 64)).
  replace (S (clock_reads st) - clock_reads st)%nat with 1%nat by lia.
  change (Z.of_nat 1) with 1. lia.
Qed.

Lemma counts_nodes_same :
  forall st st',
    ai_run_counter st' = ai_run_counter st -> clock_reads st' = clock_reads st ->
    counts_nodes st st'.
Proof.
  intros st st' Ha Hc. unfold counts_nodes. rewrite Ha, Hc.
  split; [lia|]. split; [auto|]. exists 0. rewrite Nat.sub_diag. cbn. lia.
Qed.

Lemma counts_nodes_killer : forall ply m st, counts_nodes st (record_killer_move ply m st).
Proof.
  intros ply m st. apply counts_nodes_same; unfold record_killer_move;
    destruct ((ply <? 0) || (ply >=? MAX_PLY_FOR_KILLERS)); try reflexivity;
    destruct (negb (killer_moves_valid st ply 0)
              || negb (same_squares (killer_moves st ply 0) m)); reflexivity.
Qed.

Lemma counts_nodes_store :
  forall st h s d oa b bm, counts_nodes st (tt_store st h s d oa b bm).
Proof.
  intros. apply counts_nodes_same; unfold tt_store;
    destruct (negb (s =? TIMEOUT_SCORE)); reflexivity.
Qed.

(** X25: the node counter counts the time checks.  Across every call of
    [alpha_beta] that returns, [ai_run_counter] advances, modulo 2^64, by
    exactly the number of clock readings made: every node entered, in the
    main search and in the quiescence search, reads the clock once, and
    nothing else touches the counter. *)
Theorem node_counter_counts_clock_reads :
  forall fuel board hash depth_ alpha beta is_max ply cnt an st v st',
    alpha_beta fuel board hash depth_ alpha beta is_max ply cnt an st = Some (v, st') ->
    0 <= ai_run_counter st < 2 ^ 64 ->
    (clock_reads st <= clock_reads st')%nat
    /\ ai_run_counter st'
       = uint64 (ai_run_counter st + Z.of_nat (clock_reads st' - clock_reads st)).
Proof.
  intros fuel board hash depth_ alpha beta is_max ply cnt an st v st' H Hr.
  assert (Hpush : forall s n h, counts_nodes s (store_path_hash s n h))
    by (intros; apply counts_nodes_same; reflexivity).
  assert (Hhist : forall s f, counts_nodes s (set_history_heuristic s f))
    by (intros; apply counts_nodes_same; reflexivity).
  pose proof (alpha_beta_keeps counts_nodes counts_nodes_refl counts_nodes_trans
                counts_nodes_enter Hpush counts_nodes_killer Hhist counts_nodes_store
                fuel _ _ _ _ _ _ _ _ _ _ _ _ H) as (Hle & Hrange & k & E).
  split; [exact Hle|]. specialize (Hrange Hr). unfold uint64.
  apply (Z.mod_unique _ _ (- k)); lia.
Qed.

Lemma node_counter_counts_clock_reads_witness :
  exists v st',
    alpha_beta 2 lion_jump_board 0 1 (-100) 100 true 1 1 true ready_engine = Some (v, st')
    /\ ai_run_counter st'
       = uint64 (ai_run_counter ready_engine
                 + Z.of_nat (clock_reads st' - clock_reads ready_engine)).
Proof.
  destruct (alpha_beta_total 2 1 1 ltac:(vm_compute; lia)
              ltac:(unfold path_fits, PATH_HASHES_SIZE, MAX_PLY_FOR_KILLERS; lia)
              lion_jump_board 0 (-100) 100 true 1 true ready_engine) as [[v st'] H].
  exists v, st'. split; [exact H|].
  apply (node_counter_counts_clock_reads _ _ _ _ _ _ _ _ _ _ _ _ _ H).
  vm_compute. split; [discriminate|reflexivity].
Defined.

Lemma only_counters_differ_refl : forall st, only_counters_differ st st.
Proof. intros st. exists (ai_run_counter st), (clock_reads st). now destruct st. Qed.

Lemma only_counters_differ_trans :
  forall a b c,
    only_counters_differ a b -> only_counters_differ b c -> only_counters_differ a c.
Proof.
  intros a b c (n1 & k1 & ->) (n2 & k2 & ->). exists n2, k2. reflexivity.
Qed.

Lemma only_counters_differ_enter : forall st, only_counters_differ st (snd (enter_node st)).
Proof.
  intros st. exists (uint64 (ai_run_counter st + 1)), (S (clock_reads st)). reflexivity.
Qed.

(** X26: the quiescence search only reads.  A call of
    [quiescence_search] that returns changes nothing in the engine state
    but the node counter and the number of clock readings: it writes neither
    the transposition table nor the killer, history and path arrays. *)
Theorem quiescence_only_counts :
  forall fuel board hash alpha beta is_max ply q_depth st v st',
    quiescence_search fuel board hash alpha beta is_max ply q_depth st = Some (v, st') ->
    only_counters_differ st st'
    /\ transposition_table st' = transposition_table st
    /\ killer_moves st' = killer_moves st
    /\ killer_moves_valid st' = killer_moves_valid st
    /\ history_heuristic st' = history_heuristic st
    /\ path_hashes st' = path_hashes st.
Proof.
  intros fuel board hash alpha beta is_max ply q_depth st v st' H.
  pose proof (quiescence_search_keeps only_counters_differ only_counters_differ_refl
                only_counters_differ_trans only_counters_differ_enter
                fuel _ _ _ _ _ _ _ _ _ _ H) as Hk.
  split; [exact Hk|]. destruct Hk as (n & k & ->). repeat split; reflexivity.
Qed.

Lemma quiescence_only_counts_witness :
  exists v st',
    quiescence_search Q_FUEL lion_jump_board 0 (-50) 50 true 1 0 ready_engine
    = Some (v, st')
    /\ transposition_table st' = transposition_table ready_engine.
Proof.
  destruct (quiescence_search_total Q_FUEL 0 ltac:(lia) ltac:(vm_compute; lia)
              lion_jump_board 0 (-50) 50 true 1 ready_engine) as [[v st'] H].
  exists v, st'. split; [exact H|].
  apply (quiescence_only_counts _ _ _ _ _ _ _ _ _ _ _ H).
Defined.

(** *** When the repetition check fires *)

(** X27: the repetition check of [alpha_beta] fires exactly when the ply
    is positive and the current hash occurs at least twice among
    [path_hashes[0..path_hash_count]], the slot at [path_hash_count] that
    the node is about to overwrite included; in particular it never fires
    at ply 0 nor with an empty path. *)
Theorem repetition_check_exact :
  forall st current_hash path_hash_count ply,
    (repetition_draw st current_hash path_hash_count ply = true
     <-> ply > 0 /\ occurrences_in_path st current_hash path_hash_count >= 2)
    /\ (ply <= 0 \/ path_hash_count <= 0 ->
        repetition_draw st current_hash path_hash_count ply = false).
Proof.
  intros st h n ply.
  assert (Hiff : repetition_draw st h n ply = true
                 <-> ply > 0 /\ occurrences_in_path st h n >= 2).
  { split.
    - unfold repetition_draw. intros H.
      apply andb_true_iff in H. destruct H as [_ H].
      apply existsb_exists in H. destruct H as (i & _ & H).
      apply andb_true_iff in H. destruct H as [_ H].
      apply andb_true_iff in H. destruct H as [Hc Hp].
      rewrite rep_count_occurrences in Hc.
      rewrite Z.geb_leb in Hc. apply Z.leb_le in Hc. apply Z.gtb_lt in Hp. lia.
    - intros [Hp Ho]. now apply repetition_draw_fires. }
  split; [exact Hiff|].
  intros Hcase. apply not_true_is_false. intros E.
  apply Hiff in E. destruct E as [Hp Ho].
  destruct Hcase as [Hply|Hn]; [lia|].
  unfold occurrences_in_path in Ho.
  destruct (Z.eq_dec n 0) as [->|Hne].
  - change (range (0 + 1)) with [0] in Ho. cbn [filter] in Ho.
    destruct (path_hashes st 0 =? uint64 h); cbn [length] in Ho; lia.
  - rewrite range_nonpos in Ho by lia. cbn [filter length] in Ho. lia.
Qed.

Lemma repetition_check_exact_witness :
  repetition_draw (set_path_hashes ready_engine (fun _ => 5)) 5 2 0 = false.
Proof.
  apply (proj2 (repetition_check_exact (set_path_hashes ready_engine (fun _ => 5)) 5 2 0)).
  left. lia.
Defined.

(** *** Every generated move is legal, and every legal move is generated *)

Lemma landing_is_step :
  forall board pce r c nr nc co,
    landing_allowed board pce r c nr nc co -> step_allowed board pce r c nr nc co.
Proof.
  intros board pce r c nr nc co (Hden & Hwat & Hocc).
  split; [exact Hden|]. split; [intros H; contradiction|exact Hocc].
Qed.

Lemma valid_moves_allowed :
  forall board r c co m,
    In m (rules_get_valid_moves_for_piece board r c co) ->
    m = move_to board r c (to_row m) (to_col m)
    /\ step_allowed board (piece (squares board r c)) r c (to_row m) (to_col m) co.
Proof.
  intros board r c co m Hin. apply valid_moves_parts in Hin.
  destruct Hin as (_ & [(i & _ & Hm)|(j & _ & Hm)]).
  - apply orthogonal_step_spec in Hm. destruct Hm as (-> & _ & Hs).
    cbn [to_row to_col]. split; [reflexivity|exact Hs].
  - apply jump_step_spec in Hm. destruct Hm as (-> & _ & Hl).
    cbn [to_row to_col]. split; [reflexivity|now apply landing_is_step].
Qed.

(** X28: the whole generator is sound and complete for the pieces of the
    player.  A move is in the list of [generate_all_valid_moves] exactly
    when it is one of the moves of [rules_get_valid_moves_for_piece] for a
    square of the board that holds a piece of the player; and every move of
    the list matches the position, carries the score 0, does not end on the
    mover's own den, ends in the water only for a Rat, ends on an occupied
    square only when the capture is allowed, and is a capture in the
    captures-only mode. *)
Theorem generator_sound_and_complete :
  forall board pl co m,
    (In m (generate_all_valid_moves board pl co)
     <-> exists r c,
           is_valid_move_coords r c = true
           /\ occupied board r c = true
           /\ player (piece (squares board r c)) = pl
           /\ In m (rules_get_valid_moves_for_piece board r c co))
    /\ (In m (generate_all_valid_moves board pl co) ->
        move_fits board pl m
        /\ order_score m = 0
        /\ terrain (squares board (to_row m) (to_col m)) <> own_den_terrain_of pl
        /\ (terrain (squares board (to_row m) (to_col m)) = TERRAIN_WATER ->
            piece_type m = PIECE_TYPE_RAT)
        /\ (occupied board (to_row m) (to_col m) = true ->
            rules_can_capture
              (Some (piece (squares board (from_row m) (from_col m))))
              (Some (piece (squares board (to_row m) (to_col m))))
              (from_row m) (from_col m) (to_row m) (to_col m) board = true)
        /\ (co = true -> is_capture m = true)).
Proof.
  intros board pl co m. split.
  - split; [apply generate_all_origin|].
    intros (r & c & Hv & Ho & Hp & Hin).
    rewrite generate_all_flat. apply in_flat_map. exists (r, c).
    split; [now apply in_all_squares|].
    unfold piece_moves_of. cbn [fst snd]. unfold occupied in Ho.
    rewrite Ho, Hp, Z.eqb_refl. exact Hin.
  - intros Hin.
    split; [apply legal_move_fits; now exists co|].
    apply generate_all_origin in Hin. destruct Hin as (r & c & Hv & Ho & Hp & Hin).
    destruct (valid_moves_allowed _ _ _ _ _ Hin) as (Hm & Hden & Hwat & Hocc).
    rewrite Hp in Hden.
    assert (Hfrom : from_row m = r /\ from_col m = c
                    /\ piece_type m = type (piece (squares board r c))
                    /\ order_score m = 0
                    /\ captured_piece_type m
                       = captured_type_of (piece_ptr board (to_row m) (to_col m))).
    { rewrite Hm. cbn. auto. }
    destruct Hfrom as (Hfr & Hfc & Hpt & Hos & Hcap).
    rewrite Hfr, Hfc, Hpt.
    split; [exact Hos|]. split; [exact Hden|]. split; [exact Hwat|]. split.
    + intros Hto. destruct Hocc as [[Hf _]|(_ & _ & Hc)]; [congruence|exact Hc].
    + intros ->. unfold is_capture. rewrite Hcap, captured_type_occupied.
      destruct Hocc as [[_ Hf]|(Hto & _)]; [discriminate|].
      rewrite Hto. exact Hto.
Qed.

Lemma generator_sound_and_complete_witness :
  In (move_to lion_jump_board 2 1 6 1) (generate_all_valid_moves lion_jump_board PLAYER1 true).
Proof.
  apply (proj2 (proj1 (generator_sound_and_complete lion_jump_board PLAYER1 true
                         (move_to lion_jump_board 2 1 6 1)))).
  exists 2, 1. repeat split; try reflexivity.
  vm_compute. repeat (try (left; reflexivity); right).
Defined.

(** *** What the driver leaves behind *)

Lemma search_root_moves_frame :
  forall board root_hash d moves best bm st r,
    search_root_moves board root_hash d moves best bm st = Some r ->
    search_frame st (match r with ROOT_TIMEOUT st' => st' | ROOT_DONE _ _ st' => st' end).
Proof.
  intros board root_hash d moves.
  induction moves as [|m rest IH]; intros best bm st r H; cbn [search_root_moves] in H.
  - inversion H. apply search_frame_refl.
  - destruct (simulate_move_and_update_hash st board m (piece_type m) PLAYER1 root_hash)
      as [nb nh].
    change (push_path_hash st 0 nh) with (Some (store_path_hash st 0 nh)) in H.
    cbv iota in H.
    destruct (alpha_beta (S (Z.to_nat (d - 1))) nb nh (d - 1) INT_MIN INT_MAX false 0 0 true
                (store_path_hash st 0 nh)) as [[s st1]|] eqn:E; [|discriminate].
    apply (alpha_beta_keeps search_frame search_frame_refl search_frame_trans
             search_frame_enter search_frame_push search_frame_killer
             search_frame_history search_frame_store) in E.
    assert (T : search_frame st st1).
    { eapply search_frame_trans; [apply search_frame_push|exact E]. }
    destruct (s =? TIMEOUT_SCORE); [inversion H; subst; exact T|].
    destruct (s >? best); apply IH in H; eapply search_frame_trans; eauto.
Qed.

Lemma search_frame_clock :
  forall st, search_frame st (snd (emscripten_get_now st)).
Proof. intros st. unfold search_frame. cbn. repeat split; auto. Qed.

Lemma iterative_deepening_frame :
  forall board depths v st v' st',
    zobrist_initialized st = true ->
    iterative_deepening depths board v st = Some (v', st') ->
    search_frame st st'
    /\ (depth_achieved v' = depth_achieved v \/ In (depth_achieved v') depths).
Proof.
  intros board depths.
  induction depths as [|d rest IH]; intros v st v' st' Hi H; cbn [iterative_deepening] in H.
  - some_inv H. split; [apply search_frame_refl|now left].
  - pose proof (search_frame_clock st) as T1.
    destruct (emscripten_get_now st) as [now st1]. cbn [snd] in T1.
    destruct (time_is_up now st1); [some_inv H; split; [exact T1|now left]|].
    assert (Hi1 : zobrist_initialized st1 = true).
    { destruct T1 as (_ & _ & E & _). congruence. }
    rewrite (compute_zobrist_key_full_initialized st1 board PLAYER1 Hi1) in H.
    match type of H with
    | match search_root_moves ?b ?h ?dd ?ms ?bs ?bm ?s with _ => _ end = _ =>
      destruct (search_root_moves b h dd ms bs bm s) as [r|] eqn:E; [|discriminate]
    end.
    apply search_root_moves_frame in E.
    destruct r as [st3|s bm st3].
    + some_inv H. split; [eapply search_frame_trans; eauto|now left].
    + assert (T3 : search_frame st st3) by (eapply search_frame_trans; eauto).
      pose proof (search_frame_clock st3) as T4.
      destruct (emscripten_get_now st3) as [now' st4]. cbn [snd] in T4.
      assert (T5 : search_frame st st4) by (eapply search_frame_trans; eauto).
      destruct (time_is_left now' st4).
      * cbn [best_score_overall] in H.
        destruct ((s >? WIN_SCORE - MAX_PLY_FOR_KILLERS * 2)
                  || (s <? LOSE_SCORE + MAX_PLY_FOR_KILLERS * 2)).
        -- some_inv H. split; [exact T5|]. right. now left.
        -- apply IH in H.
           ++ destruct H as [T6 Hd]. split; [eapply search_frame_trans; eauto|].
              cbn [depth_achieved] in Hd. destruct Hd as [->|Hd];
                right; [now left|now right].
           ++ destruct T5 as (_ & _ & E5 & _). congruence.
      * some_inv H. split; [exact T5|now left].
Qed.

Lemma findBestMoveWasm_returns :
  forall flat max_depth time_limit_ms result_buffer uninitialised st,
    max_depth <= PATH_HASHES_SIZE
    \/ generate_all_valid_moves (deserialize_board flat uninitialised) PLAYER1 false = [] ->
  exists r,
    findBestMoveWasm flat max_depth time_limit_ms result_buffer uninitialised st = Some r.
Proof.
  intros flat max_depth tl buf0 uninit st Hfit. unfold findBestMoveWasm.
  destruct (emscripten_get_now (set_current_time_limit_ms st tl)) as [now st1].
  set (board := deserialize_board flat uninit) in *.
  set (st2 := initializeAiEngine _).
  destruct (generate_all_valid_moves board PLAYER1 false) as [|first others];
    [eexists; reflexivity|].
  destruct Hfit as [Hfit|Hfit]; [|discriminate].
  assert (Hinv : driver_invariant (first :: others)
                   (mkDriverVars (first :: others) first true INT_MIN 0)).
  { repeat split; cbn [root_moves best_move_overall best_move_overall_found].
    - intros m Hm. now apply move_of_in.
    - apply move_of_in. now left.
    - discriminate. }
  destruct (iterative_deepening_result (first :: others) board
              (map (fun i => i + 1) (range max_depth)) _ st2 (depths_fit _ Hfit) Hinv)
    as (v & st3 & -> & _).
  destruct (best_move_overall_found v); [eexists; reflexivity|].
  destruct (root_moves v); eexists; reflexivity.
Qed.

(** X29: what [findBestMoveWasm] leaves behind.  With [max_depth] at most
    35, the number of cells of [path_hashes_main], or with no root move for
    Player1, the call returns; the time limit in the engine state is then
    the requested one, the start time is the clock reading taken at entry,
    the Zobrist keys are initialised, the host clock is untouched and at
    least one reading was made; and when a move is reported the status cell
    is 0 and the reported depth is 0 or one of the iterations
    1 .. [max_depth]. *)
Theorem driver_postconditions :
  forall flat_board_data max_depth time_limit_ms result_buffer uninitialised st,
    max_depth <= PATH_HASHES_SIZE
    \/ generate_all_valid_moves (deserialize_board flat_board_data uninitialised)
         PLAYER1 false = [] ->
    exists buf st',
      findBestMoveWasm flat_board_data max_depth time_limit_ms result_buffer uninitialised
        st = Some (buf, st')
      /\ current_time_limit_ms st' = time_limit_ms
      /\ start_search_time_ms st' = host_clock st (clock_reads st)
      /\ host_clock st' = host_clock st
      /\ zobrist_initialized st' = true
      /\ (clock_reads st < clock_reads st')%nat
      /\ (buf 0 = 1 -> buf 9 = 0 /\ (buf 6 = 0 \/ 1 <= buf 6 <= max_depth)).
Proof.
  intros flat max_depth tl buf0 uninit st Hfit.
  destruct (findBestMoveWasm_returns flat max_depth tl buf0 uninit st Hfit)
    as [[buf st'] H].
  exists buf, st'. split; [exact H|].
  unfold findBestMoveWasm in H. unfold emscripten_get_now at 1 in H. cbv zeta in H.
  set (st2 := initializeAiEngine _) in H.
  assert (Hst2 : current_time_limit_ms st2 = tl
                 /\ start_search_time_ms st2 = host_clock st (clock_reads st)
                 /\ host_clock st2 = host_clock st
                 /\ zobrist_initialized st2 = true
                 /\ clock_reads st2 = S (clock_reads st)).
  { assert (Hz : zobrist_initialized st2 = true) by apply initializeAiEngine_keys.
    subst st2. unfold initializeAiEngine. cbv zeta.
    cbn [start_search_time_ms current_time_limit_ms host_clock clock_reads
         set_history_heuristic set_killers set_transposition_table].
    split; [|split; [|split; [|split; [exact Hz|]]]];
      (rewrite initialize_zobrist_keeps; [reflexivity|reflexivity..]). }
  destruct Hst2 as (Hl & Hs & Hh & Hi & Hr).
  assert (Hfinal : forall st3, search_frame st2 st3 ->
            current_time_limit_ms st3 = tl
            /\ start_search_time_ms st3 = host_clock st (clock_reads st)
            /\ host_clock st3 = host_clock st
            /\ zobrist_initialized st3 = true
            /\ (clock_reads st < clock_reads st3)%nat).
  { intros st3 (_ & _ & F3 & _ & F5 & F6 & F7 & F8).
    repeat split; try congruence. lia. }
  destruct (generate_all_valid_moves (deserialize_board flat uninit) PLAYER1 false)
    as [|first others].
  - apply some_pair_inv in H. destruct H as [Hb Hst]. rewrite <- Hb, <- Hst.
    destruct (Hfinal st2 (search_frame_refl st2)) as (A & B & C & D & E).
    split; [exact A|]. split; [exact B|]. split; [exact C|]. split; [exact D|].
    split; [exact E|]. rewrite !buf_set_read. cbn [Z.eqb Pos.eqb]. discriminate.
  - destruct (iterative_deepening (map (fun i => i + 1) (range max_depth))
                (deserialize_board flat uninit)
                (mkDriverVars (first :: others) first true INT_MIN 0) st2)
      as [[v st3]|] eqn:E; [|discriminate].
    apply (iterative_deepening_frame _ _ _ _ _ _ Hi) in E. destruct E as [T Hd].
    cbn [depth_achieved] in Hd.
    assert (Hdepth : depth_achieved v = 0 \/ 1 <= depth_achieved v <= max_depth).
    { destruct Hd as [Hd|Hd]; [now left|right].
      apply in_map_iff in Hd. destruct Hd as (i & <- & Hin).
      apply in_range in Hin. lia. }
    destruct (Hfinal st3 T) as (A & B & C & D & E).
    destruct (best_move_overall_found v); [|destruct (root_moves v)];
      apply some_pair_inv in H; destruct H as [Hb Hst]; rewrite <- Hb, <- Hst;
      (split; [exact A|]; split; [exact B|]; split; [exact C|]; split; [exact D|];
       split; [exact E|]); rewrite !buf_set_read; cbn [Z.eqb Pos.eqb];
      first [discriminate | intros _; split; [reflexivity|exact Hdepth]].
Qed.

Lemma driver_postconditions_witness :
  exists buf st',
    findBestMoveWasm (flat_of_board lion_jump_board) 2 1000 (fun _ => 0) empty_board
      (initial_engine frozen_clock) = Some (buf, st')
    /\ current_time_limit_ms st' = 1000.
Proof.
  destruct (driver_postconditions (flat_of_board lion_jump_board) 2 1000 (fun _ => 0)
              empty_board (initial_engine frozen_clock))
    as (buf & st' & E & Hl & _).
  - left. vm_compute. discriminate.
  - exists buf, st'. split; [exact E|exact Hl].
Defined.

(** *** The evaluation of an ongoing game *)

Lemma eval_counts_are_status_counts :
  forall board l e s,
    p0_ct e = p0c s -> p1_ct e = p1c s ->
    p0_ct (fold_left (fun e rc => evaluate_square board (fst rc) (snd rc) e) l e)
    = p0c (fold_left (fun s rc => status_scan_square board (fst rc) (snd rc) s) l s)
    /\ p1_ct (fold_left (fun e rc => evaluate_square board (fst rc) (snd rc) e) l e)
       = p1c (fold_left (fun s rc => status_scan_square board (fst rc) (snd rc) s) l s).
Proof.
  intros board. induction l as [|rc l IH]; intros e s H0 H1; cbn [fold_left]; [auto|].
  apply IH.
  - unfold evaluate_square, status_scan_square, piece_ptr.
    destruct (negb (type (piece (squares board (fst rc) (snd rc))) =? NO_PIECE));
      [|exact H0].
    cbv zeta. destruct (player (piece (squares board (fst rc) (snd rc))) =? PLAYER0);
      cbn [p0_ct p0c]; lia.
  - unfold evaluate_square, status_scan_square, piece_ptr.
    destruct (negb (type (piece (squares board (fst rc) (snd rc))) =? NO_PIECE));
      [|exact H1].
    cbv zeta. destruct (player (piece (squares board (fst rc) (snd rc))) =? PLAYER0);
      cbn [p1_ct p1c]; lia.
Qed.

(** X30: for an ongoing game the two returns of
    [evaluate_board_internal] that test the piece counts after the loop are
    never taken: both counters are positive, they equal the counters of
    [rules_get_game_status], and the result is the cast to [int] of the
    double difference of the two accumulators. *)
Theorem evaluate_ongoing_board :
  forall board,
    rules_get_game_status board = GAME_STATUS_ONGOING ->
    evaluate_board_internal board
    = double_to_int (dsub (ai_s (eval_scan board)) (pl_s (eval_scan board)))
    /\ 0 < p0_ct (eval_scan board) /\ 0 < p1_ct (eval_scan board)
    /\ p0_ct (eval_scan board) = p0c (status_scan board)
    /\ p1_ct (eval_scan board) = p1c (status_scan board).
Proof.
  intros board H.
  assert (Hscan : status_scan board
                  = fold_left (fun s rc => status_scan_square board (fst rc) (snd rc) s)
                      all_squares (mkStatusScan 0 0 false false)) by reflexivity.
  destruct (eval_counts_are_status_counts board all_squares
              (mkEvalScan (double_of_int 0) (double_of_int 0) 0 0)
              (mkStatusScan 0 0 false false) eq_refl eq_refl) as [C0 C1].
  rewrite <- Hscan in C0, C1. fold (eval_scan board) in C0, C1.
  destruct (status_scan_invariant board all_squares (mkStatusScan 0 0 false false))
    as (B0 & B1 & _); [cbn; lia|cbn; lia|].
  cbv zeta in B0, B1. rewrite <- Hscan in B0, B1.
  assert (Hpos : 0 < p0c (status_scan board) /\ 0 < p1c (status_scan board)).
  { unfold rules_get_game_status in H. clear C0 C1 Hscan.
    revert H B0 B1. generalize (status_scan board). intros s H B0 B1. cbv zeta in H.
    destruct (p0d s); [discriminate|].
    destruct (p1d s); [discriminate|].
    destruct (Z.eqb_spec (p1c s) 0) as [E1|E1];
      destruct (Z.eqb_spec (p0c s) 0) as [E0|E0];
      cbn [andb] in H;
      destruct (Z.gtb_spec (p0c s) 0) as [G0|G0];
      destruct (Z.gtb_spec (p1c s) 0) as [G1|G1];
      try discriminate H; lia. }
  destruct Hpos as [P0 P1].
  split; [|rewrite C0, C1; auto].
  unfold evaluate_board_internal. rewrite H. cbv zeta.
  rewrite (row_col_loops _ (fun r c e => evaluate_square board r c e)).
  change (fold_left (fun acc rc => evaluate_square board (fst rc) (snd rc) acc) all_squares
            (mkEvalScan (double_of_int 0) (double_of_int 0) 0 0)) with (eval_scan board).
  rewrite C0, C1.
  rewrite (eqb_neq_false (p1c (status_scan board)) 0) by lia.
  rewrite (eqb_neq_false (p0c (status_scan board)) 0) by lia.
  reflexivity.
Qed.

Lemma evaluate_ongoing_board_witness :
  0 < p0_ct (eval_scan two_sided_board) /\ 0 < p1_ct (eval_scan two_sided_board).
Proof.
  assert (H : rules_get_game_status two_sided_board = GAME_STATUS_ONGOING)
    by (vm_compute; reflexivity).
  destruct (evaluate_ongoing_board two_sided_board H) as (_ & P0 & P1 & _).
  split; assumption.
Defined.

(** The sums are rounded.  Player1's Dog on (7,0) is worth 300 + 2.8 + 198
    and Player0's Rat on (8,6) 200 + 4.8 in exact arithmetic, a difference
    of 296; the factor 0.2f lies below 0.2, the Dog's sum falls just short
    of 500.8, and the cast gives 295. *)
Example evaluation_is_rounded :
  evaluate_board_internal
    (place (place empty_board 7 0 PIECE_TYPE_DOG PLAYER1) 8 6 PIECE_TYPE_RAT PLAYER0)
  = 295.
Proof. vm_compute. reflexivity. Qed.
